(** * Memory-Management-Simulator: heap allocator and multi-level cache

    A shallow embedding of [src/cache.cpp] and [src/allocator.cpp] together
    with the properties stated about them.

    Conventions of the embedding.
    - [std::size_t], [std::uintptr_t] and [std::uint64_t] are 64-bit unsigned
      integers: values of [Z] kept in [0, 2^64) by [wrap64], which is written
      at every place where the C++ arithmetic can wrap.
    - [int] is a value of [Z]; signed overflow is undefined in C++, so no wrap
      is written for it and the statements that depend on the id counter
      carry the bound [g_next_id < INT_MAX].
    - A [std::uint8_t] is a value of [Z] in [0, 256).
    - A [std::vector] is a [list]; [v[i]] is stdpp's lookup and an in-place
      update of [v[i]] is stdpp's insert/alter (both do nothing out of range,
      where the C++ is undefined).
    - A pointer is an address, a value of [Z] in [0, 2^64); pointer
      arithmetic is addition modulo 2^64, as on the flat 64-bit targets the
      program is built for.
    - The intrusive block list that starts at [g_head] is the [list] of its
      headers in link order; the field [next] of a header is the rest of the
      list, and a [BlockHeader*] is the position of the header in that list.
      Every header records in [self] the address at which it lives.
    - The bytes of the user areas are kept in a byte store indexed by
      address; the bytes of the headers are not mirrored into it.  The two
      views agree as long as every store of the program lands in a user
      area; [admissible] singles out the calls for which this holds, and the
      statements about the states the program reaches are about runs of such
      calls. *)

From stdpp Require Import base numbers list.

Local Open Scope Z_scope.

(** ** Machine integers *)

Definition wrap64 (x : Z) : Z := x mod 2 ^ 64.

Definition INT_MAX : Z := 2 ^ 31 - 1.

(** * cache.cpp *)

(** ** Internal types *)

Record CacheLine := mkCacheLine {
  valid : bool;
  tag : Z;        (* std::uintptr_t *)
  freq : Z;       (* std::uint64_t, LFU counter *)
  last_used : Z;  (* std::uint64_t, LRU tie-break *)
}.

(** The default member initialisers of [CacheLine]. *)
Definition CacheLine_default : CacheLine :=
  {| valid := false; tag := 0; freq := 0; last_used := 0 |}.

#[global] Instance CacheLine_inhabited : Inhabited CacheLine :=
  populate CacheLine_default.

Record CacheLevelStats := mkCacheLevelStats {
  accesses : Z;
  hits : Z;
  misses : Z;
  miss_penalty_accum : Z;
}.

Definition CacheLevelStats_default : CacheLevelStats :=
  {| accesses := 0; hits := 0; misses := 0; miss_penalty_accum := 0 |}.

Record CacheLevel := mkCacheLevel {
  m_size_bytes : Z;
  m_block_size : Z;
  m_associativity : Z;
  m_latency : Z;
  m_num_sets : Z;
  m_level_index : Z;
  m_sets : list (list CacheLine);
  m_stats : CacheLevelStats;
}.

Definition set_m_sets (lvl : CacheLevel) (sets : list (list CacheLine)) : CacheLevel :=
  {| m_size_bytes := m_size_bytes lvl; m_block_size := m_block_size lvl;
     m_associativity := m_associativity lvl; m_latency := m_latency lvl;
     m_num_sets := m_num_sets lvl; m_level_index := m_level_index lvl;
     m_sets := sets; m_stats := m_stats lvl |}.

Definition set_m_stats (lvl : CacheLevel) (st : CacheLevelStats) : CacheLevel :=
  {| m_size_bytes := m_size_bytes lvl; m_block_size := m_block_size lvl;
     m_associativity := m_associativity lvl; m_latency := m_latency lvl;
     m_num_sets := m_num_sets lvl; m_level_index := m_level_index lvl;
     m_sets := m_sets lvl; m_stats := st |}.

(** The line that both branches of [CacheLevel::insert] store. *)
Definition fresh_line (tg timestamp : Z) : CacheLine :=
  {| valid := true; tag := tg; freq := 1; last_used := timestamp |}.

Module CacheLevel.

(** The constructor [CacheLevel::CacheLevel]. *)
Definition make (size_bytes block_size associativity access_latency_cycles
                 level_index : Z) : CacheLevel :=
  let block_size := if block_size =? 0 then 1 else block_size in
  let associativity := if associativity =? 0 then 1 else associativity in
  let latency := if access_latency_cycles =? 0 then 1 else access_latency_cycles in
  let block_size := if block_size =? 0 then 1 else block_size in
  let num_lines := size_bytes / block_size in
  let num_lines := if num_lines =? 0 then 1 else num_lines in
  let associativity := if associativity =? 0 then 1 else associativity in
  let associativity := if num_lines <? associativity then num_lines else associativity in
  let num_sets := num_lines / associativity in
  let '(num_sets, associativity) :=
    if num_sets =? 0 then (1, num_lines) else (num_sets, associativity) in
  {| m_size_bytes := size_bytes; m_block_size := block_size;
     m_associativity := associativity; m_latency := latency;
     m_num_sets := num_sets; m_level_index := level_index;
     m_sets := replicate (Z.to_nat num_sets)
                 (replicate (Z.to_nat associativity) CacheLine_default);
     m_stats := CacheLevelStats_default |}.

(** [compute_index_tag]: the pair (set_idx, tag). *)
Definition compute_index_tag (lvl : CacheLevel) (addr : Z) : Z * Z :=
  let block_addr := addr / m_block_size lvl in
  (block_addr mod m_num_sets lvl, block_addr / m_num_sets lvl).

(** The range-for of [access] over the ways of one set: the set after the
    first matching line was touched, or [None] when no line matches. *)
Fixpoint touch_line (tg timestamp : Z) (set : list CacheLine)
  : option (list CacheLine) :=
  match set with
  | [] => None
  | line :: rest =>
      if valid line && (tag line =? tg)
      then Some ({| valid := valid line; tag := tag line;
                    freq := wrap64 (freq line + 1);
                    last_used := timestamp |} :: rest)
      else cons line <$> touch_line tg timestamp rest
  end.

(** [bool access(addr, timestamp)]: lookup an address. *)
Definition access (addr timestamp : Z) (lvl : CacheLevel) : bool * CacheLevel :=
  let '(set_idx, tg) := compute_index_tag lvl addr in
  let set := m_sets lvl !!! Z.to_nat set_idx in
  match touch_line tg timestamp set with
  | Some set' => (true, set_m_sets lvl (<[Z.to_nat set_idx := set']> (m_sets lvl)))
  | None => (false, lvl)
  end.

(** First loop of [insert]: fill the first invalid line, if there is one. *)
Fixpoint fill_invalid (tg timestamp : Z) (set : list CacheLine)
  : option (list CacheLine) :=
  match set with
  | [] => None
  | line :: rest =>
      if negb (valid line)
      then Some (fresh_line tg timestamp :: rest)
      else cons line <$> fill_invalid tg timestamp rest
  end.

(** One iteration of the victim loop of [insert]. *)
Definition victim_step (set : list CacheLine) (victim_idx i : nat) : nat :=
  let curr := set !!! i in
  let vict := set !!! victim_idx in
  if freq curr <? freq vict then i
  else if (freq curr =? freq vict) && (last_used curr <? last_used vict) then i
  else victim_idx.

(** Second loop of [insert]: [for (i = 1; i < set.size(); ++i)]. *)
Definition choose_victim (set : list CacheLine) : nat :=
  foldl (victim_step set) 0%nat (seq 1 (length set - 1)).

(** [void insert(addr, timestamp)]. *)
Definition insert (addr timestamp : Z) (lvl : CacheLevel) : CacheLevel :=
  let '(set_idx, tg) := compute_index_tag lvl addr in
  let set := m_sets lvl !!! Z.to_nat set_idx in
  let set' :=
    match fill_invalid tg timestamp set with
    | Some set' => set'
    | None => <[choose_victim set := fresh_line tg timestamp]> set
    end in
  set_m_sets lvl (<[Z.to_nat set_idx := set']> (m_sets lvl)).

End CacheLevel.

(** What the constructor establishes and the two methods keep: there is at
    least one set, [m_sets] has [m_num_sets] rows, and no row is empty. *)
Definition level_wf (lvl : CacheLevel) : Prop :=
  0 < m_num_sets lvl ∧
  length (m_sets lvl) = Z.to_nat (m_num_sets lvl) ∧
  Forall (λ set, set ≠ []) (m_sets lvl).

(** ** Multi-level controller *)

Record MultiLevelCache := mkMultiLevelCache {
  m_levels : list CacheLevel;
  m_memory_latency : Z;
  m_timestamp : Z;
  m_total_accesses : Z;
  m_total_hits : Z;
  m_total_misses : Z;
  m_total_penalty : Z;
}.

(** [struct MissRecord] local to [MultiLevelCache::access]. *)
Record MissRecord := mkMissRecord {
  level : Z;               (* int *)
  penalty_upto_level : Z;  (* std::size_t *)
}.

(** What the walk over the levels of [MultiLevelCache::access] leaves behind:
    the levels, [total_penalty], [level_hit] ([None] while [hit_any] is
    false) and [miss_records]. *)
Record Walk := mkWalk {
  w_levels : list CacheLevel;
  w_total_penalty : Z;
  w_level_hit : option nat;
  w_miss_records : list MissRecord;
}.

Definition bump_accesses (st : CacheLevelStats) : CacheLevelStats :=
  {| accesses := wrap64 (accesses st + 1); hits := hits st;
     misses := misses st; miss_penalty_accum := miss_penalty_accum st |}.
Definition bump_hits (st : CacheLevelStats) : CacheLevelStats :=
  {| accesses := accesses st; hits := wrap64 (hits st + 1);
     misses := misses st; miss_penalty_accum := miss_penalty_accum st |}.
Definition bump_misses (st : CacheLevelStats) : CacheLevelStats :=
  {| accesses := accesses st; hits := hits st;
     misses := wrap64 (misses st + 1); miss_penalty_accum := miss_penalty_accum st |}.
Definition add_miss_penalty (extra : Z) (st : CacheLevelStats) : CacheLevelStats :=
  {| accesses := accesses st; hits := hits st; misses := misses st;
     miss_penalty_accum := wrap64 (miss_penalty_accum st + extra) |}.

Module MultiLevelCache.

(** A default-constructed controller (the member initialisers). *)
Definition make : MultiLevelCache :=
  {| m_levels := []; m_memory_latency := 100; m_timestamp := 0;
     m_total_accesses := 0; m_total_hits := 0; m_total_misses := 0;
     m_total_penalty := 0 |}.

Definition reset (c : MultiLevelCache) : MultiLevelCache := make.

Definition set_memory_latency (latency_cycles : Z) (c : MultiLevelCache)
  : MultiLevelCache :=
  {| m_levels := m_levels c;
     m_memory_latency := if latency_cycles =? 0 then 1 else latency_cycles;
     m_timestamp := m_timestamp c; m_total_accesses := m_total_accesses c;
     m_total_hits := m_total_hits c; m_total_misses := m_total_misses c;
     m_total_penalty := m_total_penalty c |}.

Definition set_m_levels (c : MultiLevelCache) (lvls : list CacheLevel)
  : MultiLevelCache :=
  {| m_levels := lvls; m_memory_latency := m_memory_latency c;
     m_timestamp := m_timestamp c; m_total_accesses := m_total_accesses c;
     m_total_hits := m_total_hits c; m_total_misses := m_total_misses c;
     m_total_penalty := m_total_penalty c |}.

Definition add_level (size_bytes block_size associativity
                      access_latency_cycles : Z) (c : MultiLevelCache)
  : MultiLevelCache :=
  let level_index := Z.of_nat (length (m_levels c)) in
  set_m_levels c
    (m_levels c ++ [CacheLevel.make size_bytes block_size associativity
                      access_latency_cycles level_index]).

Definition level_count (c : MultiLevelCache) : Z :=
  Z.of_nat (length (m_levels c)).

Definition configure_level (level_index size_bytes block_size associativity
                            access_latency_cycles : Z) (c : MultiLevelCache)
  : MultiLevelCache :=
  if level_count c <=? level_index then c
  else set_m_levels c
         (<[Z.to_nat level_index :=
              CacheLevel.make size_bytes block_size associativity
                access_latency_cycles level_index]> (m_levels c)).

(** The walk [for (i = 0; i < m_levels.size(); ++i)] of [access], started
    at level [i] with the levels [lvls] still to visit. *)
Fixpoint walk (addr timestamp : Z) (i : nat) (lvls : list CacheLevel)
         (total_penalty : Z) (miss_records : list MissRecord) : Walk :=
  match lvls with
  | [] => {| w_levels := []; w_total_penalty := total_penalty;
             w_level_hit := None; w_miss_records := miss_records |}
  | lvl :: rest =>
      let total_penalty := wrap64 (total_penalty + m_latency lvl) in
      let lvl := set_m_stats lvl (bump_accesses (m_stats lvl)) in
      let '(hit, lvl) := CacheLevel.access addr timestamp lvl in
      if hit
      then {| w_levels := set_m_stats lvl (bump_hits (m_stats lvl)) :: rest;
              w_total_penalty := total_penalty;
              w_level_hit := Some i;
              w_miss_records := miss_records |}
      else
        let lvl := set_m_stats lvl (bump_misses (m_stats lvl)) in
        let w := walk addr timestamp (S i) rest total_penalty
                   (miss_records ++ [{| level := Z.of_nat i;
                                        penalty_upto_level := total_penalty |}]) in
        {| w_levels := lvl :: w_levels w;
           w_total_penalty := w_total_penalty w;
           w_level_hit := w_level_hit w;
           w_miss_records := w_miss_records w |}
  end.

(** The fill loop [for (int i = 0; i <= fill_upto && i >= 0; ++i)]. *)
Definition fill (addr timestamp : Z) (fill_upto : Z) (lvls : list CacheLevel)
  : list CacheLevel :=
  foldl (λ lvls i, alter (CacheLevel.insert addr timestamp) i lvls)
        lvls (seq 0 (Z.to_nat (fill_upto + 1))).

(** The attribution loop [for (const auto &rec : miss_records)]. *)
Definition attribute (total_penalty : Z) (miss_records : list MissRecord)
           (lvls : list CacheLevel) : list CacheLevel :=
  foldl (λ lvls rec,
           if (0 <=? level rec) && (level rec <? Z.of_nat (length lvls))
           then
             let extra_penalty :=
               if penalty_upto_level rec <? total_penalty
               then total_penalty - penalty_upto_level rec else 0 in
             alter (λ lvl, set_m_stats lvl
                             (add_miss_penalty extra_penalty (m_stats lvl)))
                   (Z.to_nat (level rec)) lvls
           else lvls)
        lvls miss_records.

(** [void access(addr, is_write)]. *)
Definition access (addr : Z) (is_write : bool) (c : MultiLevelCache)
  : MultiLevelCache :=
  match m_levels c with
  | [] => c
  | _ =>
      let timestamp := wrap64 (m_timestamp c + 1) in
      let total_accesses := wrap64 (m_total_accesses c + 1) in
      let w := walk addr timestamp 0 (m_levels c) 0 [] in
      let size := Z.of_nat (length (m_levels c)) in
      let hit_any := bool_decide (is_Some (w_level_hit w)) in
      let total_penalty :=
        if hit_any then w_total_penalty w
        else wrap64 (w_total_penalty w + m_memory_latency c) in
      let level_hit :=
        match w_level_hit w with Some k => Z.of_nat k | None => size end in
      let fill_upto := if level_hit =? size then size - 1 else level_hit in
      let lvls := fill addr timestamp fill_upto (w_levels w) in
      let lvls := attribute total_penalty (w_miss_records w) lvls in
      {| m_levels := lvls;
         m_memory_latency := m_memory_latency c;
         m_timestamp := timestamp;
         m_total_accesses := total_accesses;
         m_total_hits :=
           if hit_any then wrap64 (m_total_hits c + 1) else m_total_hits c;
         m_total_misses :=
           if hit_any then m_total_misses c else wrap64 (m_total_misses c + 1);
         m_total_penalty := wrap64 (m_total_penalty c + total_penalty) |}
  end.

End MultiLevelCache.

(** ** Global API *)

(** [cache_init_default] applied to the controller [g_cache]. *)
Definition cache_init_default (g_cache : MultiLevelCache) : MultiLevelCache :=
  let c := MultiLevelCache.reset g_cache in
  let c := MultiLevelCache.add_level (4 * 1024) 64 4 1 c in
  let c := MultiLevelCache.add_level (32 * 1024) 64 8 8 c in
  MultiLevelCache.set_memory_latency 100 c.

Definition cache_reset (g_cache : MultiLevelCache) : MultiLevelCache :=
  MultiLevelCache.reset g_cache.

Definition cache_add_level := MultiLevelCache.add_level.
Definition cache_configure_level := MultiLevelCache.configure_level.
Definition cache_set_memory_latency := MultiLevelCache.set_memory_latency.
Definition cache_access := MultiLevelCache.access.

(** * allocator.cpp *)

(** What the translation unit takes from its environment: the address and
    length of the array [g_heap] (defined in mainn.cpp with
    [HEAP_SIZE = 64 * 1024]) and the two quantities the compiler fixes,
    [sizeof(BlockHeader)] and [alignof(std::max_align_t)]. *)
Class Platform := mkPlatform {
  g_heap : Z;
  HEAP_SIZE : Z;
  sizeof_BlockHeader : Z;
  alignof_max_align_t : Z;
}.

(** The x86-64 System V instance: 56-byte headers, 16-byte alignment, the
    64 KiB heap of mainn.cpp placed at an arbitrary address. *)
Definition lp64 : Platform :=
  {| g_heap := 4096; HEAP_SIZE := 64 * 1024;
     sizeof_BlockHeader := 56; alignof_max_align_t := 16 |}.

(** The header that lives at the beginning of each block inside [g_heap].
    [self] is the address of the header itself; [next] is the tail of the
    list the header sits in. *)
Record BlockHeader := mkBlockHeader {
  self : Z;
  id : Z;              (* int *)
  start : Z;           (* std::uint8_t* *)
  size : Z;            (* std::size_t *)
  requested_size : Z;  (* std::size_t *)
  free : bool;
  cacheable : bool;
  cache_hits : Z;      (* std::size_t *)
}.

Definition PATTERN_UNINITIALIZED : Z := 205. (* 0xCD *)
Definition PATTERN_FREED : Z := 221.         (* 0xDD *)

Inductive FitStrategy := First | Best | Worst.

(** The globals of allocator.cpp and cache.cpp, and the bytes of memory:
    [heap_bytes a] is the byte at address [a] (the array [g_heap] occupies
    the addresses from [g_heap] to [g_heap + HEAP_SIZE]).  The user areas of
    the blocks are read and written through it; the headers are kept in
    [g_head]. *)
Record Globals := mkGlobals {
  heap_bytes : Z → Z;
  g_head : list BlockHeader;
  g_next_id : Z;
  g_cache_initialized : bool;
  g_alloc_requests : Z;
  g_alloc_success : Z;
  g_alloc_fail : Z;
  g_current_strategy : FitStrategy;
  g_cache : MultiLevelCache;
}.

(** The state at program start: static storage is zero-initialised, the
    other globals have their initialisers. *)
Definition initial_globals : Globals :=
  {| heap_bytes := λ _, 0; g_head := []; g_next_id := 0;
     g_cache_initialized := false;
     g_alloc_requests := 0; g_alloc_success := 0; g_alloc_fail := 0;
     g_current_strategy := First; g_cache := MultiLevelCache.make |}.

Definition set_g_head (st : Globals) (l : list BlockHeader) : Globals :=
  {| heap_bytes := heap_bytes st; g_head := l; g_next_id := g_next_id st;
     g_cache_initialized := g_cache_initialized st;
     g_alloc_requests := g_alloc_requests st;
     g_alloc_success := g_alloc_success st; g_alloc_fail := g_alloc_fail st;
     g_current_strategy := g_current_strategy st; g_cache := g_cache st |}.

Definition set_heap_bytes (st : Globals) (m : Z → Z) : Globals :=
  {| heap_bytes := m; g_head := g_head st; g_next_id := g_next_id st;
     g_cache_initialized := g_cache_initialized st;
     g_alloc_requests := g_alloc_requests st;
     g_alloc_success := g_alloc_success st; g_alloc_fail := g_alloc_fail st;
     g_current_strategy := g_current_strategy st; g_cache := g_cache st |}.

Definition set_g_cache (st : Globals) (c : MultiLevelCache) : Globals :=
  {| heap_bytes := heap_bytes st; g_head := g_head st; g_next_id := g_next_id st;
     g_cache_initialized := g_cache_initialized st;
     g_alloc_requests := g_alloc_requests st;
     g_alloc_success := g_alloc_success st; g_alloc_fail := g_alloc_fail st;
     g_current_strategy := g_current_strategy st; g_cache := c |}.

(** [std::memset(p, v, n)] on the byte store. *)
Definition memset (m : Z → Z) (p v n : Z) : Z → Z :=
  λ a, if (p <=? a) && (a <? p + n) then v else m a.

(** [p[0] = v] on the byte store. *)
Definition store (m : Z → Z) (p v : Z) : Z → Z :=
  λ a, if a =? p then v else m a.

Definition is_garbage (value : Z) : bool :=
  (value =? PATTERN_UNINITIALIZED) || (value =? PATTERN_FREED).

Section Allocator.
Context `{!Platform}.

(** [allocator_init]: lazily creates the one free block that spans the
    whole heap (and the default cache, once). *)
Definition allocator_init (st : Globals) : Globals :=
  match g_head st with
  | _ :: _ => st (* already initialized *)
  | [] =>
      {| heap_bytes := heap_bytes st;
         g_head :=
           [ {| self := g_heap; id := -1;
                start := wrap64 (g_heap + sizeof_BlockHeader);
                size := wrap64 (HEAP_SIZE - sizeof_BlockHeader);
                requested_size := 0; free := true; cacheable := false;
                cache_hits := 0 |} ];
         g_next_id := g_next_id st;
         g_cache_initialized := true;
         g_alloc_requests := g_alloc_requests st;
         g_alloc_success := g_alloc_success st;
         g_alloc_fail := g_alloc_fail st;
         g_current_strategy := g_current_strategy st;
         g_cache := if g_cache_initialized st then g_cache st
                    else cache_init_default (g_cache st) |}
  end.

(** [align_size]: [(size + align - 1) & ~(align - 1)] on [std::size_t]. *)
Definition align_size (size : Z) : Z :=
  let align := alignof_max_align_t in
  Z.land (wrap64 (size + align - 1)) (wrap64 (Z.lnot (align - 1))).

(** The loop of [find_fit] from the header at position [i] on, [rest] being
    that header and its successors; [candidate] is the pointer (position
    and pointee) held so far. *)
Fixpoint find_fit_from (size_ : Z) (strategy : FitStrategy) (i : nat)
         (rest : list BlockHeader) (candidate : option (nat * BlockHeader))
  : option (nat * BlockHeader) :=
  match rest with
  | [] => candidate
  | curr :: rest' =>
      if negb (free curr) || (size curr <? size_)
      then find_fit_from size_ strategy (S i) rest' candidate
      else
        match strategy, candidate with
        | First, _ => Some (i, curr)
        | _, None => find_fit_from size_ strategy (S i) rest' (Some (i, curr))
        | Best, Some (c, cand) =>
            find_fit_from size_ strategy (S i) rest'
              (if size curr <? size cand
               then Some (i, curr) else candidate)
        | Worst, Some (c, cand) =>
            find_fit_from size_ strategy (S i) rest'
              (if size cand <? size curr
               then Some (i, curr) else candidate)
        end
  end.

Definition find_fit (head : list BlockHeader) (size_ : Z) (strategy : FitStrategy)
  : option (nat * BlockHeader) :=
  find_fit_from size_ strategy 0 head None.

Fixpoint find_block_from (id_ : Z) (i : nat) (rest : list BlockHeader)
  : option (nat * BlockHeader) :=
  match rest with
  | [] => None
  | hdr :: rest' =>
      if negb (free hdr) && (id hdr =? id_) then Some (i, hdr)
      else find_block_from id_ (S i) rest'
  end.

(** [find_block_by_id], on the list that starts at [g_head]. *)
Definition find_block_by_id (head : list BlockHeader) (id_ : Z)
  : option (nat * BlockHeader) :=
  find_block_from id_ 0 head.

(** [split_block_if_needed(block, size)], [block] being the header at
    position [i] of the list. *)
Definition split_block_if_needed (head : list BlockHeader) (i : nat) (size_ : Z)
  : list BlockHeader :=
  match head !! i with
  | None => head
  | Some block =>
      let remaining := wrap64 (size block - size_) in
      if remaining <=? wrap64 (sizeof_BlockHeader + 8) then head
      else
        let base := self block in
        let new_addr := wrap64 (base + sizeof_BlockHeader + size_) in
        let new_block :=
          {| self := new_addr; id := -1;
             start := wrap64 (new_addr + sizeof_BlockHeader);
             size := wrap64 (remaining - sizeof_BlockHeader);
             requested_size := 0; free := true; cacheable := false;
             cache_hits := 0 |} in
        let block' :=
          {| self := self block; id := id block; start := start block;
             size := size_; requested_size := requested_size block;
             free := free block; cacheable := cacheable block;
             cache_hits := cache_hits block |} in
        take i head ++ block' :: new_block :: drop (S i) head
  end.

(** The merge step of [coalesce_free_blocks]: [curr] absorbs [next]. *)
Definition absorb (curr next : BlockHeader) : BlockHeader :=
  {| self := self curr; id := id curr; start := start curr;
     size := wrap64 (size curr + wrap64 (sizeof_BlockHeader + size next));
     requested_size := 0; free := free curr; cacheable := cacheable curr;
     cache_hits := cache_hits curr |}.

(** The loop of [coalesce_free_blocks] with [curr] the header under the
    cursor and [rest] its successors. *)
Fixpoint coalesce_from (curr : BlockHeader) (rest : list BlockHeader)
  : list BlockHeader :=
  match rest with
  | [] => [curr]
  | next :: rest' =>
      if free curr && free next
         && (wrap64 (self curr + sizeof_BlockHeader + size curr) =? self next)
      then coalesce_from (absorb curr next) rest'
      else curr :: coalesce_from next rest'
  end.

Definition coalesce_free_blocks (head : list BlockHeader) : list BlockHeader :=
  match head with
  | [] => []
  | curr :: rest => coalesce_from curr rest
  end.

(** [int allocator_malloc(std::size_t size, FitStrategy strategy)]. *)
Definition allocator_malloc (size_ : Z) (strategy : FitStrategy) (st : Globals)
  : Globals * Z :=
  let st := allocator_init st in
  if size_ =? 0 then (st, -1)
  else
    let requests := wrap64 (g_alloc_requests st + 1) in
    let requested_size_ := size_ in
    let aligned_size := align_size size_ in
    match find_fit (g_head st) aligned_size strategy with
    | None =>
        ({| heap_bytes := heap_bytes st; g_head := g_head st;
            g_next_id := g_next_id st;
            g_cache_initialized := g_cache_initialized st;
            g_alloc_requests := requests;
            g_alloc_success := g_alloc_success st;
            g_alloc_fail := wrap64 (g_alloc_fail st + 1);
            g_current_strategy := g_current_strategy st;
            g_cache := g_cache st |}, -1)
    | Some (i, _) =>
        let head := split_block_if_needed (g_head st) i aligned_size in
        match head !! i with
        | None => (st, -1) (* not taken: the split keeps [block] in its place *)
        | Some block =>
            let block' :=
              {| self := self block; id := g_next_id st;
                 start := wrap64 (self block + sizeof_BlockHeader);
                 size := size block; requested_size := requested_size_;
                 free := false; cacheable := true; cache_hits := 0 |} in
            let st' :=
              {| heap_bytes := memset (heap_bytes st) (start block')
                                 PATTERN_UNINITIALIZED (size block');
                 g_head := <[i := block']> head;
                 g_next_id := g_next_id st + 1;
                 g_cache_initialized := g_cache_initialized st;
                 g_alloc_requests := requests;
                 g_alloc_success := wrap64 (g_alloc_success st + 1);
                 g_alloc_fail := g_alloc_fail st;
                 g_current_strategy := g_current_strategy st;
                 g_cache := g_cache st |} in
            let offset := start block' - g_heap in
            if (offset <? 0) || (HEAP_SIZE <=? offset) then (st', -1)
            else (st', id block')
        end
    end.

(** [int allocator_malloc(std::size_t size)]: the global strategy. *)
Definition allocator_malloc_default (size_ : Z) (st : Globals) : Globals * Z :=
  allocator_malloc size_ (g_current_strategy st) st.

Definition allocator_set_strategy (strategy : FitStrategy) (st : Globals)
  : Globals :=
  {| heap_bytes := heap_bytes st; g_head := g_head st;
     g_next_id := g_next_id st;
     g_cache_initialized := g_cache_initialized st;
     g_alloc_requests := g_alloc_requests st;
     g_alloc_success := g_alloc_success st; g_alloc_fail := g_alloc_fail st;
     g_current_strategy := strategy; g_cache := g_cache st |}.

(** [void allocator_free(int id)]. *)
Definition allocator_free (id_ : Z) (st : Globals) : Globals :=
  let st := allocator_init st in
  if id_ <? 0 then st
  else
    match find_block_by_id (g_head st) id_ with
    | None => st
    | Some (i, hdr) =>
        let hdr' :=
          {| self := self hdr; id := -1; start := start hdr; size := size hdr;
             requested_size := requested_size hdr; free := true;
             cacheable := false; cache_hits := 0 |} in
        let st := set_heap_bytes st
                    (memset (heap_bytes st) (start hdr) PATTERN_FREED (size hdr)) in
        set_g_head st (coalesce_free_blocks (<[i := hdr']> (g_head st)))
    end.

(** [void allocator_set_block_cacheable(int id, bool cacheable)]. *)
Definition allocator_set_block_cacheable (id_ : Z) (cacheable_ : bool)
           (st : Globals) : Globals :=
  let st := allocator_init st in
  if id_ <? 0 then st
  else
    match find_block_by_id (g_head st) id_ with
    | None => st
    | Some (i, hdr) =>
        set_g_head st
          (<[i := {| self := self hdr; id := id hdr; start := start hdr;
                     size := size hdr; requested_size := requested_size hdr;
                     free := free hdr; cacheable := cacheable_;
                     cache_hits := cache_hits hdr |}]> (g_head st))
    end.

(** [void allocator_access(int id, bool is_write)]. *)
Definition allocator_access (id_ : Z) (is_write : bool) (st : Globals)
  : Globals :=
  let st := allocator_init st in
  if id_ <? 0 then st
  else
    match find_block_by_id (g_head st) id_ with
    | None => st
    | Some (i, hdr) =>
        if negb (cacheable hdr) then st
        else
          let st := set_g_cache st (cache_access (start hdr) is_write (g_cache st)) in
          set_g_head st
            (<[i := {| self := self hdr; id := id hdr; start := start hdr;
                       size := size hdr; requested_size := requested_size hdr;
                       free := free hdr; cacheable := cacheable hdr;
                       cache_hits := wrap64 (cache_hits hdr + 1) |}]> (g_head st))
    end.

(** The copy loop of [allocator_read]: [k] iterations are left, [i] is the
    loop index. *)
Fixpoint read_loop (m : Z → Z) (src_bytes : Z) (k : nat) (i : Z)
         (cache : MultiLevelCache) (dst_bytes : list Z) (has_garbage : bool)
  : MultiLevelCache * list Z * bool :=
  match k with
  | O => (cache, dst_bytes, has_garbage)
  | S k' =>
      let value := m (wrap64 (src_bytes + i)) in
      let cache := cache_access (wrap64 (src_bytes + i)) false cache in
      let has_garbage := if is_garbage value then true else has_garbage in
      let dst_bytes := <[Z.to_nat i := value]> dst_bytes in
      read_loop m src_bytes k' (i + 1) cache dst_bytes has_garbage
  end.

(** [bool allocator_read(int id, std::size_t offset, void *dst, std::size_t size)].
    The buffer [dst] is [None] for a null pointer; the buffer after the
    call is returned with the result. *)
Definition allocator_read (id_ offset : Z) (dst : option (list Z)) (size_ : Z)
           (st : Globals) : Globals * option (list Z) * bool :=
  let st := allocator_init st in
  match dst with
  | None => (st, dst, false)
  | Some dst_bytes =>
      if (id_ <? 0) || (size_ =? 0) then (st, dst, false)
      else
        match find_block_by_id (g_head st) id_ with
        | None => (st, dst, false)
        | Some (i, hdr) =>
            if free hdr then (st, dst, false)
            else if requested_size hdr <? wrap64 (offset + size_)
            then (st, dst, false) (* out of user-requested bounds *)
            else
              let src_bytes := wrap64 (start hdr + offset) in
              let '(cache, dst_bytes, has_garbage) :=
                read_loop (heap_bytes st) src_bytes (Z.to_nat size_) 0
                  (g_cache st) dst_bytes false in
              (set_g_cache st cache, Some dst_bytes, negb has_garbage)
        end
  end.

(** First pass of [allocator_write]: does the destination hold a byte that
    looks uninitialized or freed?  (The loop stops at the first one.) *)
Fixpoint scan_garbage (m : Z → Z) (dst_bytes : Z) (k : nat) (i : Z) : bool :=
  match k with
  | O => false
  | S k' =>
      if is_garbage (m (wrap64 (dst_bytes + i))) then true
      else scan_garbage m dst_bytes k' (i + 1)
  end.

(** Second pass of [allocator_write]: the stores. *)
Fixpoint write_loop (src_bytes : list Z) (dst_bytes : Z) (k : nat) (i : Z)
         (cache : MultiLevelCache) (m : Z → Z) : MultiLevelCache * (Z → Z) :=
  match k with
  | O => (cache, m)
  | S k' =>
      let cache := cache_access (wrap64 (dst_bytes + i)) true cache in
      let m := store m (wrap64 (dst_bytes + i)) (src_bytes !!! Z.to_nat i) in
      write_loop src_bytes dst_bytes k' (i + 1) cache m
  end.

(** [bool allocator_write(int id, std::size_t offset, const void *src, std::size_t size)]. *)
Definition allocator_write (id_ offset : Z) (src : option (list Z)) (size_ : Z)
           (st : Globals) : Globals * bool :=
  let st := allocator_init st in
  match src with
  | None => (st, false)
  | Some src_bytes =>
      if (id_ <? 0) || (size_ =? 0) then (st, false)
      else
        match find_block_by_id (g_head st) id_ with
        | None => (st, false)
        | Some (i, hdr) =>
            if free hdr then (st, false)
            else if requested_size hdr <? wrap64 (offset + size_)
            then (st, false) (* out of user-requested bounds *)
            else
              let dst_bytes := wrap64 (start hdr + offset) in
              let has_garbage :=
                scan_garbage (heap_bytes st) dst_bytes (Z.to_nat size_) 0 in
              (* if (has_garbage) return false;   -- commented out in the source *)
              let '(cache, m) :=
                write_loop src_bytes dst_bytes (Z.to_nat size_) 0
                  (g_cache st) (heap_bytes st) in
              (set_heap_bytes (set_g_cache st cache) m, true)
        end
  end.

End Allocator.

(** * The commands of the command line (mainn.cpp) as a state machine *)

Inductive Op :=
| Malloc (size_ : Z) (strategy : FitStrategy)
| MallocDefault (size_ : Z)
| SetStrategy (strategy : FitStrategy)
| Free (id_ : Z)
| SetCacheable (id_ : Z) (flag : bool)
| Access (id_ : Z) (is_write : bool)
| Read (id_ offset : Z) (dst : option (list Z)) (size_ : Z)
| Write (id_ offset : Z) (src : option (list Z)) (size_ : Z)
| CacheInitDefault
| CacheReset
| CacheAddLevel (size_bytes block_size associativity latency : Z)
| CacheConfigureLevel (level_index size_bytes block_size associativity latency : Z)
| CacheSetMemoryLatency (latency : Z).

Section Machine.
Context `{!Platform}.

Definition run_op (st : Globals) (op : Op) : Globals :=
  match op with
  | Malloc size_ strategy => fst (allocator_malloc size_ strategy st)
  | MallocDefault size_ => fst (allocator_malloc_default size_ st)
  | SetStrategy strategy => allocator_set_strategy strategy st
  | Free id_ => allocator_free id_ st
  | SetCacheable id_ flag => allocator_set_block_cacheable id_ flag st
  | Access id_ is_write => allocator_access id_ is_write st
  | Read id_ offset dst size_ => fst (fst (allocator_read id_ offset dst size_ st))
  | Write id_ offset src size_ => fst (allocator_write id_ offset src size_ st)
  | CacheInitDefault => set_g_cache st (cache_init_default (g_cache st))
  | CacheReset => set_g_cache st (cache_reset (g_cache st))
  | CacheAddLevel a b c d => set_g_cache st (cache_add_level a b c d (g_cache st))
  | CacheConfigureLevel i a b c d =>
      set_g_cache st (cache_configure_level i a b c d (g_cache st))
  | CacheSetMemoryLatency l =>
      set_g_cache st (cache_set_memory_latency l (g_cache st))
  end.

Definition run (ops : list Op) (st : Globals) : Globals := foldl run_op st ops.

(** The range of [std::size_t]. *)
Definition size_t (x : Z) : Prop := 0 ≤ x < 2 ^ 64.

(** The commands the state machine admits in state [st].  The arguments of
    type [std::size_t] are in range.  Moreover the headers are kept in
    [g_head] and not in [heap_bytes]: the list is the block list of the
    program as long as no store lands outside the user area of a block.  The
    only stores at caller-chosen addresses are those of [allocator_write]; a
    write is admitted when, if it is accepted, it stays inside the user area
    of the block it names. *)
Definition admissible (st : Globals) (op : Op) : Prop :=
  match op with
  | Malloc size_ _ | MallocDefault size_ => size_t size_
  | Read _ offset _ size_ => size_t offset ∧ size_t size_
  | Write id_ offset src size_ =>
      size_t offset ∧ size_t size_ ∧
      ∀ i hdr,
        snd (allocator_write id_ offset src size_ st) = true →
        find_block_by_id (g_head (allocator_init st)) id_ = Some (i, hdr) →
        offset + size_ ≤ size hdr
  | CacheAddLevel size_bytes block_size associativity latency =>
      size_t size_bytes ∧ size_t block_size ∧ size_t associativity ∧
      size_t latency
  | CacheConfigureLevel level_index size_bytes block_size associativity latency =>
      size_t level_index ∧ size_t size_bytes ∧ size_t block_size ∧
      size_t associativity ∧ size_t latency
  | CacheSetMemoryLatency latency => size_t latency
  | SetStrategy _ | Free _ | SetCacheable _ _ | Access _ _
  | CacheInitDefault | CacheReset => True
  end.

(** The states the program can be in. *)
Inductive reachable : Globals → Prop :=
| reachable_initial : reachable initial_globals
| reachable_step st op :
    reachable st → admissible st op → reachable (run_op st op).

(** The bound that [allocator_read] and [allocator_write] are to enforce,
    in exact integer arithmetic: the range [offset, offset + size_) runs
    past the requested size. *)
Definition requested_size_exceeded (offset size_ requested : Z) : Prop :=
  requested < offset + size_.

(** A block that [find_fit] considers for a request of [size_] bytes. *)
Definition fits (size_ : Z) (b : BlockHeader) : Prop :=
  free b = true ∧ size_ ≤ size b.

(** What a finished search has found in the list [l]. *)
Definition found (l : list BlockHeader) (size_ : Z) (strategy : FitStrategy)
           (r : option (nat * BlockHeader)) : Prop :=
  match r with
  | None => ∀ j b, l !! j = Some b → ¬ fits size_ b
  | Some (i, blk) =>
      l !! i = Some blk ∧ fits size_ blk ∧
      match strategy with
      | First => ∀ j b, (j < i)%nat → l !! j = Some b → ¬ fits size_ b
      | Best => ∀ j b, l !! j = Some b → fits size_ b →
                       size blk ≤ size b ∧ ((j < i)%nat → size blk < size b)
      | Worst => ∀ j b, l !! j = Some b → fits size_ b →
                        size b ≤ size blk ∧ ((j < i)%nat → size b < size blk)
      end
  end.

(** What the loop holds in [candidate] after the headers [pre]. *)
Definition scanned (pre : list BlockHeader) (size_ : Z) (strategy : FitStrategy)
           (candidate : option (nat * BlockHeader)) : Prop :=
  found pre size_ strategy candidate ∧
  (strategy = First → candidate = None).

(** ** Shape of the block list *)

(** Requirements on the environment: the header has a size, the heap has
    room for one header, and the array lies in the address space. *)
Definition platform_ok : Prop :=
  0 < sizeof_BlockHeader ∧ sizeof_BlockHeader < HEAP_SIZE ∧
  0 ≤ g_heap ∧ g_heap + HEAP_SIZE < 2 ^ 63.

(** [alignof(std::max_align_t)] is a power of two. *)
Definition alignment_ok : Prop :=
  ∃ k, 0 ≤ k < 64 ∧ alignof_max_align_t = 2 ^ k.

(** The headers [l], the first of which lives at address [a], tile the
    heap up to its end: each header is followed by its user area and then
    by the next header, and every user area starts inside the heap. *)
Fixpoint tiles (a : Z) (l : list BlockHeader) : Prop :=
  match l with
  | [] => a = g_heap + HEAP_SIZE
  | b :: l' =>
      g_heap ≤ a ∧ self b = a ∧ start b = a + sizeof_BlockHeader ∧
      0 ≤ size b ∧ start b < g_heap + HEAP_SIZE ∧
      tiles (a + sizeof_BlockHeader + size b) l'
  end.

(** The ids of the allocated blocks, in list order. *)
Definition live_ids (l : list BlockHeader) : list Z :=
  id <$> filter (λ b, free b = false) l.

Definition free_block_ok (b : BlockHeader) : Prop :=
  free b = true → id b = -1 ∧ cacheable b = false.

Definition live_block_ok (next_id : Z) (b : BlockHeader) : Prop :=
  free b = false → 0 ≤ id b < next_id.

(** The invariant of the block list [l] and the id counter [next_id]. *)
Record blocks_inv (next_id : Z) (l : list BlockHeader) : Prop := mkBlocksInv {
  inv_tiles : l = [] ∨ tiles g_heap l;
  inv_next_id : 0 ≤ next_id;
  inv_free : Forall free_block_ok l;
  inv_live : Forall (live_block_ok next_id) l;
  inv_distinct : NoDup (live_ids l);
}.

Definition heap_inv (st : Globals) : Prop :=
  blocks_inv (g_next_id st) (g_head st).

(** The invariant of the cache levels. *)
Definition cache_wf (st : Globals) : Prop :=
  Forall level_wf (m_levels (g_cache st)).

End Machine.

(** * Further definitions: statistics and the predicates of further properties *)

(** The integer locals of [allocator_stats] after its loop over the block
    list.  (The ratios that the function derives from them are doubles and
    are only printed; they are not part of the embedding.) *)
Record Totals := mkTotals {
  total_free : Z;
  total_used : Z;
  free_blocks : Z;
  used_blocks : Z;
  internal_frag_bytes : Z;
  largest_free_block : Z;
}.

(** One iteration of the loop of [allocator_stats]. *)
Definition stats_step (t : Totals) (curr : BlockHeader) : Totals :=
  if free curr
  then {| total_free := wrap64 (total_free t + size curr);
          total_used := total_used t;
          free_blocks := wrap64 (free_blocks t + 1);
          used_blocks := used_blocks t;
          internal_frag_bytes := internal_frag_bytes t;
          largest_free_block :=
            if largest_free_block t <? size curr then size curr
            else largest_free_block t |}
  else {| total_free := total_free t;
          total_used := wrap64 (total_used t + size curr);
          free_blocks := free_blocks t;
          used_blocks := wrap64 (used_blocks t + 1);
          internal_frag_bytes :=
            if requested_size curr <? size curr
            then wrap64 (internal_frag_bytes t
                         + wrap64 (size curr - requested_size curr))
            else internal_frag_bytes t;
          largest_free_block := largest_free_block t |}.

Definition stats_loop (head : list BlockHeader) : Totals :=
  foldl stats_step
    {| total_free := 0; total_used := 0; free_blocks := 0; used_blocks := 0;
       internal_frag_bytes := 0; largest_free_block := 0 |} head.

Section Statistics.
Context `{!Platform}.

(** [allocator_stats] up to the end of its loop: the state after the lazy
    initialisation and the totals. *)
Definition allocator_stats (st : Globals) : Globals * Totals :=
  let st := allocator_init st in
  (st, stats_loop (g_head st)).

(** The test of [coalesce_free_blocks] for merging [curr] with [next]. *)
Definition mergeable (curr next : BlockHeader) : bool :=
  free curr && free next
  && (wrap64 (self curr + sizeof_BlockHeader + size curr) =? self next).

(** No two neighbours of the list pass that test. *)
Fixpoint no_mergeable (l : list BlockHeader) : Prop :=
  match l with
  | curr :: (next :: _) as l' => mergeable curr next = false ∧ no_mergeable l'
  | _ => True
  end.

(** A run of commands each of which is admitted in the state it meets. *)
Fixpoint admissible_run (st : Globals) (ops : list Op) : Prop :=
  match ops with
  | [] => True
  | op :: ops' => admissible st op ∧ admissible_run (run_op st op) ops'
  end.

End Statistics.

(** No two neighbours of the list are both free. *)
Fixpoint no_adjacent_free (l : list BlockHeader) : Prop :=
  match l with
  | b1 :: (b2 :: _) as l' =>
      ¬ (free b1 = true ∧ free b2 = true) ∧ no_adjacent_free l'
  | _ => True
  end.

(** Two headers that agree on everything but the requested size and the
    hit counter. *)
Definition same_block (b b' : BlockHeader) : Prop :=
  self b = self b' ∧ id b = id b' ∧ start b = start b' ∧ size b = size b' ∧
  free b = free b' ∧ cacheable b = cacheable b'.

(** The order in which [CacheLevel::insert] prefers victims: lower frequency
    first, and among equal frequencies the line used longer ago. *)
Definition victim_le (a b : CacheLine) : Prop :=
  freq a < freq b ∨ (freq a = freq b ∧ last_used a ≤ last_used b).

Definition victim_lt (a b : CacheLine) : Prop :=
  freq a < freq b ∨ (freq a = freq b ∧ last_used a < last_used b).

(** Hits and misses add up to the accesses, per level and in total (the
    counters are 64-bit, so modulo 2^64). *)
Definition level_stats_ok (lvl : CacheLevel) : Prop :=
  accesses (m_stats lvl) = wrap64 (hits (m_stats lvl) + misses (m_stats lvl)).

Definition controller_stats_ok (c : MultiLevelCache) : Prop :=
  m_total_accesses c = wrap64 (m_total_hits c + m_total_misses c) ∧
  Forall level_stats_ok (m_levels c).

(** A state used to instantiate statements: two allocations, a write into
    the second block and the release of the first, on the x86-64 instance. *)
Definition example_ops : list Op :=
  [Malloc 100 First; Malloc 200 Best; Write 1 0 (Some [104; 105]) 2; Free 0].

Definition example_state : Globals := @run lp64 example_ops initial_globals.

(** * Properties *)

(** ** Machine integers *)

Lemma wrap64_small x : 0 ≤ x < 2 ^ 64 → wrap64 x = x.
Proof. intros. unfold wrap64. apply Z.mod_small. lia. Qed.

Lemma wrap64_range x : 0 ≤ wrap64 x < 2 ^ 64.
Proof. unfold wrap64. apply Z.mod_pos_bound. lia. Qed.

(** ** One cache level *)

Section CacheLevelFacts.
Import CacheLevel.

Lemma compute_index_tag_set_m_sets lvl sets addr :
  compute_index_tag (set_m_sets lvl sets) addr = compute_index_tag lvl addr.
Proof. reflexivity. Qed.

Lemma set_idx_in_range lvl addr :
  level_wf lvl →
  (Z.to_nat (compute_index_tag lvl addr).1 < length (m_sets lvl))%nat.
Proof.
  intros (Hpos & Hlen & _). rewrite Hlen. cbn.
  pose proof (Z.mod_pos_bound (addr / m_block_size lvl) (m_num_sets lvl) Hpos).
  lia.
Qed.

(** A lookup hits as soon as some way of the set is valid and carries the tag. *)
Lemma touch_line_hits tg timestamp set line :
  line ∈ set → valid line = true → tag line = tg →
  is_Some (touch_line tg timestamp set).
Proof.
  intros Hin Hv Ht. induction set as [|l0 rest IH]; [by apply elem_of_nil in Hin|].
  cbn. destruct (valid l0 && (tag l0 =? tg)) eqn:E; [by eexists|].
  apply elem_of_cons in Hin as [->|Hin].
  - rewrite Hv, Ht, Z.eqb_refl in E. done.
  - destruct (IH Hin) as [s' ->]. by eexists.
Qed.

Lemma touch_line_length tg timestamp set set' :
  touch_line tg timestamp set = Some set' → length set' = length set.
Proof.
  revert set'. induction set as [|l0 rest IH]; intros set'; cbn; [done|].
  destruct (valid l0 && (tag l0 =? tg)).
  - intros [= <-]. done.
  - destruct (touch_line tg timestamp rest) as [r|]; [|done].
    intros [= <-]. cbn. f_equal. by apply IH.
Qed.

Lemma fill_invalid_fresh tg timestamp set set' :
  fill_invalid tg timestamp set = Some set' →
  fresh_line tg timestamp ∈ set' ∧ length set' = length set.
Proof.
  revert set'. induction set as [|l0 rest IH]; intros set'; cbn; [done|].
  destruct (negb (valid l0)).
  - intros [= <-]. split; [apply elem_of_cons; by left | done].
  - destruct (fill_invalid tg timestamp rest) as [r|]; [|done].
    intros [= <-]. destruct (IH r eq_refl) as [Hin Hlen].
    split; [apply elem_of_cons; by right | cbn; by f_equal].
Qed.

Lemma victim_step_lt set v i :
  (v < length set)%nat → (i < length set)%nat →
  (victim_step set v i < length set)%nat.
Proof. intros. unfold victim_step. repeat case_match; done. Qed.

Lemma choose_victim_lt set : set ≠ [] → (choose_victim set < length set)%nat.
Proof.
  intros Hne. unfold choose_victim.
  assert (Hgen : ∀ idxs v, Forall (λ i, (i < length set)%nat) idxs →
                   (v < length set)%nat →
                   (foldl (victim_step set) v idxs < length set)%nat).
  { induction idxs as [|i idxs IH]; intros v Hall Hv; [done|].
    inversion Hall; subst. cbn. apply IH; [done|]. by apply victim_step_lt. }
  apply Hgen.
  - apply Forall_forall. intros i Hi%elem_of_seq. lia.
  - destruct set; [done | cbn; lia].
Qed.

(** The set that [insert] writes back holds the fresh line. *)
Lemma insert_row_fresh tg timestamp set :
  set ≠ [] →
  fresh_line tg timestamp ∈
    match fill_invalid tg timestamp set with
    | Some set' => set'
    | None => <[choose_victim set := fresh_line tg timestamp]> set
    end
  ∧ length (match fill_invalid tg timestamp set with
            | Some set' => set'
            | None => <[choose_victim set := fresh_line tg timestamp]> set
            end) = length set.
Proof.
  intros Hne. destruct (fill_invalid tg timestamp set) as [set'|] eqn:E.
  - by apply fill_invalid_fresh.
  - split; [|by rewrite length_insert].
    apply list_elem_of_lookup. exists (choose_victim set).
    apply list_lookup_insert_eq. by apply choose_victim_lt.
Qed.

Lemma wf_row lvl addr :
  level_wf lvl → m_sets lvl !!! Z.to_nat (compute_index_tag lvl addr).1 ≠ [].
Proof.
  intros Hwf. pose proof (set_idx_in_range lvl addr Hwf) as Hlt.
  destruct Hwf as (_ & _ & Hall).
  apply lookup_lt_is_Some_2 in Hlt as [row Hrow].
  rewrite (list_lookup_total_correct _ _ _ Hrow).
  rewrite Forall_forall in Hall. apply Hall.
  apply list_elem_of_lookup. eauto.
Qed.

Lemma make_wf size_bytes block_size associativity latency level_index :
  0 ≤ size_bytes → 0 ≤ block_size → 0 ≤ associativity →
  level_wf (make size_bytes block_size associativity latency level_index).
Proof.
  intros Hs Hb Ha. unfold make.
  set (bs := if (if block_size =? 0 then 1 else block_size) =? 0 then 1
             else (if block_size =? 0 then 1 else block_size)).
  assert (0 < bs) by (subst bs; repeat case_match; lia).
  set (nl := if size_bytes / bs =? 0 then 1 else size_bytes / bs).
  assert (0 < nl).
  { subst nl. pose proof (Z.div_pos size_bytes bs Hs ltac:(lia)).
    case_match; lia. }
  set (as0 := if (if associativity =? 0 then 1 else associativity) =? 0 then 1
              else (if associativity =? 0 then 1 else associativity)).
  assert (0 < as0) by (subst as0; repeat case_match; lia).
  set (as1 := if nl <? as0 then nl else as0).
  assert (0 < as1 ≤ nl) by (subst as1; case_match; lia).
  assert (0 < nl / as1) by (apply Z.div_str_pos; lia).
  destruct (nl / as1 =? 0) eqn:E; [lia|].
  unfold level_wf; cbn. rewrite length_replicate.
  split_and!; [lia | done |].
  apply Forall_forall. intros row Hrow%elem_of_replicate. destruct Hrow as [-> _].
  intros Hnil%(f_equal length). rewrite length_replicate in Hnil. cbn in Hnil. lia.
Qed.

Lemma insert_wf addr timestamp lvl : level_wf lvl → level_wf (insert addr timestamp lvl).
Proof.
  intros Hwf. pose proof (wf_row lvl addr Hwf) as Hrow.
  destruct Hwf as (Hpos & Hlen & Hall). unfold insert.
  destruct (compute_index_tag lvl addr) as [set_idx tg] eqn:Hc. cbn in Hrow.
  unfold level_wf; cbn. rewrite length_insert. split_and!; [done | done |].
  apply Forall_insert; [done|].
  destruct (insert_row_fresh tg timestamp _ Hrow) as [_ Hl].
  intros Hnil. rewrite Hnil in Hl. cbn in Hl.
  destruct (m_sets lvl !!! Z.to_nat set_idx); [done | cbn in Hl; lia].
Qed.

Lemma access_wf addr timestamp lvl :
  level_wf lvl → level_wf (access addr timestamp lvl).2.
Proof.
  intros Hwf. pose proof (wf_row lvl addr Hwf) as Hrow.
  destruct Hwf as (Hpos & Hlen & Hall). unfold access.
  destruct (compute_index_tag lvl addr) as [set_idx tg] eqn:Hc. cbn in Hrow.
  destruct (touch_line tg timestamp _) as [set'|] eqn:E; cbn; [|done].
  unfold level_wf; cbn. rewrite length_insert. split_and!; [done | done |].
  apply Forall_insert; [done|].
  apply touch_line_length in E. intros ->. cbn in E.
  destruct (m_sets lvl !!! Z.to_nat set_idx); [done | cbn in E; lia].
Qed.

(** C10.  On a cache level (one that has at least one set and no empty
    set, as every constructed level does), a lookup of address [A] that
    follows [insert(A, t)] directly is a hit, whatever the two timestamps:
    [insert] leaves a valid line with the tag of [A] in the set of [A]. *)
Theorem insert_then_access_hits lvl A t t' :
  level_wf lvl →
  (access A t' (insert A t lvl)).1 = true.
Proof.
  intros Hwf.
  pose proof (wf_row lvl A Hwf) as Hrow.
  pose proof (set_idx_in_range lvl A Hwf) as Hidx.
  unfold access, insert.
  destruct (compute_index_tag lvl A) as [set_idx tg] eqn:Hc.
  rewrite compute_index_tag_set_m_sets, Hc. cbn in Hrow, Hidx |- *.
  rewrite list_lookup_total_insert_eq by done.
  destruct (insert_row_fresh tg t _ Hrow) as [Hin _].
  destruct (touch_line_hits tg t' _ _ Hin eq_refl eq_refl) as [set' ->].
  done.
Qed.

Lemma insert_then_access_hits_witness :
  level_wf (make 4096 64 4 1 0) ∧
  (access 4152 8 (insert 4152 7 (make 4096 64 4 1 0))).1 = true.
Proof.
  split; [apply make_wf; lia|].
  apply (insert_then_access_hits (make 4096 64 4 1 0) 4152 7 8).
  apply make_wf; lia.
Defined.

End CacheLevelFacts.

(** ** The multi-level controller *)

Section ControllerFacts.
Import MultiLevelCache.

Lemma access_set_m_stats addr ts lvl s :
  CacheLevel.access addr ts (set_m_stats lvl s) =
  ((CacheLevel.access addr ts lvl).1,
   set_m_stats (CacheLevel.access addr ts lvl).2 s).
Proof.
  unfold CacheLevel.access.
  change (CacheLevel.compute_index_tag (set_m_stats lvl s) addr)
    with (CacheLevel.compute_index_tag lvl addr).
  destruct (CacheLevel.compute_index_tag lvl addr) as [set_idx tg].
  change (m_sets (set_m_stats lvl s)) with (m_sets lvl).
  by destruct (CacheLevel.touch_line tg ts _).
Qed.

Lemma access_miss_unchanged addr ts lvl :
  (CacheLevel.access addr ts lvl).1 = false →
  (CacheLevel.access addr ts lvl).2 = lvl.
Proof.
  unfold CacheLevel.access.
  destruct (CacheLevel.compute_index_tag lvl addr) as [set_idx tg].
  by destruct (CacheLevel.touch_line tg ts _).
Qed.

Lemma insert_set_m_stats addr ts lvl s :
  CacheLevel.insert addr ts (set_m_stats lvl s) =
  set_m_stats (CacheLevel.insert addr ts lvl) s.
Proof.
  unfold CacheLevel.insert.
  change (CacheLevel.compute_index_tag (set_m_stats lvl s) addr)
    with (CacheLevel.compute_index_tag lvl addr).
  by destruct (CacheLevel.compute_index_tag lvl addr) as [set_idx tg].
Qed.

(** The walk when the first level that holds the address is level [k]. *)
Lemma walk_hit addr ts lvls : ∀ i pen recs k lvl,
  (∀ j l, (j < k)%nat → lvls !! j = Some l →
          (CacheLevel.access addr ts l).1 = false) →
  lvls !! k = Some lvl →
  (CacheLevel.access addr ts lvl).1 = true →
  let w := walk addr ts i lvls pen recs in
  w_level_hit w = Some (i + k)%nat ∧
  (∀ j l, (j < k)%nat → lvls !! j = Some l →
          ∃ s, w_levels w !! j = Some (set_m_stats l s)) ∧
  (∃ s, w_levels w !! k = Some (set_m_stats (CacheLevel.access addr ts lvl).2 s)) ∧
  (∀ j, (k < j)%nat → w_levels w !! j = lvls !! j) ∧
  Forall (λ r, r ∈ recs ∨ Z.of_nat i ≤ level r < Z.of_nat (i + k))
         (w_miss_records w).
Proof.
  induction lvls as [|l0 rest IH]; intros i pen recs k lvl Hbefore Hk Hhit; [done|].
  cbn [walk]. rewrite access_set_m_stats.
  destruct k as [|k].
  - injection Hk as ->. rewrite Hhit. cbn.
    split_and!.
    + f_equal. lia.
    + intros j l Hj. lia.
    + by eexists.
    + intros [|j] Hj; [lia | done].
    + apply Forall_forall. intros r Hr. by left.
  - assert (H0 : (CacheLevel.access addr ts l0).1 = false)
      by (apply (Hbefore 0%nat); [lia | done]).
    rewrite H0, (access_miss_unchanged _ _ _ H0). cbn zeta.
    cbn in Hk.
    edestruct (IH (S i) (wrap64 (pen + m_latency l0))
                 (recs ++ [{| level := Z.of_nat i;
                              penalty_upto_level := wrap64 (pen + m_latency l0) |}])
                 k lvl) as (Hl & Hlow & Hat & Hhigh & Hrecs); [|done|done|].
    { intros j l Hj Hjl. apply (Hbefore (S j)); [lia | done]. }
    cbn. split_and!.
    + rewrite Hl. f_equal. lia.
    + intros [|j] l Hj Hjl.
      * injection Hjl as <-. by eexists.
      * apply Hlow; [lia | done].
    + done.
    + intros [|j] Hj; [lia|]. apply Hhigh. lia.
    + eapply Forall_impl; [exact Hrecs|]. cbn.
      intros r [Hr|Hr]; [|right; lia].
      apply elem_of_app in Hr as [Hr|Hr]; [by left|].
      apply list_elem_of_singleton in Hr as ->. right. cbn. lia.
Qed.

(** The walk when no level holds the address. *)
Lemma walk_miss addr ts lvls : ∀ i pen recs,
  (∀ j l, lvls !! j = Some l → (CacheLevel.access addr ts l).1 = false) →
  let w := walk addr ts i lvls pen recs in
  w_level_hit w = None ∧
  ∀ j l, lvls !! j = Some l → ∃ s, w_levels w !! j = Some (set_m_stats l s).
Proof.
  induction lvls as [|l0 rest IH]; intros i pen recs Hall; [done|].
  cbn [walk]. rewrite access_set_m_stats.
  assert (H0 : (CacheLevel.access addr ts l0).1 = false) by (by apply (Hall 0%nat)).
  rewrite H0, (access_miss_unchanged _ _ _ H0). cbn zeta.
  edestruct (IH (S i) (wrap64 (pen + m_latency l0))
               (recs ++ [{| level := Z.of_nat i;
                            penalty_upto_level := wrap64 (pen + m_latency l0) |}]))
    as (Hl & Hlev).
  { intros j l Hjl. by apply (Hall (S j)). }
  cbn. split; [done|].
  intros [|j] l Hjl.
  - injection Hjl as <-. by eexists.
  - by apply Hlev.
Qed.

Lemma foldl_alter_seq {A} (f : A → A) n (l : list A) j :
  foldl (λ l i, alter f i l) l (seq 0 n) !! j =
  if decide (j < n)%nat then f <$> l !! j else l !! j.
Proof.
  induction n as [|n IH].
  - cbn. case_decide; [lia | done].
  - rewrite seq_S, foldl_app. cbn. rewrite list_lookup_alter.
    destruct (decide (n = j)) as [->|Hne].
    + rewrite IH. repeat case_decide; try lia. done.
    + rewrite IH. repeat case_decide; try lia; done.
Qed.

Lemma fill_lookup addr ts fill_upto lvls j :
  fill addr ts fill_upto lvls !! j =
  if decide (j < Z.to_nat (fill_upto + 1))%nat
  then CacheLevel.insert addr ts <$> lvls !! j else lvls !! j.
Proof. apply foldl_alter_seq. Qed.

(** The attribution loop touches statistics only. *)
Lemma attribute_stats_only tp recs : ∀ lvls j l,
  lvls !! j = Some l →
  ∃ s, attribute tp recs lvls !! j = Some (set_m_stats l s).
Proof.
  unfold attribute.
  induction recs as [|r recs IH]; intros lvls j l Hj; cbn.
  - exists (m_stats l). by destruct l.
  - destruct ((0 <=? level r) && (level r <? Z.of_nat (length lvls))); [|by apply IH].
    destruct (decide (Z.to_nat (level r) = j)) as [<-|Hne].
    + edestruct (IH (alter (λ lvl, set_m_stats lvl
                             (add_miss_penalty
                                (if penalty_upto_level r <? tp
                                 then tp - penalty_upto_level r else 0)
                                (m_stats lvl)))
                       (Z.to_nat (level r)) lvls)) as [s Hs].
      { rewrite list_lookup_alter. rewrite decide_True by done. by rewrite Hj. }
      exists s. apply Hs.
    + apply IH. rewrite list_lookup_alter. by rewrite decide_False.
Qed.

Lemma attribute_untouched tp recs j : ∀ lvls,
  Forall (λ r, 0 ≤ level r < Z.of_nat j) recs →
  attribute tp recs lvls !! j = lvls !! j.
Proof.
  unfold attribute.
  induction recs as [|r recs IH]; intros lvls Hall; cbn; [done|].
  inversion Hall as [|? ? Hr Hrest]; subst.
  destruct ((0 <=? level r) && (level r <? Z.of_nat (length lvls))).
  - rewrite IH by done. rewrite list_lookup_alter.
    rewrite decide_False by lia. done.
  - by apply IH.
Qed.

Lemma attribute_untouched_above tp recs k j lvls :
  Forall (λ r, 0 ≤ level r < Z.of_nat k) recs → (k ≤ j)%nat →
  attribute tp recs lvls !! j = lvls !! j.
Proof.
  intros Hall Hkj. apply attribute_untouched.
  eapply Forall_impl; [exact Hall|]. cbn. lia.
Qed.

(** C8.  An access with at least one configured level.  When level [k] is the
    first whose lookup hits, every level [j <= k] ends up as the result of
    [insert(addr, m_timestamp)] applied to what its lookup left (for [j < k],
    a miss, that is the level as it was) and every level beyond [k] is left
    exactly as it was, statistics included, so it was neither looked up nor
    inserted into.  When every lookup misses, every level ends up as the
    result of the insert.  [m_timestamp] is the clock after its increment. *)
Theorem access_inclusive_fill c addr is_write :
  m_levels c ≠ [] →
  let ts := wrap64 (m_timestamp c + 1) in
  let c' := access addr is_write c in
  let hit l := (CacheLevel.access addr ts l).1 in
  m_timestamp c' = ts ∧
  (∀ k lvl_k,
      m_levels c !! k = Some lvl_k → hit lvl_k = true →
      (∀ j l, (j < k)%nat → m_levels c !! j = Some l → hit l = false) →
      (∀ j l, (j ≤ k)%nat → m_levels c !! j = Some l →
         ∃ l', m_levels c' !! j = Some l' ∧
               m_sets l' =
               m_sets (CacheLevel.insert addr ts (CacheLevel.access addr ts l).2)) ∧
      (∀ j, (k < j)%nat → m_levels c' !! j = m_levels c !! j)) ∧
  ((∀ j l, m_levels c !! j = Some l → hit l = false) →
   ∀ j l, m_levels c !! j = Some l →
     ∃ l', m_levels c' !! j = Some l' ∧
           m_sets l' = m_sets (CacheLevel.insert addr ts l)).
Proof.
  intros Hne ts c' hit.
  assert (Hc' : c' = access addr is_write c) by done.
  unfold access in Hc'.
  destruct (m_levels c) as [|l0 rest] eqn:Hlv; [done|].
  rewrite <- Hlv in *. clear l0 rest Hlv.
  fold ts in Hc'.
  split_and!.
  - by rewrite Hc'.
  - intros k lvl_k Hk Hhit Hbefore.
    pose proof (lookup_lt_Some _ _ _ Hk) as Hklen.
    destruct (walk_hit addr ts (m_levels c) 0 0 [] k lvl_k Hbefore Hk Hhit)
      as (Hl & Hlow & Hat & Hhigh & Hrecs).
    rewrite Hc'. cbn [m_levels]. rewrite Hl. cbn [Nat.add].
    rewrite bool_decide_true by (by eexists).
    rewrite (proj2 (Z.eqb_neq (Z.of_nat k) (Z.of_nat (length (m_levels c)))))
      by lia.
    split.
    + intros j l Hj Hjl.
      assert (∃ s, w_levels (walk addr ts 0 (m_levels c) 0 []) !! j
                   = Some (set_m_stats (CacheLevel.access addr ts l).2 s))
        as [s Hw].
      { destruct (decide (j = k)) as [->|Hjk].
        - rewrite Hk in Hjl. injection Hjl as <-. done.
        - destruct (Hlow j l ltac:(lia) Hjl) as [s Hs]. exists s.
          rewrite access_miss_unchanged; [done|]. apply (Hbefore j); [lia | done]. }
      edestruct (attribute_stats_only
                   (w_total_penalty (walk addr ts 0 (m_levels c) 0 []))
                   (w_miss_records (walk addr ts 0 (m_levels c) 0 []))
                   (fill addr ts (Z.of_nat k) (w_levels (walk addr ts 0 (m_levels c) 0 [])))
                   j) as [s' Hs'].
      { rewrite fill_lookup, decide_True by lia. rewrite Hw. done. }
      eexists. split; [exact Hs'|].
      by rewrite insert_set_m_stats.
    + intros j Hj.
      rewrite (attribute_untouched_above _ _ k) ; [| |lia].
      * rewrite fill_lookup, decide_False by lia. by apply Hhigh.
      * eapply Forall_impl; [exact Hrecs|]. cbn.
        intros r [Hr|Hr]; [by apply elem_of_nil in Hr | lia].
  - intros Hall j l Hjl.
    pose proof (lookup_lt_Some _ _ _ Hjl) as Hjlen.
    destruct (walk_miss addr ts (m_levels c) 0 0 [] Hall) as (Hl & Hlev).
    rewrite Hc'. cbn [m_levels]. rewrite Hl.
    rewrite bool_decide_false by (by intros [? ?]).
    rewrite Z.eqb_refl.
    destruct (Hlev j l Hjl) as [s Hw].
    edestruct (attribute_stats_only
                 (wrap64 (w_total_penalty (walk addr ts 0 (m_levels c) 0 [])
                          + m_memory_latency c))
                 (w_miss_records (walk addr ts 0 (m_levels c) 0 []))
                 (fill addr ts (Z.of_nat (length (m_levels c)) - 1)
                    (w_levels (walk addr ts 0 (m_levels c) 0 [])))
                 j) as [s' Hs'].
    { rewrite fill_lookup, decide_True by lia. rewrite Hw. done. }
    eexists. split; [exact Hs'|].
    by rewrite insert_set_m_stats.
Qed.

Lemma access_inclusive_fill_witness :
  m_levels (cache_init_default make) ≠ [] ∧
  m_timestamp (access 4152 false (cache_init_default make)) = 1.
Proof.
  split; [done|].
  exact (proj1 (access_inclusive_fill (cache_init_default make) 4152 false
                  ltac:(done))).
Defined.

End ControllerFacts.

(** ** The block list *)

Section BlockListFacts.
Context `{!Platform}.

Lemma lookup_snoc_inv {A} (pre : list A) (x : A) j y :
  (pre ++ [x]) !! j = Some y →
  ((j < length pre)%nat ∧ pre !! j = Some y) ∨ (j = length pre ∧ y = x).
Proof.
  intros Hj. destruct (decide (j < length pre)%nat) as [Hlt|Hge].
  - left. split; [done|]. by rewrite lookup_app_l in Hj.
  - right. rewrite lookup_app_r in Hj by lia.
    destruct (j - length pre)%nat as [|n] eqn:E; cbn in Hj; [|done].
    injection Hj as <-. split; [lia | done].
Qed.

Lemma fits_decide size_ b :
  negb (free b) || (size b <? size_) = false ↔ fits size_ b.
Proof.
  unfold fits. destruct (free b); cbn.
  - rewrite Z.ltb_ge. split; [by split | by intros [_ ?]].
  - split; [done | by intros [? _]].
Qed.

Lemma find_fit_from_found size_ strategy rest : ∀ pre candidate,
  scanned pre size_ strategy candidate →
  found (pre ++ rest) size_ strategy
        (find_fit_from size_ strategy (length pre) rest candidate).
Proof.
  induction rest as [|curr rest IH]; intros pre candidate [Hfound Hfirst].
  { cbn. by rewrite app_nil_r. }
  cbn [find_fit_from].
  assert (Hnext : ∀ cand', scanned (pre ++ [curr]) size_ strategy cand' →
            found (pre ++ curr :: rest) size_ strategy
              (find_fit_from size_ strategy (S (length pre)) rest cand')).
  { intros cand' Hs. specialize (IH (pre ++ [curr]) cand' Hs).
    rewrite length_app, <- app_assoc in IH. cbn in IH.
    by replace (length pre + 1)%nat with (S (length pre)) in IH by lia. }
  destruct (negb (free curr) || (size curr <? size_)) eqn:Hfit.
  - (* curr is skipped *)
    apply Hnext. split; [|done].
    assert (Hno : ¬ fits size_ curr).
    { intros Hf%fits_decide. congruence. }
    destruct candidate as [[c cand]|]; cbn in *.
    + destruct Hfound as (Hc & Hcf & Hstr).
      pose proof (lookup_lt_Some _ _ _ Hc) as Hclt.
      split_and!; [by apply lookup_app_l_Some | done |].
      destruct strategy.
      * intros j b Hj [[Hlt Hjb]|[-> ->]]%lookup_snoc_inv; [by eapply Hstr | lia].
      * intros j b [[Hlt Hjb]|[-> ->]]%lookup_snoc_inv Hf; [by eapply Hstr | done].
      * intros j b [[Hlt Hjb]|[-> ->]]%lookup_snoc_inv Hf; [by eapply Hstr | done].
    + intros j b [[Hlt Hjb]|[-> ->]]%lookup_snoc_inv; [by eapply Hfound | done].
  - apply fits_decide in Hfit.
    assert (Hcurr : (pre ++ curr :: rest) !! length pre = Some curr)
      by (by rewrite list_lookup_middle).
    assert (Hcurr' : (pre ++ [curr]) !! length pre = Some curr)
      by (by rewrite list_lookup_middle).
    destruct strategy.
    + (* First *)
      rewrite (Hfirst eq_refl) in Hfound. cbn in Hfound |- *.
      split_and!; [done | done |].
      intros j b Hj Hjb. rewrite lookup_app_l in Hjb by done. by eapply Hfound.
    + (* Best *)
      destruct candidate as [[c cand]|]; cbn in Hfound.
      * destruct Hfound as (Hc & Hcf & Hmin).
        pose proof (lookup_lt_Some _ _ _ Hc) as Hclt.
        apply Hnext. split; [|done].
        destruct (size curr <? size cand) eqn:Hlt; cbn.
        -- apply Z.ltb_lt in Hlt. split_and!; [done | done |].
           intros j b [[Hj Hjb]|[-> ->]]%lookup_snoc_inv Hf; [|lia].
           destruct (Hmin j b Hjb Hf). lia.
        -- apply Z.ltb_ge in Hlt.
           split_and!; [by apply lookup_app_l_Some | done |].
           intros j b [[Hj Hjb]|[-> ->]]%lookup_snoc_inv Hf; [by apply Hmin | lia].
      * apply Hnext. split; [|done]. cbn. split_and!; [done | done |].
        intros j b [[Hj Hjb]|[-> ->]]%lookup_snoc_inv Hf; [|lia].
        by destruct (Hfound j b Hjb).
    + (* Worst *)
      destruct candidate as [[c cand]|]; cbn in Hfound.
      * destruct Hfound as (Hc & Hcf & Hmax).
        pose proof (lookup_lt_Some _ _ _ Hc) as Hclt.
        apply Hnext. split; [|done].
        destruct (size cand <? size curr) eqn:Hlt; cbn.
        -- apply Z.ltb_lt in Hlt. split_and!; [done | done |].
           intros j b [[Hj Hjb]|[-> ->]]%lookup_snoc_inv Hf; [|lia].
           destruct (Hmax j b Hjb Hf). lia.
        -- apply Z.ltb_ge in Hlt.
           split_and!; [by apply lookup_app_l_Some | done |].
           intros j b [[Hj Hjb]|[-> ->]]%lookup_snoc_inv Hf; [by apply Hmax | lia].
      * apply Hnext. split; [|done]. cbn. split_and!; [done | done |].
        intros j b [[Hj Hjb]|[-> ->]]%lookup_snoc_inv Hf; [|lia].
        by destruct (Hfound j b Hjb).
Qed.

Lemma find_fit_found head size_ strategy :
  found head size_ strategy (find_fit head size_ strategy).
Proof.
  pose proof (find_fit_from_found size_ strategy head [] None) as Hgen.
  cbn in Hgen. apply Hgen. split; [|done]. intros j b Hj. done.
Qed.

(** C5.  The fit search on any block list and any request [size_]: the block
    it returns is in the list, free and of size at least [size_]; with
    [First] no earlier block qualifies; with [Best] no qualifying block is
    smaller and every earlier qualifying block is strictly larger; with
    [Worst] no qualifying block is larger and every earlier qualifying
    block is strictly smaller; and it returns no block exactly when no
    block of the list qualifies. *)
Theorem find_fit_spec (head : list BlockHeader) (size_ : Z) (strategy : FitStrategy) :
  match find_fit head size_ strategy with
  | None => ∀ j b, head !! j = Some b → ¬ fits size_ b
  | Some (i, blk) =>
      head !! i = Some blk ∧ fits size_ blk ∧
      match strategy with
      | First => ∀ j b, (j < i)%nat → head !! j = Some b → ¬ fits size_ b
      | Best => ∀ j b, head !! j = Some b → fits size_ b →
                       size blk ≤ size b ∧ ((j < i)%nat → size blk < size b)
      | Worst => ∀ j b, head !! j = Some b → fits size_ b →
                        size b ≤ size blk ∧ ((j < i)%nat → size b < size blk)
      end
  end.
Proof.
  pose proof (find_fit_from_found size_ strategy head [] None) as Hgen.
  cbn in Hgen. apply Hgen. split; [|done]. intros j b Hj. done.
Qed.

(** The block and the header that a split creates behind it. *)
Lemma split_block_middle l1 block l2 size_ :
  split_block_if_needed (l1 ++ block :: l2) (length l1) size_ =
  if wrap64 (size block - size_) <=? wrap64 (sizeof_BlockHeader + 8)
  then l1 ++ block :: l2
  else
    l1 ++
    {| self := self block; id := id block; start := start block;
       size := size_; requested_size := requested_size block;
       free := free block; cacheable := cacheable block;
       cache_hits := cache_hits block |} ::
    {| self := wrap64 (self block + sizeof_BlockHeader + size_); id := -1;
       start := wrap64 (wrap64 (self block + sizeof_BlockHeader + size_)
                        + sizeof_BlockHeader);
       size := wrap64 (wrap64 (size block - size_) - sizeof_BlockHeader);
       requested_size := 0; free := true; cacheable := false;
       cache_hits := 0 |} :: l2.
Proof.
  unfold split_block_if_needed. rewrite list_lookup_middle by done.
  case_match; [done|].
  rewrite take_app_length.
  rewrite (cons_middle block l1 l2), app_assoc.
  rewrite drop_app_length' by (rewrite length_app; cbn; lia).
  done.
Qed.

(** C6.  Splitting the chosen block for an aligned request [size_] that it
    can hold, with [R = chosen.size - size_]: when [R > header_size + 8]
    the chosen block shrinks to payload size [size_] and a free header
    with id -1, requested size 0, not cacheable and payload size
    [R - header_size] is linked directly behind it, in front of the old
    successors, at the address that follows the shrunk payload; otherwise
    the list, and with it the size of the chosen block, is unchanged. *)
Theorem split_block_if_needed_spec l1 chosen l2 size_ :
  0 ≤ sizeof_BlockHeader → sizeof_BlockHeader + 8 < 2 ^ 64 →
  0 ≤ size_ ≤ size chosen → size chosen < 2 ^ 64 →
  let R := size chosen - size_ in
  let new_addr := wrap64 (self chosen + sizeof_BlockHeader + size_) in
  split_block_if_needed (l1 ++ chosen :: l2) (length l1) size_ =
  if decide (sizeof_BlockHeader + 8 < R)
  then
    l1 ++
    {| self := self chosen; id := id chosen; start := start chosen;
       size := size_; requested_size := requested_size chosen;
       free := free chosen; cacheable := cacheable chosen;
       cache_hits := cache_hits chosen |} ::
    {| self := new_addr; id := -1;
       start := wrap64 (new_addr + sizeof_BlockHeader);
       size := R - sizeof_BlockHeader;
       requested_size := 0; free := true; cacheable := false;
       cache_hits := 0 |} :: l2
  else l1 ++ chosen :: l2.
Proof.
  intros Hh0 Hh8 HS Hsz R new_addr.
  rewrite split_block_middle.
  rewrite (wrap64_small (size chosen - size_)) by lia.
  rewrite (wrap64_small (sizeof_BlockHeader + 8)) by lia.
  fold R. destruct (Z.leb_spec R (sizeof_BlockHeader + 8)).
  - by rewrite decide_False by lia.
  - rewrite decide_True by lia.
    rewrite (wrap64_small (R - sizeof_BlockHeader)) by (unfold R in *; lia).
    done.
Qed.

End BlockListFacts.

Lemma split_block_if_needed_spec_witness :
  let chosen := {| self := 4096; id := -1; start := 4152; size := 65480;
                   requested_size := 0; free := true; cacheable := false;
                   cache_hits := 0 |} in
  (0 ≤ @sizeof_BlockHeader lp64 ∧ @sizeof_BlockHeader lp64 + 8 < 2 ^ 64 ∧
   0 ≤ 112 ≤ size chosen ∧ size chosen < 2 ^ 64) ∧
  @split_block_if_needed lp64 ([] ++ chosen :: []) 0 112 =
  [ {| self := 4096; id := -1; start := 4152; size := 112;
       requested_size := 0; free := true; cacheable := false;
       cache_hits := 0 |};
    {| self := 4264; id := -1; start := 4320; size := 65312;
       requested_size := 0; free := true; cacheable := false;
       cache_hits := 0 |} ].
Proof.
  intros chosen. split; [cbn; lia|].
  exact (@split_block_if_needed_spec lp64 [] chosen [] 112
           ltac:(cbn; lia) ltac:(cbn; lia) ltac:(cbn; lia) ltac:(cbn; lia)).
Defined.


(** ** Reading and writing a block *)

Section ReadWriteFacts.
Context `{!Platform}.

Lemma wrap64_add_l a b : wrap64 (wrap64 a + b) = wrap64 (a + b).
Proof. unfold wrap64. by rewrite Zplus_mod_idemp_l. Qed.

(** Two bytes of one range of fewer than 2^64 bytes have two addresses. *)
Lemma wrap64_apart p j j' :
  0 ≤ j < j' → j' < j + 2 ^ 64 → wrap64 (p + j) ≠ wrap64 (p + j').
Proof.
  unfold wrap64. intros Hj Hj' Heq.
  assert (Hz : (p + j' - (p + j)) mod 2 ^ 64 = 0).
  { rewrite Zminus_mod, Heq, Z.sub_diag. done. }
  replace (p + j' - (p + j)) with (j' - j) in Hz by lia.
  rewrite Z.mod_small in Hz by lia. lia.
Qed.

Lemma heap_bytes_init st : heap_bytes (allocator_init st) = heap_bytes st.
Proof. unfold allocator_init. by destruct (g_head st). Qed.

Lemma find_block_from_spec id_ rest : ∀ i j hdr,
  find_block_from id_ i rest = Some (j, hdr) →
  (i ≤ j)%nat ∧ rest !! (j - i)%nat = Some hdr ∧
  free hdr = false ∧ id hdr = id_ ∧
  ∀ k b, (k < j - i)%nat → rest !! k = Some b →
         ¬ (free b = false ∧ id b = id_).
Proof.
  induction rest as [|b0 rest IH]; intros i j hdr; cbn; [done|].
  destruct (negb (free b0) && (id b0 =? id_)) eqn:E.
  - intros [= <- <-]. apply andb_true_iff in E as [Hf He].
    apply negb_true_iff in Hf. apply Z.eqb_eq in He.
    rewrite Nat.sub_diag. split_and!; [lia | done | done | done |].
    intros k b Hk. lia.
  - intros Hfind. destruct (IH _ _ _ Hfind) as (Hle & Hl & Hf & He & Hfirst).
    replace (j - i)%nat with (S (j - S i)) by lia.
    split_and!; [lia | done | done | done |].
    intros [|k] b Hk Hkb.
    + injection Hkb as <-. intros [Hf' He'].
      rewrite Hf', He', Z.eqb_refl in E. done.
    + apply (Hfirst k); [lia | done].
Qed.

Lemma find_block_by_id_spec head id_ i hdr :
  find_block_by_id head id_ = Some (i, hdr) →
  head !! i = Some hdr ∧ free hdr = false ∧ id hdr = id_.
Proof.
  intros Hf. apply find_block_from_spec in Hf as (_ & Hl & Hfr & Hid & _).
  by rewrite Nat.sub_0_r in Hl.
Qed.

Lemma is_garbage_spec v :
  is_garbage v = false ↔ v ≠ PATTERN_UNINITIALIZED ∧ v ≠ PATTERN_FREED.
Proof.
  unfold is_garbage. rewrite orb_false_iff, !Z.eqb_neq. done.
Qed.

(** The copy loop of [allocator_read], started at index [i] with [k]
    iterations to go. *)
Lemma read_loop_spec m p k : ∀ i cache dst g,
  0 ≤ i → (Z.to_nat i + k ≤ length dst)%nat →
  ∃ cache' out g',
    read_loop m p k i cache dst g = (cache', out, g') ∧
    length out = length dst ∧
    (∀ j, i ≤ j < i + Z.of_nat k →
          out !! Z.to_nat j = Some (m (wrap64 (p + j)))) ∧
    (∀ j, (j < Z.to_nat i)%nat → out !! j = dst !! j) ∧
    (g' = false ↔
     g = false ∧ ∀ j, i ≤ j < i + Z.of_nat k → is_garbage (m (wrap64 (p + j))) = false).
Proof.
  induction k as [|k IH]; intros i cache dst g Hi Hlen; cbn [read_loop].
  - eexists _, _, _. split_and!; [done | done | lia | done |].
    split; [intros ->; split; [done | lia] | by intros [-> _]].
  - edestruct (IH (i + 1) (cache_access (wrap64 (p + i)) false cache)
                 (<[Z.to_nat i := m (wrap64 (p + i))]> dst)
                 (if is_garbage (m (wrap64 (p + i))) then true else g))
      as (cache' & out & g' & Heq & Hl & Hcopy & Hlow & Hg).
    { lia. } { rewrite length_insert. lia. }
    exists cache', out, g'. rewrite length_insert in Hl.
    split_and!; [done | done | | |].
    + intros j Hj. destruct (decide (j = i)) as [->|Hne].
      * rewrite Hlow by lia. apply list_lookup_insert_eq. lia.
      * apply Hcopy. lia.
    + intros j Hj. rewrite Hlow by lia. apply list_lookup_insert_ne. lia.
    + rewrite Hg. split.
      * intros [Hg0 Hrest].
        destruct (is_garbage (m (wrap64 (p + i)))) eqn:E; [done|].
        split; [done|]. intros j Hj.
        destruct (decide (j = i)) as [->|Hne]; [done | apply Hrest; lia].
      * intros [-> Hall]. rewrite (Hall i) by lia. split; [done|].
        intros j Hj. apply Hall. lia.
Qed.

(** The stores of [allocator_write] leave every other address alone. *)
Lemma write_loop_other src p k a : ∀ i cache m,
  (∀ j, i ≤ j < i + Z.of_nat k → wrap64 (p + j) ≠ a) →
  (write_loop src p k i cache m).2 a = m a.
Proof.
  induction k as [|k IH]; intros i cache m Hne; cbn [write_loop]; [done|].
  rewrite IH by (intros j Hj; apply Hne; lia).
  unfold store. rewrite (proj2 (Z.eqb_neq a (wrap64 (p + i)))); [done|].
  intros ->. by apply (Hne i ltac:(lia)).
Qed.

Lemma write_loop_spec src p k : ∀ i cache m,
  0 ≤ i → i + Z.of_nat k ≤ 2 ^ 64 →
  ∀ j, i ≤ j < i + Z.of_nat k →
       (write_loop src p k i cache m).2 (wrap64 (p + j)) = src !!! Z.to_nat j.
Proof.
  induction k as [|k IH]; intros i cache m Hi Hk j Hj; cbn [write_loop]; [lia|].
  destruct (decide (j = i)) as [->|Hne].
  - rewrite write_loop_other.
    + unfold store. by rewrite Z.eqb_refl.
    + intros j' Hj'. apply not_eq_sym. apply wrap64_apart; lia.
  - apply IH; lia.
Qed.

(** A read that passes every check is the copy loop. *)
Lemma allocator_read_accepted st id_ offset dst_bytes size_ i hdr :
  find_block_by_id (g_head (allocator_init st)) id_ = Some (i, hdr) →
  0 ≤ id_ → 0 ≤ offset → 0 < size_ →
  offset + size_ ≤ requested_size hdr → requested_size hdr < 2 ^ 64 →
  allocator_read id_ offset (Some dst_bytes) size_ st =
  let '(cache, out, has_garbage) :=
    read_loop (heap_bytes st) (wrap64 (start hdr + offset)) (Z.to_nat size_) 0
      (g_cache (allocator_init st)) dst_bytes false in
  (set_g_cache (allocator_init st) cache, Some out, negb has_garbage).
Proof.
  intros Hfind Hid Hoff Hn Hreq Hrange.
  pose proof (find_block_by_id_spec _ _ _ _ Hfind) as (_ & Hfree & _).
  unfold allocator_read. rewrite Hfind, Hfree.
  rewrite (proj2 (Z.ltb_ge id_ 0)) by lia.
  rewrite (proj2 (Z.eqb_neq size_ 0)) by lia. cbn [orb].
  rewrite (wrap64_small (offset + size_)) by lia.
  rewrite (proj2 (Z.ltb_ge (requested_size hdr) (offset + size_))) by lia.
  by rewrite heap_bytes_init.
Qed.

(** C4.  A read of a valid range of an allocated block ([size_ > 0],
    [offset + size_ <= requested_size], a destination of at least [size_]
    bytes): all [size_] source bytes are copied to the destination, and the
    result is true exactly when none of them is 0xCD or 0xDD. *)
Theorem allocator_read_spec st id_ offset dst_bytes size_ i hdr :
  find_block_by_id (g_head (allocator_init st)) id_ = Some (i, hdr) →
  0 ≤ id_ → 0 ≤ offset → 0 < size_ →
  offset + size_ ≤ requested_size hdr → requested_size hdr < 2 ^ 64 →
  size_ ≤ Z.of_nat (length dst_bytes) →
  let src k := heap_bytes st (wrap64 (start hdr + offset + k)) in
  ∃ st' out ok,
    allocator_read id_ offset (Some dst_bytes) size_ st = (st', Some out, ok) ∧
    length out = length dst_bytes ∧
    (∀ k, 0 ≤ k < size_ → out !! Z.to_nat k = Some (src k)) ∧
    (ok = true ↔
     ∀ k, 0 ≤ k < size_ →
          src k ≠ PATTERN_UNINITIALIZED ∧ src k ≠ PATTERN_FREED).
Proof.
  intros Hfind Hid Hoff Hn Hreq Hrange Hdst src.
  rewrite (allocator_read_accepted st id_ offset dst_bytes size_ i hdr) by done.
  destruct (read_loop_spec (heap_bytes st)
              (wrap64 (start hdr + offset)) (Z.to_nat size_) 0
              (g_cache (allocator_init st)) dst_bytes false)
    as (cache' & out & g' & -> & Hl & Hcopy & _ & Hg); [lia | lia |].
  eexists _, out, _. split; [done|].
  assert (Hsrc : ∀ k, heap_bytes st (wrap64 (wrap64 (start hdr + offset) + k))
                      = src k).
  { intros k. unfold src. by rewrite wrap64_add_l. }
  split_and!; [done | |].
  - intros k Hk. rewrite Hcopy by lia. by rewrite Hsrc.
  - rewrite negb_true_iff, Hg. split.
    + intros [_ Hall] k Hk. apply is_garbage_spec. rewrite <- Hsrc.
      apply Hall. lia.
    + intros Hall. split; [done|]. intros k Hk. rewrite Hsrc.
      apply is_garbage_spec. apply Hall. lia.
Qed.

(** C2.  A write to a valid range of an allocated block ([size_ > 0],
    [offset + size_ <= requested_size], a source of at least [size_]
    bytes) returns true and stores all [size_] source bytes in the block,
    whatever the destination held before (no hypothesis restricts the old
    bytes, so 0xCD and 0xDD are included). *)
Theorem allocator_write_spec st id_ offset src_bytes size_ i hdr :
  find_block_by_id (g_head (allocator_init st)) id_ = Some (i, hdr) →
  0 ≤ id_ → 0 ≤ offset → 0 < size_ →
  offset + size_ ≤ requested_size hdr → requested_size hdr < 2 ^ 64 →
  size_ ≤ Z.of_nat (length src_bytes) →
  ∃ st',
    allocator_write id_ offset (Some src_bytes) size_ st = (st', true) ∧
    ∀ k, 0 ≤ k < size_ →
         src_bytes !! Z.to_nat k =
         Some (heap_bytes st' (wrap64 (start hdr + offset + k))).
Proof.
  intros Hfind Hid Hoff Hn Hreq Hrange Hsrc.
  pose proof (find_block_by_id_spec _ _ _ _ Hfind) as (_ & Hfree & _).
  unfold allocator_write. rewrite Hfind, Hfree.
  rewrite (proj2 (Z.ltb_ge id_ 0)) by lia.
  rewrite (proj2 (Z.eqb_neq size_ 0)) by lia. cbn [orb].
  rewrite (wrap64_small (offset + size_)) by lia.
  rewrite (proj2 (Z.ltb_ge (requested_size hdr) (offset + size_))) by lia.
  destruct (write_loop src_bytes (wrap64 (start hdr + offset)) (Z.to_nat size_) 0
              (g_cache (allocator_init st)) (heap_bytes (allocator_init st)))
    as [cache' m'] eqn:Hloop.
  eexists. split; [done|].
  intros k Hk. cbn [heap_bytes set_heap_bytes].
  rewrite <- wrap64_add_l.
  replace m' with (write_loop src_bytes (wrap64 (start hdr + offset))
                     (Z.to_nat size_) 0 (g_cache (allocator_init st))
                     (heap_bytes (allocator_init st))).2 by (by rewrite Hloop).
  rewrite write_loop_spec by lia.
  apply list_lookup_lookup_total_lt. lia.
Qed.

End ReadWriteFacts.

(** ** The invariant of the block list *)

Section InvariantFacts.
Context `{!Platform}.
Hypothesis Hplatform : platform_ok.

Lemma tiles_end l : ∀ a, tiles a l → a ≤ g_heap + HEAP_SIZE.
Proof.
  destruct Hplatform as (Hh & _).
  induction l as [|b l IH]; intros a; cbn; [lia|].
  intros (_ & _ & _ & Hsz & _ & Ht). apply IH in Ht. lia.
Qed.

(** The blocks behind a prefix can be replaced by blocks that tile the
    same stretch of the heap. *)
Lemma tiles_app_suffix l1 : ∀ a l2 l2',
  tiles a (l1 ++ l2) → (∀ a', tiles a' l2 → tiles a' l2') →
  tiles a (l1 ++ l2').
Proof.
  induction l1 as [|b l1 IH]; intros a l2 l2'; cbn; [by auto|].
  intros (? & ? & ? & ? & ? & Ht) Hsuf. split_and!; try done.
  by eapply IH.
Qed.

Lemma live_ids_app l1 l2 : live_ids (l1 ++ l2) = live_ids l1 ++ live_ids l2.
Proof. unfold live_ids. by rewrite filter_app, fmap_app. Qed.

Lemma live_ids_cons b l :
  live_ids (b :: l) = if free b then live_ids l else id b :: live_ids l.
Proof.
  unfold live_ids. rewrite filter_cons.
  destruct (free b); case_decide; done.
Qed.

Lemma live_ids_bound next_id l x :
  Forall (live_block_ok next_id) l → x ∈ live_ids l → 0 ≤ x < next_id.
Proof.
  intros Hall Hx. unfold live_ids in Hx.
  apply list_elem_of_fmap in Hx as (b & -> & Hb).
  apply list_elem_of_filter in Hb as [Hf Hb].
  rewrite Forall_forall in Hall. by apply Hall.
Qed.

Lemma live_block_ok_mono n n' b :
  n ≤ n' → live_block_ok n b → live_block_ok n' b.
Proof. unfold live_block_ok. intros Hle Hb Hf. specialize (Hb Hf). lia. Qed.

(** *** Coalescing *)

Lemma coalesce_from_tiles rest : ∀ a curr,
  tiles a (curr :: rest) → tiles a (coalesce_from curr rest).
Proof.
  destruct Hplatform as (Hh & Hhs & Hg & Hend).
  induction rest as [|next rest IH]; intros a curr Ht; [done|].
  cbn [coalesce_from].
  destruct (free curr && free next
            && (wrap64 (self curr + sizeof_BlockHeader + size curr) =? self next)).
  - apply IH.
    pose proof Ht as (Ha & Hself & Hstart & Hsz & Hlt & Ht').
    pose proof Ht' as (Ha' & Hself' & Hstart' & Hsz' & Hlt' & Ht'').
    pose proof (tiles_end _ _ Ht'').
    cbn. rewrite (wrap64_small (sizeof_BlockHeader + size next)) by lia.
    rewrite wrap64_small by lia.
    split_and!; try done; try lia.
    by replace (a + sizeof_BlockHeader +
                (size curr + (sizeof_BlockHeader + size next)))
      with (a + sizeof_BlockHeader + size curr + sizeof_BlockHeader + size next)
      by lia.
  - destruct Ht as (? & ? & ? & ? & ? & Ht'). cbn. split_and!; try done.
    by apply IH.
Qed.

Lemma coalesce_from_live_ids rest : ∀ curr,
  live_ids (coalesce_from curr rest) = live_ids (curr :: rest).
Proof.
  induction rest as [|next rest IH]; intros curr; [done|].
  cbn [coalesce_from].
  destruct (free curr && free next
            && (wrap64 (self curr + sizeof_BlockHeader + size curr) =? self next))
    eqn:E.
  - apply andb_true_iff in E as [[Hc Hn]%andb_true_iff _].
    rewrite IH, !live_ids_cons. cbn. by rewrite Hc, Hn.
  - rewrite live_ids_cons, IH, <- live_ids_cons. done.
Qed.

Lemma coalesce_from_Forall (P : BlockHeader → Prop) rest : ∀ curr,
  (∀ c n, P c → P (absorb c n)) →
  Forall P (curr :: rest) → Forall P (coalesce_from curr rest).
Proof.
  induction rest as [|next rest IH]; intros curr Habs Hall; [done|].
  cbn [coalesce_from].
  inversion Hall as [|? ? Hc Hrest]; subst.
  inversion Hrest as [|? ? Hn Hrest']; subst.
  destruct (free curr && free next
            && (wrap64 (self curr + sizeof_BlockHeader + size curr) =? self next)).
  - apply IH; [done|]. constructor; [by apply Habs | done].
  - constructor; [done|]. by apply IH.
Qed.

Lemma coalesce_free_blocks_inv next_id l :
  blocks_inv next_id l → blocks_inv next_id (coalesce_free_blocks l).
Proof.
  intros [Ht Hn Hf Hl Hd]. destruct l as [|curr rest]; [by constructor|].
  cbn [coalesce_free_blocks]. constructor.
  - right. destruct Ht as [|Ht]; [done|]. by apply coalesce_from_tiles.
  - done.
  - by apply coalesce_from_Forall.
  - by apply coalesce_from_Forall.
  - by rewrite coalesce_from_live_ids.
Qed.

(** *** Updating one header in place *)

Lemma insert_middle {A} (l1 l2 : list A) (x y : A) :
  <[length l1 := y]> (l1 ++ x :: l2) = l1 ++ y :: l2.
Proof.
  replace (length l1) with (length l1 + 0)%nat by lia.
  by rewrite insert_app_r.
Qed.

(** Replacing a header by one with the same place, size, id and free flag
    (and that is not cacheable if it is free) keeps the invariant. *)
Lemma blocks_inv_update next_id l i hdr hdr' :
  blocks_inv next_id l → l !! i = Some hdr →
  self hdr' = self hdr → start hdr' = start hdr → size hdr' = size hdr →
  free hdr' = free hdr → id hdr' = id hdr →
  (free hdr = true → cacheable hdr' = false) →
  blocks_inv next_id (<[i := hdr']> l).
Proof.
  intros [Ht Hn Hf Hl Hd] Hi Hself Hstart Hsize Hfree Hid Hc.
  apply list_elem_of_split_length in Hi as (l1 & l2 & -> & ->).
  rewrite insert_middle.
  apply Forall_app in Hf as [Hf1 Hf2]. apply Forall_cons in Hf2 as [Hfh Hf2].
  apply Forall_app in Hl as [Hl1 Hl2]. apply Forall_cons in Hl2 as [Hlh Hl2].
  constructor.
  - right. destruct Ht as [Ht|Ht]; [by destruct l1|].
    eapply tiles_app_suffix; [exact Ht|]. cbn.
    rewrite Hself, Hstart, Hsize. done.
  - done.
  - apply Forall_app; split; [done|]. constructor; [|done].
    unfold free_block_ok in *. rewrite Hfree, Hid.
    intros Hx. split; [by apply Hfh | by apply Hc].
  - apply Forall_app; split; [done|]. constructor; [|done].
    unfold live_block_ok in *. by rewrite Hfree, Hid.
  - rewrite live_ids_app, live_ids_cons in Hd |- *. by rewrite Hfree, Hid.
Qed.

(** *** The operations *)

Lemma allocator_init_next_id st : g_next_id (allocator_init st) = g_next_id st.
Proof. unfold allocator_init. by destruct (g_head st). Qed.

Lemma allocator_init_inv st :
  heap_inv st → heap_inv (allocator_init st) ∧ tiles g_heap (g_head (allocator_init st)).
Proof.
  destruct Hplatform as (Hh & Hhs & Hg & Hend).
  unfold heap_inv. intros [Ht Hn Hf Hl Hd]. unfold allocator_init.
  destruct (g_head st) as [|b l] eqn:E.
  - cbn [g_head g_next_id].
    assert (Htiles : tiles g_heap
              [ {| self := g_heap; id := -1;
                   start := wrap64 (g_heap + sizeof_BlockHeader);
                   size := wrap64 (HEAP_SIZE - sizeof_BlockHeader);
                   requested_size := 0; free := true; cacheable := false;
                   cache_hits := 0 |} ]).
    { cbn. rewrite !wrap64_small by lia. split_and!; lia. }
    split; [|done]. constructor; [by right | done | | | ].
    + by repeat constructor.
    + by repeat constructor.
    + cbn. constructor.
  - rewrite E. split; [by constructor|]. by destruct Ht.
Qed.

Lemma align_size_nonneg size_ : 0 ≤ align_size size_.
Proof.
  unfold align_size. apply Z.land_nonneg. left. apply wrap64_range.
Qed.

(** The list after a successful [allocator_malloc]: the chosen block, at
    position [length l1], has become the allocated block [block'], followed
    by the remainder header if the block was split. *)
Lemma malloc_blocks_inv next_id l1 blk l2 S size_ :
  blocks_inv next_id (l1 ++ blk :: l2) → fits S blk → 0 ≤ S →
  ∃ block' tail,
    split_block_if_needed (l1 ++ blk :: l2) (length l1) S !! length l1
      = Some block' ∧
    let block'' :=
      {| self := self block'; id := next_id;
         start := wrap64 (self block' + sizeof_BlockHeader);
         size := size block'; requested_size := size_;
         free := false; cacheable := true; cache_hits := 0 |} in
    <[length l1 := block'']> (split_block_if_needed (l1 ++ blk :: l2) (length l1) S)
      = l1 ++ block'' :: tail ∧
    blocks_inv (next_id + 1) (l1 ++ block'' :: tail) ∧
    g_heap ≤ self block' ∧
    self block' + sizeof_BlockHeader < g_heap + HEAP_SIZE ∧
    live_ids tail = live_ids l2 ∧
    Forall (live_block_ok next_id) l1 ∧
    S ≤ size block' ∧
    self block' + sizeof_BlockHeader + size block' ≤ g_heap + HEAP_SIZE.
Proof.
  destruct Hplatform as (Hh & Hhs & Hg & Hend).
  intros [Ht Hn Hf Hl Hd] [Hfree HS] HS0.
  destruct Ht as [Ht|Ht]; [by destruct l1|].
  apply Forall_app in Hf as [Hf1 Hf2]. apply Forall_cons in Hf2 as [Hfh Hf2].
  apply Forall_app in Hl as [Hl1 Hl2]. apply Forall_cons in Hl2 as [Hlh Hl2].
  rewrite live_ids_app, live_ids_cons, Hfree in Hd.
  assert (Hl1' : Forall (live_block_ok (next_id + 1)) l1).
  { eapply Forall_impl; [exact Hl1|]. intros b. apply live_block_ok_mono. lia. }
  assert (Hl2' : Forall (live_block_ok (next_id + 1)) l2).
  { eapply Forall_impl; [exact Hl2|]. intros b. apply live_block_ok_mono. lia. }
  assert (Hfresh : ∀ l, Forall (live_block_ok next_id) l → next_id ∉ live_ids l).
  { intros l Hall Hin. apply (live_ids_bound next_id) in Hin; [lia | done]. }
  assert (Hdistinct : NoDup (live_ids l1 ++ next_id :: live_ids l2)).
  { apply NoDup_app in Hd as (Hd1 & Hd12 & Hd2).
    apply NoDup_app. split_and!; [done | | ].
    - intros x Hx [->|Hx2]%elem_of_cons; [by apply (Hfresh l1) | by apply (Hd12 x)].
    - apply NoDup_cons. split; [by apply Hfresh | done]. }
  assert (Hblk : ∀ a', tiles a' (blk :: l2) →
            g_heap ≤ self blk ∧ 0 ≤ self blk ∧ a' = self blk ∧
            self blk + sizeof_BlockHeader < g_heap + HEAP_SIZE ∧
            self blk + sizeof_BlockHeader + size blk ≤ g_heap + HEAP_SIZE).
  { intros a' (Ha & Hs & Hst & Hsz & Hlt & Ht'). apply tiles_end in Ht'. lia. }
  assert (Hhere : ∃ a', tiles a' (blk :: l2)).
  { clear -Ht. revert Ht. generalize g_heap. induction l1 as [|b l1 IH]; intros a Ht.
    - by exists a.
    - cbn in Ht. destruct Ht as (_ & _ & _ & _ & _ & Ht). by eapply IH. }
  destruct Hhere as [a0 Ha0]. destruct (Hblk a0 Ha0) as (Hb1 & Hb2 & _ & Hb3 & Hb4).
  destruct Ha0 as (_ & _ & _ & Hsz0 & _ & _).
  rewrite split_block_middle.
  rewrite (wrap64_small (size blk - S)) by lia.
  rewrite (wrap64_small (sizeof_BlockHeader + 8)) by lia.
  destruct (Z.leb_spec (size blk - S) (sizeof_BlockHeader + 8)) as [Hsmall|Hbig].
  - (* no split *)
    exists blk, l2. rewrite list_lookup_middle by done.
    split; [done|]. cbn zeta. rewrite insert_middle.
    split_and!; [done | | done | lia | done | done | done | done].
    constructor.
    + right. eapply tiles_app_suffix; [exact Ht|].
      intros a' Ha'. destruct (Hblk a' Ha') as (_ & _ & -> & _ & _).
      destruct Ha' as (? & ? & ? & ? & ? & ?). cbn.
      rewrite wrap64_small by lia. split_and!; try done; lia.
    + lia.
    + apply Forall_app; split; [done|]. constructor; [done | done].
    + apply Forall_app; split; [done|]. constructor; [|done].
      intros _. cbn. lia.
    + by rewrite live_ids_app, live_ids_cons.
  - (* split *)
    eexists _, _. rewrite list_lookup_middle by done.
    split; [done|]. cbn zeta. rewrite insert_middle. cbn [self size].
    rewrite (wrap64_small (self blk + sizeof_BlockHeader + S)) by lia.
    rewrite (wrap64_small (self blk + sizeof_BlockHeader)) by lia.
    rewrite (wrap64_small (self blk + sizeof_BlockHeader + S + sizeof_BlockHeader))
      by lia.
    rewrite (wrap64_small (size blk - S - sizeof_BlockHeader)) by lia.
    split_and!; [done | | done | lia | by rewrite live_ids_cons | done | lia | lia].
    constructor.
    + right. eapply tiles_app_suffix; [exact Ht|].
      intros a' Ha'. destruct (Hblk a' Ha') as (_ & _ & -> & _ & _).
      destruct Ha' as (? & ? & ? & ? & ? & Ht'). cbn.
      split_and!; try done; try lia.
      by replace (self blk + sizeof_BlockHeader + S + sizeof_BlockHeader +
                  (size blk - S - sizeof_BlockHeader))
        with (self blk + sizeof_BlockHeader + size blk) by lia.
    + lia.
    + apply Forall_app; split; [done|].
      constructor; [done|]. constructor; [done | done].
    + apply Forall_app; split; [done|].
      constructor; [intros _; cbn; lia|]. constructor; [done | done].
    + by rewrite live_ids_app, !live_ids_cons.
Qed.

Lemma find_block_from_middle id_ l1 b l2 : ∀ k,
  Forall (λ b', ¬ (free b' = false ∧ id b' = id_)) l1 →
  free b = false → id b = id_ →
  find_block_from id_ k (l1 ++ b :: l2) = Some ((k + length l1)%nat, b).
Proof.
  induction l1 as [|b0 l1 IH]; intros k Hall Hf Hid; cbn.
  - rewrite Hf, Hid, Z.eqb_refl. cbn. do 2 f_equal. lia.
  - inversion Hall as [|? ? Hb0 Hall']; subst.
    destruct (negb (free b0) && (id b0 =? id b)) eqn:E.
    + apply andb_true_iff in E as [Hf0%negb_true_iff He%Z.eqb_eq]. by destruct Hb0.
    + rewrite IH by done. do 2 f_equal. lia.
Qed.

(** A successful allocation, step by step. *)
Lemma malloc_success st size_ strategy i blk :
  heap_inv st → size_ ≠ 0 →
  find_fit (g_head (allocator_init st)) (align_size size_) strategy = Some (i, blk) →
  ∃ st' block',
    allocator_malloc size_ strategy st = (st', g_next_id st) ∧
    heap_inv st' ∧
    g_next_id st' = g_next_id st + 1 ∧
    g_head st' !! i = Some block' ∧
    free block' = false ∧ id block' = g_next_id st ∧
    requested_size block' = size_ ∧
    find_block_by_id (g_head st') (g_next_id st) = Some (i, block') ∧
    align_size size_ ≤ size block' ∧
    g_heap ≤ start block' ∧
    start block' + size block' ≤ g_heap + HEAP_SIZE ∧
    heap_bytes st' =
      memset (heap_bytes st) (start block') PATTERN_UNINITIALIZED (size block').
Proof.
  destruct Hplatform as (Hh & Hhs & Hg & Hend).
  intros Hinv Hsize Hfit.
  apply allocator_init_inv in Hinv as [Hinv _]. unfold heap_inv in Hinv.
  pose proof (find_fit_found (g_head (allocator_init st)) (align_size size_) strategy)
    as Hspec.
  rewrite Hfit in Hspec. destruct Hspec as (Hi & Hfits & _).
  apply list_elem_of_split_length in Hi as (l1 & l2 & Hlist & ->).
  unfold allocator_malloc. rewrite (proj2 (Z.eqb_neq size_ 0)) by done.
  rewrite Hfit, Hlist. rewrite Hlist in Hinv.
  destruct (malloc_blocks_inv _ l1 blk l2 (align_size size_) size_ Hinv Hfits
              (align_size_nonneg size_))
    as (block' & tail & Hlook & Hins & Hinv' & Hlo & Hhi & Htail & Hl1 & HS & Hend').
  rewrite Hlook. cbn zeta in Hins, Hinv'. cbn [start self id size].
  rewrite Hins.
  rewrite (wrap64_small (self block' + sizeof_BlockHeader)) in * by lia.
  rewrite (proj2 (Z.ltb_ge (self block' + sizeof_BlockHeader - g_heap) 0)) by lia.
  rewrite (proj2 (Z.leb_gt HEAP_SIZE (self block' + sizeof_BlockHeader - g_heap)))
    by lia.
  cbn [orb]. rewrite allocator_init_next_id in *.
  eexists _, _. split; [reflexivity|]. cbn [g_head g_next_id heap_bytes].
  split_and!; [done | done | by rewrite list_lookup_middle | done | done | done |
               | done | cbn; lia | cbn; lia | by rewrite heap_bytes_init].
  unfold find_block_by_id. rewrite find_block_from_middle; [done | | done | done].
  eapply Forall_impl; [exact Hl1|]. cbn. intros b Hb [Hf He].
  specialize (Hb Hf). lia.
Qed.

Lemma allocator_malloc_inv size_ strategy st :
  heap_inv st → heap_inv (allocator_malloc size_ strategy st).1.
Proof.
  intros Hinv.
  destruct (decide (size_ = 0)) as [->|Hne].
  { unfold allocator_malloc. cbn. by apply allocator_init_inv. }
  destruct (find_fit (g_head (allocator_init st)) (align_size size_) strategy)
    as [[i blk]|] eqn:Hfit.
  - destruct (malloc_success st size_ strategy i blk Hinv Hne Hfit)
      as (st' & block' & -> & Hinv' & _). done.
  - unfold allocator_malloc. rewrite (proj2 (Z.eqb_neq size_ 0)) by done.
    rewrite Hfit. cbn. by apply allocator_init_inv.
Qed.

(** Marking an allocated block free. *)
Lemma blocks_inv_release next_id l i hdr :
  blocks_inv next_id l → l !! i = Some hdr → free hdr = false →
  blocks_inv next_id
    (<[i := {| self := self hdr; id := -1; start := start hdr;
               size := size hdr; requested_size := requested_size hdr;
               free := true; cacheable := false; cache_hits := 0 |}]> l).
Proof.
  intros [Ht Hn Hf Hl Hd] Hi Hfree.
  apply list_elem_of_split_length in Hi as (l1 & l2 & -> & ->).
  rewrite insert_middle.
  apply Forall_app in Hf as [Hf1 Hf2]. apply Forall_cons in Hf2 as [Hfh Hf2].
  apply Forall_app in Hl as [Hl1 Hl2]. apply Forall_cons in Hl2 as [Hlh Hl2].
  constructor.
  - right. destruct Ht as [Ht|Ht]; [by destruct l1|].
    eapply tiles_app_suffix; [exact Ht|]. done.
  - done.
  - apply Forall_app; split; [done|]. by constructor.
  - apply Forall_app; split; [done|]. by constructor.
  - rewrite live_ids_app, live_ids_cons, Hfree in Hd.
    rewrite live_ids_app, live_ids_cons. cbn.
    apply NoDup_app in Hd as (Hd1 & Hd12 & Hd2).
    apply NoDup_cons in Hd2 as [_ Hd2].
    apply NoDup_app. split_and!; [done | | done].
    intros x Hx Hx2. apply (Hd12 x Hx). apply elem_of_cons. by right.
Qed.

Lemma allocator_free_inv id_ st : heap_inv st → heap_inv (allocator_free id_ st).
Proof.
  intros Hinv. apply allocator_init_inv in Hinv as [Hinv _].
  unfold allocator_free. destruct (id_ <? 0); [done|].
  destruct (find_block_by_id (g_head (allocator_init st)) id_) as [[i hdr]|] eqn:Hfind;
    [|done].
  apply find_block_by_id_spec in Hfind as (Hi & Hfree & _).
  unfold heap_inv. cbn [g_head g_next_id set_g_head set_heap_bytes].
  apply coalesce_free_blocks_inv. by apply blocks_inv_release.
Qed.

Lemma allocator_set_block_cacheable_inv id_ flag st :
  heap_inv st → heap_inv (allocator_set_block_cacheable id_ flag st).
Proof.
  intros Hinv. apply allocator_init_inv in Hinv as [Hinv _].
  unfold allocator_set_block_cacheable. destruct (id_ <? 0); [done|].
  destruct (find_block_by_id (g_head (allocator_init st)) id_) as [[i hdr]|] eqn:Hfind;
    [|done].
  apply find_block_by_id_spec in Hfind as (Hi & Hfree & _).
  unfold heap_inv. cbn [g_head g_next_id set_g_head].
  eapply blocks_inv_update; [done | done | done.. |]. cbn. congruence.
Qed.

Lemma allocator_access_inv id_ is_write st :
  heap_inv st → heap_inv (allocator_access id_ is_write st).
Proof.
  intros Hinv. apply allocator_init_inv in Hinv as [Hinv _].
  unfold allocator_access. destruct (id_ <? 0); [done|].
  destruct (find_block_by_id (g_head (allocator_init st)) id_) as [[i hdr]|] eqn:Hfind;
    [|done].
  apply find_block_by_id_spec in Hfind as (Hi & Hfree & _).
  destruct (negb (cacheable hdr)); [done|].
  unfold heap_inv. cbn [g_head g_next_id set_g_head set_g_cache].
  eapply blocks_inv_update; [done | done | done.. |]. cbn. congruence.
Qed.

(** Reads and writes leave the block list and the id counter alone. *)
Lemma allocator_read_blocks id_ offset dst size_ st :
  g_head (allocator_read id_ offset dst size_ st).1.1 = g_head (allocator_init st) ∧
  g_next_id (allocator_read id_ offset dst size_ st).1.1 = g_next_id (allocator_init st).
Proof.
  unfold allocator_read.
  destruct dst as [dst_bytes|]; [|done].
  destruct ((id_ <? 0) || (size_ =? 0)); [done|].
  destruct (find_block_by_id _ _) as [[i hdr]|]; [|done].
  destruct (free hdr); [done|].
  destruct (requested_size hdr <? wrap64 (offset + size_)); [done|].
  by destruct (read_loop _ _ _ _ _ _ _) as [[cache out] g].
Qed.

Lemma allocator_write_blocks id_ offset src size_ st :
  g_head (allocator_write id_ offset src size_ st).1 = g_head (allocator_init st) ∧
  g_next_id (allocator_write id_ offset src size_ st).1 = g_next_id (allocator_init st).
Proof.
  unfold allocator_write.
  destruct src as [src_bytes|]; [|done].
  destruct ((id_ <? 0) || (size_ =? 0)); [done|].
  destruct (find_block_by_id _ _) as [[i hdr]|]; [|done].
  destruct (free hdr); [done|].
  destruct (requested_size hdr <? wrap64 (offset + size_)); [done|].
  by destruct (write_loop _ _ _ _ _ _) as [cache m].
Qed.

Lemma run_op_inv st op : heap_inv st → heap_inv (run_op st op).
Proof.
  intros Hinv. destruct op; cbn [run_op]; try done.
  - by apply allocator_malloc_inv.
  - by apply allocator_malloc_inv.
  - by apply allocator_free_inv.
  - by apply allocator_set_block_cacheable_inv.
  - by apply allocator_access_inv.
  - apply allocator_init_inv in Hinv as [Hinv _]. unfold heap_inv in *.
    by destruct (allocator_read_blocks id_ offset dst size_ st) as [-> ->].
  - apply allocator_init_inv in Hinv as [Hinv _]. unfold heap_inv in *.
    by destruct (allocator_write_blocks id_ offset src size_ st) as [-> ->].
Qed.

Lemma initial_globals_inv : heap_inv initial_globals.
Proof. constructor; cbn; [by left | done | done | done | constructor]. Qed.

(** Every state the program reaches satisfies the invariant. *)
Lemma reachable_inv st : reachable st → heap_inv st.
Proof.
  induction 1 as [|st op _ IH _]; [apply initial_globals_inv | by apply run_op_inv].
Qed.

End InvariantFacts.

(** ** Where the size arithmetic does not wrap *)

Section InRange.
Context `{!Platform}.
Hypothesis Hplatform : platform_ok.

Lemma land_align_mask x k :
  0 ≤ k < 64 → 0 ≤ x < 2 ^ 64 →
  Z.land x (wrap64 (Z.lnot (2 ^ k - 1))) = x - x mod 2 ^ k.
Proof.
  intros Hk Hx.
  assert (Hpow : 0 < 2 ^ k) by (apply Z.pow_pos_nonneg; lia).
  assert (Hle : 2 ^ k ≤ 2 ^ 64) by (apply Z.pow_le_mono_r; lia).
  assert (Hmask : wrap64 (Z.lnot (2 ^ k - 1)) = Z.shiftl (Z.ones (64 - k)) k).
  { unfold wrap64.
    replace (Z.lnot (2 ^ k - 1)) with (2 ^ 64 - 2 ^ k + (-1) * 2 ^ 64)
      by (unfold Z.lnot; lia).
    rewrite Z.mod_add by lia. rewrite Z.mod_small by lia.
    rewrite Z.shiftl_mul_pow2 by lia. rewrite Z.ones_equiv, Z.mul_pred_l.
    rewrite <- Z.pow_add_r by lia. replace (64 - k + k) with 64 by lia. done. }
  rewrite Hmask.
  replace (x - x mod 2 ^ k) with (Z.shiftl (Z.shiftr x k) k).
  2:{ rewrite Z.shiftl_mul_pow2, Z.shiftr_div_pow2 by lia.
      pose proof (Z.div_mod x (2 ^ k) ltac:(lia)). lia. }
  apply Z.bits_inj'. intros n Hn.
  rewrite Z.land_spec.
  destruct (decide (n < k)) as [Hlt|Hge].
  - rewrite !Z.shiftl_spec_low by lia. apply andb_false_r.
  - rewrite !Z.shiftl_spec by lia. rewrite Z.shiftr_spec by lia.
    replace (n - k + k) with n by lia.
    destruct (decide (n < 64)) as [Hlt|Hge'].
    + rewrite Z.ones_spec_low by lia. apply andb_true_r.
    + rewrite Z.ones_spec_high by lia. rewrite andb_false_r.
      symmetry. apply Z.bits_above_log2; [lia|].
      destruct (decide (x = 0)) as [->|Hx0]; [cbn; lia|].
      apply Z.log2_lt_pow2; [lia|].
      assert (2 ^ 64 ≤ 2 ^ n) by (apply Z.pow_le_mono_r; lia). lia.
Qed.

(** Rounding up does round up, as long as [size_ + align - 1] fits. *)
Lemma align_size_ge size_ :
  alignment_ok → 0 ≤ size_ → size_ + alignof_max_align_t - 1 < 2 ^ 64 →
  size_ ≤ align_size size_.
Proof.
  intros (k & Hk & Halign) Hs Hfit. unfold align_size. rewrite Halign in *.
  assert (Hpow : 0 < 2 ^ k) by (apply Z.pow_pos_nonneg; lia).
  rewrite (wrap64_small (size_ + 2 ^ k - 1)) by lia.
  rewrite land_align_mask by lia.
  pose proof (Z.mod_pos_bound (size_ + 2 ^ k - 1) (2 ^ k) Hpow). lia.
Qed.

Lemma allocator_init_nonempty st : g_head st ≠ [] → allocator_init st = st.
Proof. unfold allocator_init. by destruct (g_head st). Qed.

(** Poisoning, where the code keeps it: when rounding the size up does not
    wrap, a successful allocation leaves 0xCD in every byte of the payload,
    the payload covers the requested size, and a read of any range inside
    [0, requested_size) that follows directly returns false and fills the
    destination with 0xCD. *)
Lemma allocator_malloc_poisons st size_ strategy st' r :
  alignment_ok → reachable st →
  0 < size_ → size_ + alignof_max_align_t - 1 < 2 ^ 64 →
  allocator_malloc size_ strategy st = (st', r) → r ≠ -1 →
  ∃ i block',
    find_block_by_id (g_head st') r = Some (i, block') ∧
    requested_size block' = size_ ∧ size_ ≤ size block' ∧
    (∀ a, start block' ≤ a < start block' + size block' →
          heap_bytes st' a = PATTERN_UNINITIALIZED) ∧
    ∀ offset n dst_bytes,
      0 ≤ offset → 0 < n → offset + n ≤ size_ →
      n ≤ Z.of_nat (length dst_bytes) →
      ∃ st'' out,
        allocator_read r offset (Some dst_bytes) n st' = (st'', Some out, false) ∧
        ∀ k, 0 ≤ k < n → out !! Z.to_nat k = Some PATTERN_UNINITIALIZED.
Proof.
  destruct Hplatform as (Hh & Hhs & Hg & Hend).
  intros Halign Hreach Hsize Hfit Hcall Hr.
  pose proof (reachable_inv Hplatform st Hreach) as Hinv.
  assert (Halgn : size_ ≤ align_size size_) by (apply align_size_ge; [done | lia..]).
  destruct (find_fit (g_head (allocator_init st)) (align_size size_) strategy)
    as [[i blk]|] eqn:Hfind.
  2:{ unfold allocator_malloc in Hcall.
      rewrite (proj2 (Z.eqb_neq size_ 0)), Hfind in Hcall by lia.
      by injection Hcall as _ <-. }
  destruct (malloc_success Hplatform st size_ strategy i blk Hinv ltac:(lia) Hfind)
    as (st0 & block' & Hcall' & Hinv' & Hnext & Hi & Hfree & Hid & Hreq & Hlook
        & Hsz & Hlo & Hhi & Hbytes).
  rewrite Hcall' in Hcall. injection Hcall as <- <-.
  assert (Hpoison : ∀ a, start block' ≤ a < start block' + size block' →
                         heap_bytes st0 a = PATTERN_UNINITIALIZED).
  { intros a Ha. rewrite Hbytes. unfold memset.
    rewrite (proj2 (Z.leb_le _ _)), (proj2 (Z.ltb_lt _ _)) by lia. done. }
  exists i, block'. split_and!; [done | done | lia | done |].
  intros offset n dst_bytes Hoff Hn Hrange Hdst.
  assert (Hinit : allocator_init st0 = st0).
  { apply allocator_init_nonempty. intros Hnil. by rewrite Hnil in Hi. }
  rewrite (allocator_read_accepted st0 (g_next_id st) offset dst_bytes n i block');
    [| by rewrite Hinit | by destruct Hinv | lia..].
  destruct (read_loop_spec (heap_bytes st0)
              (wrap64 (start block' + offset)) (Z.to_nat n) 0
              (g_cache (allocator_init st0)) dst_bytes false)
    as (cache' & out & g' & -> & _ & Hcopy & _ & Hflag); [lia | lia |].
  assert (Hsrc : ∀ k, 0 ≤ k < n →
            heap_bytes st0 (wrap64 (wrap64 (start block' + offset) + k))
            = PATTERN_UNINITIALIZED).
  { intros k Hk. rewrite wrap64_add_l, wrap64_small by lia. apply Hpoison. lia. }
  eexists _, out. split.
  - destruct g'; [done|].
    destruct (proj1 Hflag eq_refl) as [_ Hclean].
    specialize (Hclean 0 ltac:(lia)). by rewrite Hsrc in Hclean by lia.
  - intros k Hk. rewrite Hcopy by lia. by rewrite Hsrc.
Qed.

(** Rejection, where the code keeps it: a call with a negative id, a null
    buffer, a zero size, an id that no allocated block carries, or a range
    whose end, reduced modulo 2^64, lies beyond the requested size returns
    false and leaves the bytes of memory and the buffer as they were. *)
Lemma allocator_read_rejects id_ offset dst size_ st :
  id_ < 0 ∨ dst = None ∨ size_ = 0 ∨
  find_block_by_id (g_head (allocator_init st)) id_ = None ∨
  (∃ i hdr, find_block_by_id (g_head (allocator_init st)) id_ = Some (i, hdr) ∧
            requested_size hdr < wrap64 (offset + size_)) →
  allocator_read id_ offset dst size_ st = (allocator_init st, dst, false) ∧
  heap_bytes (allocator_init st) = heap_bytes st.
Proof.
  intros Hcase. split; [|apply heap_bytes_init].
  unfold allocator_read. destruct dst as [dst_bytes|]; [|done].
  destruct (Z.ltb_spec id_ 0); [done|].
  destruct (Z.eqb_spec size_ 0); [done|]. cbn [orb].
  destruct Hcase as [?|[?|[?|[->|(i & hdr & -> & Hreq)]]]]; [lia | done | done | done |].
  destruct (free hdr); [done|].
  by rewrite (proj2 (Z.ltb_lt _ _) Hreq).
Qed.

Lemma allocator_write_rejects id_ offset src size_ st :
  id_ < 0 ∨ src = None ∨ size_ = 0 ∨
  find_block_by_id (g_head (allocator_init st)) id_ = None ∨
  (∃ i hdr, find_block_by_id (g_head (allocator_init st)) id_ = Some (i, hdr) ∧
            requested_size hdr < wrap64 (offset + size_)) →
  allocator_write id_ offset src size_ st = (allocator_init st, false) ∧
  heap_bytes (allocator_init st) = heap_bytes st.
Proof.
  intros Hcase. split; [|apply heap_bytes_init].
  unfold allocator_write. destruct src as [src_bytes|]; [|done].
  destruct (Z.ltb_spec id_ 0); [done|].
  destruct (Z.eqb_spec size_ 0); [done|]. cbn [orb].
  destruct Hcase as [?|[?|[?|[->|(i & hdr & -> & Hreq)]]]]; [lia | done | done | done |].
  destruct (free hdr); [done|].
  by rewrite (proj2 (Z.ltb_lt _ _) Hreq).
Qed.

(** A write whose range does not wrap is admitted whenever the payload of
    the block it names covers the requested size. *)
Lemma write_admissible st id_ offset src size_ :
  size_t offset → size_t size_ → offset + size_ < 2 ^ 64 →
  (∀ i hdr, find_block_by_id (g_head (allocator_init st)) id_ = Some (i, hdr) →
            requested_size hdr ≤ size hdr) →
  admissible st (Write id_ offset src size_).
Proof.
  intros Hoff Hsz Hsum Hcover. cbn. split; [done|]. split; [done|].
  intros i hdr Hacc Hfind. specialize (Hcover i hdr Hfind).
  unfold allocator_write in Hacc. rewrite Hfind in Hacc.
  destruct src as [src_bytes|]; [|done].
  destruct ((id_ <? 0) || (size_ =? 0)); [done|].
  destruct (free hdr); [done|].
  destruct (Z.ltb_spec (requested_size hdr) (wrap64 (offset + size_))) as [|Hle];
    [done|].
  rewrite wrap64_small in Hle by (unfold size_t in *; lia). lia.
Qed.

End InRange.

(** ** The cache levels of a reachable state *)

Section CacheInvariant.
Context `{!Platform}.

Lemma set_m_stats_wf lvl s : level_wf lvl → level_wf (set_m_stats lvl s).
Proof. done. Qed.

Lemma walk_wf addr ts lvls : ∀ i pen recs,
  Forall level_wf lvls →
  Forall level_wf (w_levels (MultiLevelCache.walk addr ts i lvls pen recs)).
Proof.
  induction lvls as [|lvl rest IH]; intros i pen recs Hall; [done|].
  inversion Hall as [|? ? Hlvl Hrest]; subst.
  cbn [MultiLevelCache.walk]. rewrite access_set_m_stats.
  pose proof (access_wf addr ts lvl Hlvl) as Hacc.
  destruct (CacheLevel.access addr ts lvl) as [[] lvl']; cbn in *.
  - by constructor.
  - constructor; [done|]. by apply IH.
Qed.

Lemma foldl_alter_Forall {A B} (P : A → Prop) (f : B → A → A) (g : B → nat)
      (xs : list B) : ∀ l,
  (∀ b x, P x → P (f b x)) → Forall P l →
  Forall P (foldl (λ l b, alter (f b) (g b) l) l xs).
Proof.
  induction xs as [|b xs IH]; intros l Hf Hall; [done|].
  cbn. apply IH; [done|].
  apply Forall_lookup. intros j x. rewrite list_lookup_alter.
  rewrite Forall_lookup in Hall. case_decide; subst.
  - destruct (l !! g b) as [y|] eqn:E; [|done]. intros [= <-].
    apply Hf. by eapply Hall.
  - apply Hall.
Qed.

Lemma fill_wf addr ts fill_upto lvls :
  Forall level_wf lvls → Forall level_wf (MultiLevelCache.fill addr ts fill_upto lvls).
Proof.
  intros Hall. unfold MultiLevelCache.fill.
  apply (foldl_alter_Forall level_wf (λ _, CacheLevel.insert addr ts) (λ i, i));
    [|done].
  intros _ lvl. apply insert_wf.
Qed.

Lemma attribute_wf tp recs : ∀ lvls,
  Forall level_wf lvls → Forall level_wf (MultiLevelCache.attribute tp recs lvls).
Proof.
  unfold MultiLevelCache.attribute.
  induction recs as [|r recs IH]; intros lvls Hall; [done|]. cbn.
  apply IH. case_match; [|done].
  apply Forall_lookup. intros j x. rewrite list_lookup_alter.
  rewrite Forall_lookup in Hall. case_decide; subst.
  - destruct (lvls !! _) as [y|] eqn:E; [|done]. intros [= <-].
    apply set_m_stats_wf. by eapply Hall.
  - apply Hall.
Qed.

Lemma cache_access_wf addr is_write c :
  Forall level_wf (m_levels c) →
  Forall level_wf (m_levels (cache_access addr is_write c)).
Proof.
  intros Hall. unfold cache_access, MultiLevelCache.access.
  destruct (m_levels c) as [|l0 rest] eqn:E; [by rewrite E|].
  cbn [m_levels]. apply attribute_wf, fill_wf, walk_wf. done.
Qed.

Lemma cache_init_default_wf c : Forall level_wf (m_levels (cache_init_default c)).
Proof.
  change (m_levels (cache_init_default c))
    with [CacheLevel.make (4 * 1024) 64 4 1 0; CacheLevel.make (32 * 1024) 64 8 8 1].
  apply Forall_cons. split; [apply make_wf; lia|].
  apply Forall_cons. split; [apply make_wf; lia|]. constructor.
Qed.

Lemma read_loop_wf m p k : ∀ i cache dst g,
  Forall level_wf (m_levels cache) →
  Forall level_wf (m_levels (read_loop m p k i cache dst g).1.1).
Proof.
  induction k as [|k IH]; intros i cache dst g Hall; [done|].
  cbn [read_loop]. apply IH. by apply cache_access_wf.
Qed.

Lemma write_loop_wf src p k : ∀ i cache m,
  Forall level_wf (m_levels cache) →
  Forall level_wf (m_levels (write_loop src p k i cache m).1).
Proof.
  induction k as [|k IH]; intros i cache m Hall; [done|].
  cbn [write_loop]. apply IH. by apply cache_access_wf.
Qed.

Lemma allocator_init_cache_wf st : cache_wf st → cache_wf (allocator_init st).
Proof.
  unfold cache_wf, allocator_init. intros Hwf.
  destruct (g_head st); [|done]. cbn [g_cache].
  destruct (g_cache_initialized st); [done | apply cache_init_default_wf].
Qed.

Lemma run_op_cache_wf st op :
  admissible st op → cache_wf st → cache_wf (run_op st op).
Proof.
  intros Hadm Hwf. pose proof (allocator_init_cache_wf st Hwf) as Hinit.
  destruct op; cbn [run_op].
  - unfold allocator_malloc. repeat case_match; done.
  - unfold allocator_malloc_default, allocator_malloc. repeat case_match; done.
  - done.
  - unfold allocator_free. repeat case_match; done.
  - unfold allocator_set_block_cacheable. repeat case_match; done.
  - unfold allocator_access. repeat case_match; try done.
    unfold cache_wf. cbn [g_cache set_g_head set_g_cache].
    by apply cache_access_wf.
  - unfold allocator_read. repeat case_match; try done; subst.
    unfold cache_wf. cbn [g_cache set_g_cache fst].
    match goal with
    | Hl : read_loop ?m ?p ?k ?i ?c ?d ?g = _ |- _ =>
        pose proof (read_loop_wf m p k i c d g Hinit) as Hloop;
        rewrite Hl in Hloop
    end.
    done.
  - unfold allocator_write. repeat case_match; try done; subst.
    unfold cache_wf. cbn [g_cache set_g_cache set_heap_bytes fst].
    match goal with
    | Hl : write_loop ?s ?p ?k ?i ?c ?m = _ |- _ =>
        pose proof (write_loop_wf s p k i c m Hinit) as Hloop;
        rewrite Hl in Hloop
    end.
    done.
  - apply cache_init_default_wf.
  - unfold cache_wf. cbn. constructor.
  - unfold cache_wf. cbn [g_cache set_g_cache].
    destruct Hadm as ([? ?] & [? ?] & [? ?] & _).
    unfold cache_add_level, MultiLevelCache.add_level.
    cbn [m_levels MultiLevelCache.set_m_levels].
    apply Forall_app. split; [done|].
    apply Forall_cons. split; [by apply make_wf | constructor].
  - unfold cache_wf. cbn [g_cache set_g_cache].
    destruct Hadm as (_ & [? ?] & [? ?] & [? ?] & _).
    unfold cache_configure_level, MultiLevelCache.configure_level.
    case_match; [done|]. cbn [m_levels MultiLevelCache.set_m_levels].
    apply Forall_insert; [done|]. by apply make_wf.
  - done.
Qed.

(** Every cache level of a reachable state has at least one set and no
    empty set, so a lookup that follows an insert hits on it. *)
Lemma reachable_cache_wf st : reachable st → cache_wf st.
Proof.
  induction 1 as [|st op _ IH Hadm]; [constructor | by apply run_op_cache_wf].
Qed.

End CacheInvariant.

(** ** Allocation hands out fresh ids *)

(** C9.  In a state the program can reach, with the id counter below
    [INT_MAX], a call [allocate(size, strategy)] with [size > 0] whose search
    finds a block: the value returned is the value the counter had, the
    counter has grown by exactly one, the chosen block is now allocated under
    that id and is the block a lookup of that id finds, the id is
    non-negative, and the ids of the allocated blocks are pairwise distinct
    before and after the call. *)
Theorem allocator_malloc_fresh_id `{!Platform} st size_ strategy i blk :
  platform_ok → reachable st →
  0 < size_ → g_next_id st < INT_MAX →
  find_fit (g_head (allocator_init st)) (align_size size_) strategy = Some (i, blk) →
  ∃ st' block',
    allocator_malloc size_ strategy st = (st', g_next_id st) ∧
    g_next_id st' = g_next_id st + 1 ∧
    g_head st' !! i = Some block' ∧
    free block' = false ∧ id block' = g_next_id st ∧
    find_block_by_id (g_head st') (g_next_id st) = Some (i, block') ∧
    0 ≤ g_next_id st ∧ g_next_id st' ≤ INT_MAX ∧
    NoDup (live_ids (g_head st)) ∧ NoDup (live_ids (g_head st')).
Proof.
  intros Hok Hreach Hsize Hmax Hfit.
  pose proof (reachable_inv Hok st Hreach) as Hinv.
  destruct (malloc_success Hok st size_ strategy i blk Hinv ltac:(lia) Hfit)
    as (st' & block' & Hcall & Hinv' & Hnext & Hi & Hfree & Hid & _ & Hfind & _).
  exists st', block'.
  split_and!; try done.
  - by destruct Hinv.
  - lia.
  - by destruct Hinv.
  - by destruct Hinv'.
Qed.

Lemma allocator_malloc_fresh_id_witness :
  let st := @run lp64 [Malloc 100 First; Write 0 0 (Some [104; 105]) 2]
              initial_globals in
  ∃ st' block',
    @allocator_malloc lp64 200 Best st = (st', 1) ∧
    g_next_id st' = 1 + 1 ∧
    g_head st' !! 1%nat = Some block' ∧
    free block' = false ∧ id block' = 1 ∧
    @find_block_by_id (g_head st') 1 = Some (1%nat, block') ∧
    0 ≤ 1 ∧ g_next_id st' ≤ INT_MAX ∧
    NoDup (live_ids (g_head st)) ∧ NoDup (live_ids (g_head st')).
Proof.
  intros st.
  apply (@allocator_malloc_fresh_id lp64 st 200 Best 1%nat
           {| self := 4264; id := -1; start := 4320; size := 65312;
              requested_size := 0; free := true; cacheable := false;
              cache_hits := 0 |}).
  - unfold platform_ok. cbn. lia.
  - apply (@reachable_step lp64
             (@run_op lp64 initial_globals (Malloc 100 First))
             (Write 0 0 (Some [104; 105]) 2)).
    + apply (@reachable_step lp64 initial_globals (Malloc 100 First));
        [constructor | cbn; unfold size_t; lia].
    + cbn. unfold size_t. split; [lia|]. split; [lia|].
      intros i hdr _ Hfind. vm_compute in Hfind.
      injection Hfind as <- <-. cbn. lia.
  - lia.
  - vm_compute. reflexivity.
  - vm_compute. reflexivity.
Defined.

(** Every free block of a reachable state has id -1 and is not cacheable. *)
Lemma reachable_free_blocks `{!Platform} st b :
  platform_ok → reachable st → b ∈ g_head st → free b = true →
  id b = -1 ∧ cacheable b = false.
Proof.
  intros Hok Hreach Hb Hfree.
  destruct (reachable_inv Hok st Hreach) as [_ _ Hf _ _].
  rewrite Forall_forall in Hf. by apply Hf.
Qed.

(** ** Runs on the x86-64 instance *)

Lemma allocator_read_spec_witness :
  let st := @run lp64 [Malloc 5 First; Write 0 0 (Some [104; 101; 108; 108; 111]) 5]
              initial_globals in
  ∃ st' out ok,
    @allocator_read lp64 0 0 (Some [0; 0; 0; 0; 0]) 5 st = (st', Some out, ok) ∧
    length out = 5%nat ∧
    (∀ k, 0 ≤ k < 5 →
          out !! Z.to_nat k = Some (heap_bytes st (wrap64 (4152 + 0 + k)))) ∧
    (ok = true ↔
     ∀ k, 0 ≤ k < 5 →
          heap_bytes st (wrap64 (4152 + 0 + k)) ≠ PATTERN_UNINITIALIZED ∧
          heap_bytes st (wrap64 (4152 + 0 + k)) ≠ PATTERN_FREED).
Proof.
  intros st.
  apply (@allocator_read_spec lp64 st 0 0 [0; 0; 0; 0; 0] 5 0%nat
           {| self := 4096; id := 0; start := 4152; size := 16;
              requested_size := 5; free := false; cacheable := true;
              cache_hits := 0 |}).
  - vm_compute. reflexivity.
  - lia.
  - lia.
  - lia.
  - cbn. lia.
  - cbn. lia.
  - cbn. lia.
Defined.

Lemma allocator_write_spec_witness :
  let st := @run lp64 [Malloc 5 First] initial_globals in
  ∃ st',
    @allocator_write lp64 0 0 (Some [104; 101; 108; 108; 111]) 5 st = (st', true) ∧
    ∀ k, 0 ≤ k < 5 →
         [104; 101; 108; 108; 111] !! Z.to_nat k =
         Some (heap_bytes st' (wrap64 (4152 + 0 + k))).
Proof.
  intros st.
  apply (@allocator_write_spec lp64 st 0 0 [104; 101; 108; 108; 111] 5 0%nat
           {| self := 4096; id := 0; start := 4152; size := 16;
              requested_size := 5; free := false; cacheable := true;
              cache_hits := 0 |}).
  - vm_compute. reflexivity.
  - lia.
  - lia.
  - lia.
  - cbn. lia.
  - cbn. lia.
  - cbn. lia.
Defined.

(** C1.  [allocate(100); allocate(200); free(0)]: the block that was freed
    lies between the heap start and an allocated block, so no merge touches
    it; it is free with id -1 and not cacheable, and its requested size is
    still the 100 of the allocation. *)
Theorem free_keeps_requested_size :
  let st := @run lp64 [Malloc 100 First; Malloc 200 First; Free 0] initial_globals in
  ∃ b, g_head st !! 0%nat = Some b ∧
       free b = true ∧ id b = -1 ∧ cacheable b = false ∧
       requested_size b = 100.
Proof. vm_compute. eexists. split_and!; reflexivity. Qed.

(** C3.  [allocate(16)] then [write(0, 2^64 - 1, "ab", 2)]: the range ends at
    [2^64 + 1], far beyond the requested 16 bytes, but the sum the code
    compares is [(2^64 - 1 + 2) mod 2^64 = 1]; the call returns true and the
    first byte of the block, 0xCD before, is overwritten with the second
    source byte. *)
Theorem write_offset_overflow_accepted :
  let st := @run lp64 [Malloc 16 First] initial_globals in
  let r := @allocator_write lp64 0 (2 ^ 64 - 1) (Some [97; 98]) 2 st in
  (∃ hdr, @find_block_by_id (g_head st) 0 = Some (0%nat, hdr) ∧
          requested_size hdr = 16 ∧ start hdr = 4152) ∧
  requested_size_exceeded (2 ^ 64 - 1) 2 16 ∧
  r.2 = true ∧
  heap_bytes st 4152 = PATTERN_UNINITIALIZED ∧
  heap_bytes r.1 4152 = 98.
Proof. vm_compute. split_and!; try reflexivity. by eexists. Qed.

(** C7.  [allocate(2^64 - 1)] on the fresh heap: rounding the size up wraps
    to 0, the search accepts the first free block, the split leaves the new
    block a payload of 0 bytes under a requested size of [2^64 - 1], and the
    poisoning covers no byte.  The call succeeds with id 0; the byte at
    offset 56 of the block was never written, and reading it returns true
    with the byte 0 in the destination. *)
Theorem malloc_align_overflow_unpoisoned :
  let r := @allocator_malloc lp64 (2 ^ 64 - 1) First initial_globals in
  r.2 = 0 ∧
  (∃ hdr, @find_block_by_id (g_head r.1) 0 = Some (0%nat, hdr) ∧
          size hdr = 0 ∧ requested_size hdr = 2 ^ 64 - 1 ∧ start hdr = 4152) ∧
  heap_bytes r.1 (4152 + 56) = 0 ∧
  (@allocator_read lp64 0 56 (Some [7]) 1 r.1).1.2 = Some [0] ∧
  (@allocator_read lp64 0 56 (Some [7]) 1 r.1).2 = true.
Proof. vm_compute. split_and!; try reflexivity. by eexists. Qed.

(** * Further properties *)

(** ** The cache level: construction, lookup and replacement *)

Section CacheLevelMore.
Import CacheLevel.

Lemma touch_line_all_invalid tg ts set :
  Forall (λ line, valid line = false) set → touch_line tg ts set = None.
Proof.
  induction 1 as [|line rest Hline _ IH]; [done|].
  cbn. by rewrite Hline, IH.
Qed.

Lemma lookup_total_replicate_rows (n a : nat) (i : nat) :
  Forall (λ line, valid line = false)
         (replicate n (replicate a CacheLine_default) !!! i).
Proof.
  rewrite list_lookup_total_alt.
  destruct (replicate n (replicate a CacheLine_default) !! i) as [row|] eqn:E.
  - apply lookup_replicate in E as [-> _]. cbn.
    apply Forall_forall. by intros line [-> _]%elem_of_replicate.
  - cbn. constructor.
Qed.

(** X1.  What the constructor leaves for arguments in the range of
    [std::size_t]: block size, associativity, number of sets and latency are
    at least 1, sets times ways do not exceed the number of lines
    [max 1 (size_bytes / block_size)], [m_sets] has [m_num_sets] rows of
    [m_associativity] lines each, the statistics are zero, and a lookup of
    any address at any time misses (every line starts invalid). *)
Theorem make_normalises size_bytes block_size associativity latency level_index :
  0 ≤ size_bytes → 0 ≤ block_size → 0 ≤ associativity → 0 ≤ latency →
  let lvl := make size_bytes block_size associativity latency level_index in
  1 ≤ m_block_size lvl ∧ 1 ≤ m_associativity lvl ∧
  1 ≤ m_num_sets lvl ∧ 1 ≤ m_latency lvl ∧
  m_num_sets lvl * m_associativity lvl
    ≤ Z.max 1 (size_bytes / m_block_size lvl) ∧
  length (m_sets lvl) = Z.to_nat (m_num_sets lvl) ∧
  Forall (λ row, length row = Z.to_nat (m_associativity lvl)) (m_sets lvl) ∧
  m_stats lvl = CacheLevelStats_default ∧
  ∀ addr timestamp, (access addr timestamp lvl).1 = false.
Proof.
  intros Hs Hb Ha Hl lvl. subst lvl. unfold make.
  set (bs := if (if block_size =? 0 then 1 else block_size) =? 0 then 1
             else (if block_size =? 0 then 1 else block_size)).
  assert (0 < bs) by (subst bs; repeat case_match; lia).
  set (nl := if size_bytes / bs =? 0 then 1 else size_bytes / bs).
  assert (Hnl : nl = Z.max 1 (size_bytes / bs)).
  { subst nl. pose proof (Z.div_pos size_bytes bs Hs ltac:(lia)).
    destruct (Z.eqb_spec (size_bytes / bs) 0); lia. }
  assert (0 < nl) by lia.
  set (as0 := if (if associativity =? 0 then 1 else associativity) =? 0 then 1
              else (if associativity =? 0 then 1 else associativity)).
  assert (0 < as0) by (subst as0; repeat case_match; lia).
  set (as1 := if nl <? as0 then nl else as0).
  assert (0 < as1 ≤ nl) by (subst as1; case_match; lia).
  assert (0 < nl / as1) by (apply Z.div_str_pos; lia).
  assert (nl / as1 * as1 ≤ nl) by (rewrite Z.mul_comm; apply Z.mul_div_le; lia).
  destruct (nl / as1 =? 0) eqn:E; [lia|].
  cbn [m_block_size m_associativity m_num_sets m_latency m_sets m_stats].
  rewrite length_replicate, <- Hnl.
  split_and!; try lia; try done.
  - destruct (Z.eqb_spec latency 0); lia.
  - apply Forall_forall. intros row [-> _]%elem_of_replicate.
    by rewrite length_replicate.
  - intros addr timestamp. unfold access.
    destruct (compute_index_tag _ addr) as [set_idx tg]. cbn [m_sets].
    by rewrite touch_line_all_invalid by apply lookup_total_replicate_rows.
Qed.

Lemma make_normalises_witness :
  (0 ≤ 4096 ∧ 0 ≤ 64 ∧ 0 ≤ 4 ∧ 0 ≤ 0) ∧
  m_num_sets (make 4096 64 4 0 0) * m_associativity (make 4096 64 4 0 0)
    ≤ Z.max 1 (4096 / m_block_size (make 4096 64 4 0 0)).
Proof.
  split; [lia|].
  exact (proj1 (proj2 (proj2 (proj2 (proj2
           (make_normalises 4096 64 4 0 0
              ltac:(lia) ltac:(lia) ltac:(lia) ltac:(lia))))))).
Defined.

(** A touched set has the same valid bits and tags, way by way. *)
Lemma touch_line_same_tags tg ts set set' :
  touch_line tg ts set = Some set' →
  ∀ tg' ts', is_Some (touch_line tg' ts' set') ↔ is_Some (touch_line tg' ts' set).
Proof.
  revert set'. induction set as [|l0 rest IH]; intros set'; cbn; [done|].
  destruct (valid l0 && (tag l0 =? tg)) eqn:E.
  - intros [= <-] tg' ts'. cbn.
    destruct (valid l0 && (tag l0 =? tg'));
      [by split; eexists | by rewrite !fmap_is_Some].
  - destruct (touch_line tg ts rest) as [r|] eqn:Er; [|done].
    intros [= <-] tg' ts'. cbn.
    destruct (valid l0 && (tag l0 =? tg')); [by split; eexists|].
    specialize (IH r eq_refl tg' ts').
    rewrite !fmap_is_Some. done.
Qed.

Lemma access_hit_iff addr ts lvl :
  (access addr ts lvl).1 = true ↔
  is_Some (touch_line (compute_index_tag lvl addr).2 ts
             (m_sets lvl !!! Z.to_nat (compute_index_tag lvl addr).1)).
Proof.
  unfold access. destruct (compute_index_tag lvl addr) as [set_idx tg]. cbn.
  destruct (touch_line tg ts _); cbn; split; try done; try (by eexists);
    by intros [? ?].
Qed.

(** X2.  A lookup never changes what is cached: whatever address [a] was
    looked up at whatever time, a lookup of any address [b] afterwards hits
    exactly when it would have hit before. *)
Theorem access_keeps_contents lvl a t b t' :
  (access b t' (access a t lvl).2).1 = (access b t' lvl).1.
Proof.
  destruct (access a t lvl) as [h lvl'] eqn:Hacc. cbn [snd].
  unfold access in Hacc. destruct (compute_index_tag lvl a) as [ia tga] eqn:Ha.
  destruct (touch_line tga t (m_sets lvl !!! Z.to_nat ia)) as [set'|] eqn:Et;
    injection Hacc as <- <-; [|done].
  apply eq_true_iff_eq. rewrite !access_hit_iff.
  rewrite compute_index_tag_set_m_sets. cbn [m_sets set_m_sets].
  destruct (compute_index_tag lvl b) as [ib tgb]. cbn [fst snd].
  destruct (decide (Z.to_nat ia = Z.to_nat ib)) as [Heq|Hne].
  - rewrite <- Heq.
    destruct (decide (Z.to_nat ia < length (m_sets lvl))%nat) as [Hlt|Hge].
    + rewrite list_lookup_total_insert_eq by done.
      by apply touch_line_same_tags with tga t.
    + by rewrite list_insert_ge by lia.
  - by rewrite list_lookup_total_insert_ne.
Qed.

(** The victim loop over the indices up to [m]. *)
Lemma victim_prefix set m :
  (m < length set)%nat →
  let v := foldl (victim_step set) 0%nat (seq 1 m) in
  (v ≤ m)%nat ∧
  ∀ i, (i ≤ m)%nat →
       victim_le (set !!! v) (set !!! i) ∧
       ((i < v)%nat → victim_lt (set !!! v) (set !!! i)).
Proof.
  induction m as [|m IH]; intros Hm.
  - cbn. split; [lia|]. intros i Hi. assert (i = 0%nat) as -> by lia.
    split; [right; lia | lia].
  - rewrite seq_S, foldl_app. cbn [foldl Nat.add].
    destruct (IH ltac:(lia)) as [Hv Hmin].
    set (v := foldl (victim_step set) 0%nat (seq 1 m)) in *.
    unfold victim_step.
    destruct (Z.ltb_spec (freq (set !!! S m)) (freq (set !!! v))) as [Hlt|Hge].
    { split; [lia|]. intros i Hi.
      destruct (decide (i = S m)) as [->|Hne]; [split; [right; lia | lia]|].
      destruct (Hmin i ltac:(lia)) as [Hle _].
      unfold victim_le, victim_lt in *. split; intros; lia. }
    destruct (Z.eqb_spec (freq (set !!! S m)) (freq (set !!! v))) as [Heq|Hneq];
      cbn [andb].
    + destruct (Z.ltb_spec (last_used (set !!! S m)) (last_used (set !!! v)))
        as [Hlt|Hge'].
      * split; [lia|]. intros i Hi.
        destruct (decide (i = S m)) as [->|Hne]; [split; [right; lia | lia]|].
        destruct (Hmin i ltac:(lia)) as [Hle _].
        unfold victim_le, victim_lt in *. split; intros; lia.
      * split; [lia|]. intros i Hi.
        destruct (decide (i = S m)) as [->|Hne].
        -- unfold victim_le, victim_lt. split; [lia | lia].
        -- apply Hmin. lia.
    + split; [lia|]. intros i Hi.
      destruct (decide (i = S m)) as [->|Hne].
      * unfold victim_le, victim_lt. split; [lia | lia].
      * apply Hmin. lia.
Qed.

(** X3.  Replacement in a full set is least-frequently-used with
    least-recently-used tie-break: when every way of the set of [addr] is
    valid, [insert] overwrites exactly one way [v] with the fresh line and
    keeps the others; no way has a lower frequency than the old way [v], no
    way of the same frequency was used longer ago, and every way in front of
    [v] is strictly behind it in that order. *)
Theorem insert_evicts_lfu_lru lvl addr timestamp :
  level_wf lvl →
  let set_idx := Z.to_nat (compute_index_tag lvl addr).1 in
  let tg := (compute_index_tag lvl addr).2 in
  let row := m_sets lvl !!! set_idx in
  Forall (λ line, valid line = true) row →
  ∃ v, (v < length row)%nat ∧
       m_sets (insert addr timestamp lvl) =
         <[set_idx := <[v := fresh_line tg timestamp]> row]> (m_sets lvl) ∧
       ∀ i line, row !! i = Some line →
                 victim_le (row !!! v) line ∧
                 ((i < v)%nat → victim_lt (row !!! v) line).
Proof.
  intros Hwf set_idx tg row Hfull. pose proof (wf_row lvl addr Hwf) as Hrow.
  unfold insert. subst set_idx tg.
  destruct (compute_index_tag lvl addr) as [idx tg]. cbn [fst snd] in *.
  fold row.
  assert (Hnone : fill_invalid tg timestamp row = None).
  { clear -Hfull. induction Hfull as [|line rest Hline _ IH]; [done|].
    cbn. by rewrite Hline, IH. }
  rewrite Hnone. exists (choose_victim row).
  pose proof (choose_victim_lt row Hrow) as Hlt.
  split_and!; [done | done |].
  intros i line Hi. pose proof (lookup_lt_Some _ _ _ Hi) as Hilt.
  destruct (victim_prefix row (length row - 1) ltac:(lia)) as [_ Hmin].
  fold (choose_victim row) in Hmin.
  rewrite <- (list_lookup_total_correct _ _ _ Hi). apply Hmin. lia.
Qed.

Lemma insert_evicts_lfu_lru_witness :
  let lvl := insert 128 3 (insert 64 2 (insert 0 1 (make 128 64 2 1 0))) in
  level_wf (insert 64 2 (insert 0 1 (make 128 64 2 1 0))) ∧
  ∃ v, (v < 2)%nat ∧
       m_sets lvl = [ <[v := fresh_line 2 3]> [fresh_line 0 1; fresh_line 1 2] ].
Proof.
  split; [apply insert_wf, insert_wf, make_wf; lia|].
  destruct (insert_evicts_lfu_lru (insert 64 2 (insert 0 1 (make 128 64 2 1 0)))
              128 3 ltac:(apply insert_wf, insert_wf, make_wf; lia)
              ltac:(repeat constructor))
    as (v & Hv & Hsets & _).
  exists v. split; [exact Hv | exact Hsets].
Defined.

Lemma touch_line_inv tg ts set :
  is_Some (touch_line tg ts set) →
  ∃ line, line ∈ set ∧ valid line = true ∧ tag line = tg.
Proof.
  induction set as [|l0 rest IH]; cbn; [by intros [? ?]|].
  destruct (valid l0 && (tag l0 =? tg)) eqn:E.
  - intros _. apply andb_true_iff in E as [Hv Ht%Z.eqb_eq].
    exists l0. split_and!; [apply elem_of_cons; by left | done | done].
  - rewrite fmap_is_Some. intros (line & Hin & Hv & Ht)%IH.
    exists line. split_and!; [apply elem_of_cons; by right | done | done].
Qed.

Lemma fill_invalid_keeps tg ts set set' line :
  fill_invalid tg ts set = Some set' →
  line ∈ set → valid line = true → line ∈ set'.
Proof.
  revert set'. induction set as [|l0 rest IH]; intros set'; cbn; [done|].
  destruct (valid l0) eqn:Hv0; cbn.
  - destruct (fill_invalid tg ts rest) as [r|]; [|done].
    intros [= <-] [->|Hin]%elem_of_cons Hv; apply elem_of_cons;
      [by left | right; by apply IH].
  - intros [= <-] [->|Hin]%elem_of_cons Hv; [congruence|].
    apply elem_of_cons. by right.
Qed.

Lemma fill_invalid_some tg ts set line :
  line ∈ set → valid line = false → is_Some (fill_invalid tg ts set).
Proof.
  induction set as [|l0 rest IH]; [by intros ?%elem_of_nil|].
  intros [->|Hin]%elem_of_cons Hv; cbn.
  - by rewrite Hv.
  - destruct (valid l0); cbn; [|done]. rewrite fmap_is_Some. by apply IH.
Qed.

(** X4.  An insert can cost at most a line of its own set, and none while
    that set has an invalid way: an address [b] that hits before
    [insert(a, t)] still hits afterwards if [b] maps to another set than [a],
    or if the set of [a] has an invalid line. *)
Theorem insert_keeps_lines lvl a t b t' :
  level_wf lvl →
  (access b t' lvl).1 = true →
  (compute_index_tag lvl b).1 ≠ (compute_index_tag lvl a).1 ∨
  (∃ line, line ∈ m_sets lvl !!! Z.to_nat (compute_index_tag lvl a).1 ∧
           valid line = false) →
  (access b t' (insert a t lvl)).1 = true.
Proof.
  intros Hwf Hhit Hcase.
  pose proof (set_idx_in_range lvl a Hwf) as Hia.
  pose proof (set_idx_in_range lvl b Hwf) as Hib.
  destruct Hwf as (Hpos & _).
  apply access_hit_iff in Hhit. apply access_hit_iff.
  unfold insert. destruct (compute_index_tag lvl a) as [ia tga] eqn:Ha.
  rewrite compute_index_tag_set_m_sets. cbn [m_sets set_m_sets].
  destruct (compute_index_tag lvl b) as [ib tgb] eqn:Hb. cbn [fst snd] in *.
  destruct (decide (ib = ia)) as [->|Hne].
  - destruct Hcase as [?|(inv & Hinv & Hinvalid)]; [done|].
    rewrite list_lookup_total_insert_eq by done.
    destruct (fill_invalid_some tga t _ inv Hinv Hinvalid) as [set' Hset'].
    rewrite Hset'.
    apply touch_line_inv in Hhit as (line & Hin & Hv & Ht).
    apply (touch_line_hits tgb t' set' line); [|done|done].
    by eapply fill_invalid_keeps.
  - rewrite list_lookup_total_insert_ne; [done|].
    unfold compute_index_tag in Ha, Hb. injection Ha as <- _. injection Hb as <- _.
    pose proof (Z.mod_pos_bound (a / m_block_size lvl) (m_num_sets lvl) Hpos).
    pose proof (Z.mod_pos_bound (b / m_block_size lvl) (m_num_sets lvl) Hpos).
    lia.
Qed.

Lemma insert_keeps_lines_witness :
  let lvl := insert 0 1 (make 128 64 2 1 0) in
  level_wf lvl ∧ (access 0 5 lvl).1 = true ∧
  (access 0 5 (insert 64 2 lvl)).1 = true.
Proof.
  intros lvl.
  assert (Hwf : level_wf lvl) by (apply insert_wf, make_wf; lia).
  split; [exact Hwf|]. split; [reflexivity|].
  apply (insert_keeps_lines lvl 64 2 0 5 Hwf eq_refl).
  right. exists CacheLine_default. split; [|reflexivity].
  vm_compute. apply elem_of_cons. right. apply elem_of_cons. by left.
Defined.

End CacheLevelMore.

(** ** The controller: statistics, repeated accesses and the clock *)

Section ControllerMore.
Import MultiLevelCache.

Lemma wrap64_succ_l a b : wrap64 (wrap64 (a + b) + 1) = wrap64 (wrap64 (a + 1) + b).
Proof. rewrite !wrap64_add_l. f_equal. lia. Qed.

Lemma wrap64_succ_r a b : wrap64 (wrap64 (a + b) + 1) = wrap64 (a + wrap64 (b + 1)).
Proof.
  rewrite wrap64_add_l, (Z.add_comm a (wrap64 _)), wrap64_add_l. f_equal. lia.
Qed.

Lemma access_m_stats addr ts lvl :
  m_stats (CacheLevel.access addr ts lvl).2 = m_stats lvl.
Proof.
  unfold CacheLevel.access.
  destruct (CacheLevel.compute_index_tag lvl addr) as [set_idx tg].
  by destruct (CacheLevel.touch_line tg ts _).
Qed.

Lemma insert_m_stats addr ts lvl :
  m_stats (CacheLevel.insert addr ts lvl) = m_stats lvl.
Proof.
  unfold CacheLevel.insert.
  by destruct (CacheLevel.compute_index_tag lvl addr) as [set_idx tg].
Qed.

Lemma walk_stats_ok addr ts lvls : ∀ i pen recs,
  Forall level_stats_ok lvls →
  Forall level_stats_ok (w_levels (walk addr ts i lvls pen recs)).
Proof.
  induction lvls as [|lvl rest IH]; intros i pen recs Hall; [done|].
  inversion Hall as [|? ? Hlvl Hrest]; subst.
  cbn [walk]. rewrite access_set_m_stats.
  pose proof (access_m_stats addr ts lvl) as Hst.
  unfold level_stats_ok in Hlvl.
  destruct (CacheLevel.access addr ts lvl) as [[] lvl']; cbn in *.
  - constructor; [|done]. unfold level_stats_ok. cbn.
    rewrite Hlvl. apply wrap64_succ_l.
  - constructor; [|by apply IH]. unfold level_stats_ok. cbn.
    rewrite Hlvl. apply wrap64_succ_r.
Qed.

Lemma fill_stats_ok addr ts fill_upto lvls :
  Forall level_stats_ok lvls → Forall level_stats_ok (fill addr ts fill_upto lvls).
Proof.
  intros Hall. unfold fill.
  apply (foldl_alter_Forall level_stats_ok (λ _, CacheLevel.insert addr ts) (λ i, i));
    [|done].
  intros _ lvl. unfold level_stats_ok. by rewrite insert_m_stats.
Qed.

Lemma attribute_stats_ok tp recs : ∀ lvls,
  Forall level_stats_ok lvls → Forall level_stats_ok (attribute tp recs lvls).
Proof.
  unfold attribute.
  induction recs as [|r recs IH]; intros lvls Hall; [done|]. cbn.
  apply IH. case_match; [|done].
  apply Forall_lookup. intros j x. rewrite list_lookup_alter.
  rewrite Forall_lookup in Hall. case_decide; subst.
  - destruct (lvls !! _) as [y|] eqn:E; [|done]. intros [= <-].
    unfold level_stats_ok. cbn. by eapply Hall.
  - apply Hall.
Qed.

Lemma cache_access_stats_ok addr is_write c :
  controller_stats_ok c → controller_stats_ok (cache_access addr is_write c).
Proof.
  intros [Htot Hlv]. unfold cache_access, access.
  destruct (m_levels c) as [|l0 rest] eqn:E; [by split; [|rewrite E]|].
  rewrite <- E in *. clear l0 rest E.
  split; cbn [m_total_accesses m_total_hits m_total_misses m_levels].
  - rewrite Htot. case_bool_decide; [apply wrap64_succ_l | apply wrap64_succ_r].
  - by apply attribute_stats_ok, fill_stats_ok, walk_stats_ok.
Qed.

Lemma make_stats_ok a b c d e : level_stats_ok (CacheLevel.make a b c d e).
Proof.
  unfold level_stats_ok, CacheLevel.make.
  match goal with |- context [let '(_, _) := ?p in _] => by destruct p end.
Qed.

End ControllerMore.

(** ** Properties of the cache that every command keeps *)

Section CacheThroughOps.
Context `{!Platform}.

Lemma reachable_run ops : ∀ st,
  reachable st → admissible_run st ops → reachable (run ops st).
Proof.
  induction ops as [|op ops IH]; intros st Hst Hadm; [done|].
  destruct Hadm as [Hop Hrest]. apply IH; [|done]. by constructor.
Qed.

Section Generic.
Variable P : MultiLevelCache → Prop.
Hypothesis Haccess : ∀ a w c, P c → P (cache_access a w c).
Hypothesis Hdefault : ∀ c, P (cache_init_default c).
Hypothesis Hreset : P MultiLevelCache.make.
Hypothesis Hadd : ∀ a b c d cache,
  size_t a → size_t b → size_t c → size_t d →
  P cache → P (cache_add_level a b c d cache).
Hypothesis Hconfigure : ∀ i a b c d cache,
  size_t i → size_t a → size_t b → size_t c → size_t d →
  P cache → P (cache_configure_level i a b c d cache).
Hypothesis Hlatency : ∀ l cache, P cache → P (cache_set_memory_latency l cache).

Lemma read_loop_cache_inv m p k : ∀ i cache dst g,
  P cache → P (read_loop m p k i cache dst g).1.1.
Proof.
  induction k as [|k IH]; intros i cache dst g Hc; [done|].
  cbn [read_loop]. apply IH. by apply Haccess.
Qed.

Lemma write_loop_cache_inv src p k : ∀ i cache m,
  P cache → P (write_loop src p k i cache m).1.
Proof.
  induction k as [|k IH]; intros i cache m Hc; [done|].
  cbn [write_loop]. apply IH. by apply Haccess.
Qed.

Lemma allocator_init_cache_inv st : P (g_cache st) → P (g_cache (allocator_init st)).
Proof.
  unfold allocator_init. intros Hc.
  destruct (g_head st); [|done]. cbn [g_cache].
  by destruct (g_cache_initialized st).
Qed.

Lemma run_op_cache_inv st op :
  admissible st op → P (g_cache st) → P (g_cache (run_op st op)).
Proof.
  intros Hadm Hc. pose proof (allocator_init_cache_inv st Hc) as Hinit.
  destruct op; cbn [run_op].
  - unfold allocator_malloc. repeat case_match; done.
  - unfold allocator_malloc_default, allocator_malloc. repeat case_match; done.
  - done.
  - unfold allocator_free. repeat case_match; done.
  - unfold allocator_set_block_cacheable. repeat case_match; done.
  - unfold allocator_access. repeat case_match; try done.
    cbn [g_cache set_g_head set_g_cache]. by apply Haccess.
  - unfold allocator_read. repeat case_match; try done; subst.
    cbn [g_cache set_g_cache fst].
    match goal with
    | Hl : read_loop ?m ?p ?k ?i ?c ?d ?g = _ |- _ =>
        pose proof (read_loop_cache_inv m p k i c d g Hinit) as Hloop;
        rewrite Hl in Hloop
    end.
    done.
  - unfold allocator_write. repeat case_match; try done; subst.
    cbn [g_cache set_g_cache set_heap_bytes fst].
    match goal with
    | Hl : write_loop ?s ?p ?k ?i ?c ?m = _ |- _ =>
        pose proof (write_loop_cache_inv s p k i c m Hinit) as Hloop;
        rewrite Hl in Hloop
    end.
    done.
  - apply Hdefault.
  - apply Hreset.
  - destruct Hadm as (? & ? & ? & ?). by apply Hadd.
  - destruct Hadm as (? & ? & ? & ? & ?). by apply Hconfigure.
  - by apply Hlatency.
Qed.

Lemma reachable_cache_inv st : reachable st → P (g_cache st).
Proof.
  induction 1 as [|st op _ IH Hadm]; [done | by apply run_op_cache_inv].
Qed.

End Generic.

(** X5.  In every state the program reaches, the controller's hits and
    misses add up to its accesses, and so do the hits and misses of every
    cache level (all counters modulo 2^64). *)
Theorem reachable_cache_statistics st :
  reachable st →
  m_total_accesses (g_cache st)
    = wrap64 (m_total_hits (g_cache st) + m_total_misses (g_cache st)) ∧
  ∀ lvl, lvl ∈ m_levels (g_cache st) →
         accesses (m_stats lvl) = wrap64 (hits (m_stats lvl) + misses (m_stats lvl)).
Proof.
  intros Hreach.
  assert (Hok : controller_stats_ok (g_cache st)).
  { apply reachable_cache_inv; [| | | | | |done].
    - apply cache_access_stats_ok.
    - intros c. split; [done|].
      change (m_levels (cache_init_default c))
        with [CacheLevel.make (4 * 1024) 64 4 1 0; CacheLevel.make (32 * 1024) 64 8 8 1].
      repeat (apply Forall_cons; split; [apply make_stats_ok|]). constructor.
    - split; [done | constructor].
    - intros a b c d cache _ _ _ _ [Htot Hlv]. split; [done|].
      unfold cache_add_level, MultiLevelCache.add_level.
      cbn [m_levels MultiLevelCache.set_m_levels].
      apply Forall_app. split; [done|].
      apply Forall_cons. split; [apply make_stats_ok | constructor].
    - intros i a b c d cache _ _ _ _ _ [Htot Hlv].
      unfold cache_configure_level, MultiLevelCache.configure_level.
      case_match; [done|]. split; [done|].
      cbn [m_levels MultiLevelCache.set_m_levels].
      apply Forall_insert; [done | apply make_stats_ok].
    - intros l cache [Htot Hlv]. by split. }
  destruct Hok as [Htot Hlv]. split; [done|].
  rewrite Forall_forall in Hlv. exact Hlv.
Qed.

End CacheThroughOps.

Lemma example_state_reachable : @reachable lp64 example_state.
Proof.
  apply (@reachable_run lp64 example_ops initial_globals); [constructor|].
  cbn [admissible_run example_ops admissible]. unfold size_t.
  split; [lia|]. split; [lia|]. split; [|done].
  split; [lia|]. split; [lia|].
  intros i hdr _ Hfind. vm_compute in Hfind. injection Hfind as <- <-. cbn. lia.
Qed.

Lemma reachable_cache_statistics_witness :
  @reachable lp64 example_state ∧
  m_total_accesses (g_cache example_state)
    = wrap64 (m_total_hits (g_cache example_state)
              + m_total_misses (g_cache example_state)).
Proof.
  split; [apply example_state_reachable|].
  exact (proj1 (@reachable_cache_statistics lp64 example_state
                  example_state_reachable)).
Defined.

(** ** An access right after an access *)

Section RepeatedAccess.
Import MultiLevelCache.

Lemma insert_then_lookup lvl addr t t' :
  level_wf lvl →
  (CacheLevel.access addr t' (CacheLevel.insert addr t lvl)).1 = true.
Proof.
  intros Hwf. apply access_hit_iff.
  pose proof (wf_row lvl addr Hwf) as Hrow.
  pose proof (set_idx_in_range lvl addr Hwf) as Hidx.
  unfold CacheLevel.insert.
  destruct (CacheLevel.compute_index_tag lvl addr) as [set_idx tg] eqn:Hc.
  rewrite compute_index_tag_set_m_sets, Hc. cbn [fst snd m_sets set_m_sets] in *.
  rewrite list_lookup_total_insert_eq by done.
  destruct (insert_row_fresh tg t _ Hrow) as [Hin _].
  by apply (touch_line_hits tg t' _ _ Hin).
Qed.

Lemma walk_first addr ts i l0 rest pen recs :
  ∃ s, w_levels (walk addr ts i (l0 :: rest) pen recs) !! 0%nat
       = Some (set_m_stats (CacheLevel.access addr ts l0).2 s).
Proof.
  cbn [walk]. rewrite access_set_m_stats.
  destruct (CacheLevel.access addr ts l0) as [[] l0']; cbn; by eexists.
Qed.

Lemma walk_hit_bound addr ts lvls : ∀ i pen recs k,
  w_level_hit (walk addr ts i lvls pen recs) = Some k →
  (i ≤ k < i + length lvls)%nat.
Proof.
  induction lvls as [|l0 rest IH]; intros i pen recs k; [done|].
  cbn [walk]. destruct (CacheLevel.access _ _ _) as [[] l0']; cbn.
  - intros [= <-]. lia.
  - intros Hk%IH. lia.
Qed.

(** After an access, the first level is the result of an insert. *)
Lemma access_first_level addr is_write c l0 rest :
  m_levels c = l0 :: rest →
  ∃ s, m_levels (access addr is_write c) !! 0%nat =
       Some (set_m_stats
               (CacheLevel.insert addr (wrap64 (m_timestamp c + 1))
                  (CacheLevel.access addr (wrap64 (m_timestamp c + 1)) l0).2) s).
Proof.
  intros Hlv. unfold access. rewrite Hlv. cbn [m_levels].
  set (ts := wrap64 (m_timestamp c + 1)).
  destruct (walk_first addr ts 0 l0 rest 0 []) as [s Hs].
  pose proof (walk_hit_bound addr ts (l0 :: rest) 0 0 []) as Hbound.
  set (w := walk addr ts 0 (l0 :: rest) 0 []) in *.
  match goal with
  | |- ∃ s, attribute ?tp ?recs ?lvls !! _ = _ =>
      destruct (attribute_stats_only tp recs lvls 0%nat
                  (set_m_stats
                     (CacheLevel.insert addr ts (CacheLevel.access addr ts l0).2) s))
        as [s' Hs']; [|by exists s']
  end.
  rewrite fill_lookup, Hs. cbn [fmap option_fmap option_map].
  rewrite insert_set_m_stats. rewrite decide_True; [done|].
  destruct (w_level_hit w) as [k|].
  - specialize (Hbound k eq_refl). cbn [length] in *.
    rewrite (proj2 (Z.eqb_neq (Z.of_nat k) (Z.of_nat (S (length rest))))) by lia.
    lia.
  - rewrite Z.eqb_refl. cbn [length]. lia.
Qed.

(** The access when the first level holds the address. *)
Lemma access_first_hits addr is_write c l0 rest :
  m_levels c = l0 :: rest →
  (CacheLevel.access addr (wrap64 (m_timestamp c + 1)) l0).1 = true →
  m_levels (access addr is_write c) =
    CacheLevel.insert addr (wrap64 (m_timestamp c + 1))
      (set_m_stats (CacheLevel.access addr (wrap64 (m_timestamp c + 1)) l0).2
         (bump_hits (bump_accesses (m_stats l0)))) :: rest ∧
  m_total_hits (access addr is_write c) = wrap64 (m_total_hits c + 1) ∧
  m_total_misses (access addr is_write c) = m_total_misses c.
Proof.
  intros Hlv Hhit. unfold access. rewrite Hlv.
  cbn [m_levels m_total_hits m_total_misses walk].
  rewrite access_set_m_stats, Hhit.
  cbn [w_levels w_level_hit w_miss_records w_total_penalty].
  rewrite bool_decide_true by (by eexists).
  split; [|done].
  cbn [length]. 
  replace (Z.of_nat 0 =? Z.of_nat (S (length rest))) with false
    by (symmetry; apply Z.eqb_neq; lia).
  reflexivity.
Qed.

(** X6.  Two accesses to one address in a row, on well-formed levels: the
    second access hits in the first level.  It counts one more global hit
    and no further global miss, one more hit and no further miss on the
    first level, and leaves every other level exactly as the first access
    left it. *)
Theorem repeated_access_hits_first_level c addr is_write is_write' :
  Forall level_wf (m_levels c) → m_levels c ≠ [] →
  let c1 := access addr is_write c in
  let c2 := access addr is_write' c1 in
  m_total_hits c2 = wrap64 (m_total_hits c1 + 1) ∧
  m_total_misses c2 = m_total_misses c1 ∧
  (∀ j, (0 < j)%nat → m_levels c2 !! j = m_levels c1 !! j) ∧
  ∃ l1 l2, m_levels c1 !! 0%nat = Some l1 ∧ m_levels c2 !! 0%nat = Some l2 ∧
           hits (m_stats l2) = wrap64 (hits (m_stats l1) + 1) ∧
           misses (m_stats l2) = misses (m_stats l1).
Proof.
  intros Hwf Hne c1 c2.
  destruct (m_levels c) as [|l0 rest] eqn:Hlv; [done|].
  inversion Hwf as [|? ? Hwf0 _]; subst.
  destruct (access_first_level addr is_write c l0 rest Hlv) as [s Hfirst].
  fold c1 in Hfirst.
  destruct (m_levels c1) as [|l1 rest1] eqn:Hlv1; [done|].
  injection Hfirst as Hl1.
  assert (Hhit : (CacheLevel.access addr (wrap64 (m_timestamp c1 + 1)) l1).1 = true).
  { rewrite Hl1, access_set_m_stats. cbn [fst].
    apply insert_then_lookup. by apply access_wf. }
  destruct (access_first_hits addr is_write' c1 l1 rest1 Hlv1 Hhit)
    as (Hlevels & Hhits & Hmisses).
  fold c2 in Hlevels, Hhits, Hmisses.
  split_and!; [done | done | |].
  - intros [|j] Hj; [lia|]. by rewrite Hlevels.
  - exists l1. eexists. split; [done|]. split; [by rewrite Hlevels|].
    rewrite insert_m_stats. cbn. done.
Qed.

Lemma repeated_access_hits_first_level_witness :
  let c := cache_init_default make in
  (Forall level_wf (m_levels c) ∧ m_levels c ≠ []) ∧
  m_total_hits (access 4152 false (access 4152 false c))
    = wrap64 (m_total_hits (access 4152 false c) + 1).
Proof.
  intros c.
  assert (Hwf : Forall level_wf (m_levels c)).
  { apply Forall_cons. split; [apply make_wf; lia|].
    apply Forall_cons. split; [apply make_wf; lia | constructor]. }
  split; [split; [exact Hwf | done]|].
  exact (proj1 (repeated_access_hits_first_level c 4152 false false
                  Hwf ltac:(done))).
Defined.

Lemma attribute_length tp recs : ∀ lvls,
  length (attribute tp recs lvls) = length lvls.
Proof.
  unfold attribute. induction recs as [|r recs IH]; intros lvls; [done|].
  cbn [foldl]. rewrite IH. case_match; [apply length_alter | done].
Qed.

Lemma fill_length addr ts fill_upto lvls :
  length (fill addr ts fill_upto lvls) = length lvls.
Proof.
  unfold fill. generalize (seq 0 (Z.to_nat (fill_upto + 1))). intros idxs.
  revert lvls. induction idxs as [|i idxs IH]; intros lvls; [done|].
  cbn [foldl]. rewrite IH. apply length_alter.
Qed.

Lemma walk_length addr ts lvls : ∀ i pen recs,
  length (w_levels (walk addr ts i lvls pen recs)) = length lvls.
Proof.
  induction lvls as [|l0 rest IH]; intros i pen recs; [done|].
  cbn [walk]. destruct (CacheLevel.access _ _ _) as [[] l0']; cbn; [done|].
  by rewrite IH.
Qed.

(** An access on a controller with levels advances the clock by one and
    keeps the number of levels. *)
Lemma cache_access_clock addr is_write c :
  m_levels c ≠ [] →
  m_timestamp (cache_access addr is_write c) = wrap64 (m_timestamp c + 1) ∧
  m_total_accesses (cache_access addr is_write c)
    = wrap64 (m_total_accesses c + 1) ∧
  length (m_levels (cache_access addr is_write c)) = length (m_levels c).
Proof.
  intros Hne. unfold cache_access, access.
  destruct (m_levels c) as [|l0 rest] eqn:Hlv; [done|].
  cbn [m_timestamp m_total_accesses m_levels]. split; [done|]. split; [done|].
  by rewrite attribute_length, fill_length, walk_length.
Qed.

End RepeatedAccess.

(** ** Reads and writes: the clock and the round trip *)

Section ReadWriteMore.
Context `{!Platform}.

(** A write that passes every check is the store loop. *)
Lemma allocator_write_accepted st id_ offset src_bytes size_ i hdr :
  find_block_by_id (g_head (allocator_init st)) id_ = Some (i, hdr) →
  0 ≤ id_ → 0 ≤ offset → 0 < size_ →
  offset + size_ ≤ requested_size hdr → requested_size hdr < 2 ^ 64 →
  allocator_write id_ offset (Some src_bytes) size_ st =
  let '(cache, m) :=
    write_loop src_bytes (wrap64 (start hdr + offset)) (Z.to_nat size_) 0
      (g_cache (allocator_init st)) (heap_bytes st) in
  (set_heap_bytes (set_g_cache (allocator_init st) cache) m, true).
Proof.
  intros Hfind Hid Hoff Hn Hreq Hrange.
  pose proof (find_block_by_id_spec _ _ _ _ Hfind) as (_ & Hfree & _).
  unfold allocator_write. rewrite Hfind, Hfree.
  rewrite (proj2 (Z.ltb_ge id_ 0)) by lia.
  rewrite (proj2 (Z.eqb_neq size_ 0)) by lia. cbn [orb].
  rewrite (wrap64_small (offset + size_)) by lia.
  rewrite (proj2 (Z.ltb_ge (requested_size hdr) (offset + size_))) by lia.
  by rewrite heap_bytes_init.
Qed.

Lemma wrap64_add_r a b : wrap64 (a + wrap64 b) = wrap64 (a + b).
Proof. by rewrite Z.add_comm, wrap64_add_l, Z.add_comm. Qed.

Lemma read_loop_clock m p k : ∀ i cache dst g,
  m_levels cache ≠ [] →
  let c' := (read_loop m p (S k) i cache dst g).1.1 in
  m_timestamp c' = wrap64 (m_timestamp cache + Z.of_nat (S k)) ∧
  m_total_accesses c' = wrap64 (m_total_accesses cache + Z.of_nat (S k)) ∧
  length (m_levels c') = length (m_levels cache).
Proof.
  induction k as [|k IH]; intros i cache dst g Hne;
    destruct (cache_access_clock (wrap64 (p + i)) false cache Hne)
      as (Hts & Htot & Hlen).
  - cbn [read_loop fst]. done.
  - assert (Hne' : m_levels (cache_access (wrap64 (p + i)) false cache) ≠ []).
    { intros Hnil. rewrite Hnil in Hlen. by destruct (m_levels cache). }
    cbn zeta. cbn [read_loop]. cbn [read_loop] in IH.
    destruct (IH (i + 1) _
                (<[Z.to_nat i := m (wrap64 (p + i))]> dst)
                (if is_garbage (m (wrap64 (p + i))) then true else g) Hne')
      as (IHts & IHtot & IHlen).
    rewrite IHts, IHtot, IHlen, Hts, Htot, Hlen, !wrap64_add_l.
    split_and!; [f_equal; lia | f_equal; lia | done].
Qed.

Lemma write_loop_clock src p k : ∀ i cache m,
  m_levels cache ≠ [] →
  let c' := (write_loop src p (S k) i cache m).1 in
  m_timestamp c' = wrap64 (m_timestamp cache + Z.of_nat (S k)) ∧
  m_total_accesses c' = wrap64 (m_total_accesses cache + Z.of_nat (S k)) ∧
  length (m_levels c') = length (m_levels cache).
Proof.
  induction k as [|k IH]; intros i cache m Hne;
    destruct (cache_access_clock (wrap64 (p + i)) true cache Hne)
      as (Hts & Htot & Hlen).
  - cbn [write_loop fst]. done.
  - assert (Hne' : m_levels (cache_access (wrap64 (p + i)) true cache) ≠ []).
    { intros Hnil. rewrite Hnil in Hlen. by destruct (m_levels cache). }
    cbn zeta. cbn [write_loop]. cbn [write_loop] in IH.
    destruct (IH (i + 1) _
                (store m (wrap64 (p + i)) (src !!! Z.to_nat i)) Hne')
      as (IHts & IHtot & IHlen).
    rewrite IHts, IHtot, IHlen, Hts, Htot, Hlen, !wrap64_add_l.
    split_and!; [f_equal; lia | f_equal; lia | done].
Qed.

(** X7.  Every byte of an accepted read or write is one access of the
    cache: with at least one level configured, reading or writing [size_]
    bytes of a valid range advances the logical clock and the access counter
    of the controller by exactly [size_] (modulo 2^64). *)
Theorem read_write_advance_clock st id_ offset size_ i hdr :
  find_block_by_id (g_head (allocator_init st)) id_ = Some (i, hdr) →
  0 ≤ id_ → 0 ≤ offset → 0 < size_ →
  offset + size_ ≤ requested_size hdr → requested_size hdr < 2 ^ 64 →
  m_levels (g_cache (allocator_init st)) ≠ [] →
  let c := g_cache (allocator_init st) in
  (∀ dst_bytes,
     let c' := g_cache (allocator_read id_ offset (Some dst_bytes) size_ st).1.1 in
     m_timestamp c' = wrap64 (m_timestamp c + size_) ∧
     m_total_accesses c' = wrap64 (m_total_accesses c + size_)) ∧
  (∀ src_bytes,
     let c' := g_cache (allocator_write id_ offset (Some src_bytes) size_ st).1 in
     m_timestamp c' = wrap64 (m_timestamp c + size_) ∧
     m_total_accesses c' = wrap64 (m_total_accesses c + size_)).
Proof.
  intros Hfind Hid Hoff Hn Hreq Hrange Hne c.
  assert (Hk : Z.to_nat size_ = S (Z.to_nat size_ - 1)) by lia.
  assert (Hsz : Z.of_nat (S (Z.to_nat size_ - 1)) = size_) by lia.
  split.
  - intros dst_bytes c'. subst c'.
    rewrite (allocator_read_accepted st id_ offset dst_bytes size_ i hdr) by done.
    rewrite Hk.
    destruct (read_loop_clock (heap_bytes st) (wrap64 (start hdr + offset))
                (Z.to_nat size_ - 1) 0 c dst_bytes false Hne) as (Hts & Htot & _).
    fold c. destruct (read_loop _ _ _ _ _ _ _) as [[cache out] g].
    cbn in *. by rewrite Hts, Htot, Hsz.
  - intros src_bytes c'. subst c'.
    rewrite (allocator_write_accepted st id_ offset src_bytes size_ i hdr) by done.
    rewrite Hk.
    destruct (write_loop_clock src_bytes (wrap64 (start hdr + offset))
                (Z.to_nat size_ - 1) 0 c (heap_bytes st) Hne) as (Hts & Htot & _).
    fold c. destruct (write_loop _ _ _ _ _ _) as [cache m].
    cbn in *. by rewrite Hts, Htot, Hsz.
Qed.


End ReadWriteMore.

(** ** Releasing, failing and counting *)

Section AllocatorMore.
Context `{!Platform}.

Lemma find_block_from_None id_ l : ∀ k,
  find_block_from id_ k l = None ↔ id_ ∉ live_ids l.
Proof.
  induction l as [|b l IH]; intros k; cbn [find_block_from].
  - split; [intros _ Hin; by apply elem_of_nil in Hin | done].
  - rewrite live_ids_cons. destruct (free b); cbn [negb andb]; [apply IH|].
    destruct (Z.eqb_spec (id b) id_) as [->|Hne].
    + split; [done|]. intros Hnot. exfalso. apply Hnot, elem_of_cons. by left.
    + rewrite IH, not_elem_of_cons.
      split; [intros Hn; split; [intros ->; by apply Hne | exact Hn]
             | intros [_ Hn]; exact Hn].
Qed.

Lemma allocator_init_idem st : allocator_init (allocator_init st) = allocator_init st.
Proof.
  unfold allocator_init at 2 3.
  destruct (g_head st) eqn:E; [done|].
  unfold allocator_init. by rewrite E.
Qed.

Lemma coalesce_from_nonempty rest : ∀ curr, coalesce_from curr rest ≠ [].
Proof.
  induction rest as [|next rest IH]; intros curr; [done|].
  cbn [coalesce_from]. by case_match.
Qed.

(** The ids that stay allocated when the block of [id_] is released. *)
Lemma free_live_ids l id_ i hdr :
  NoDup (live_ids l) →
  find_block_by_id l id_ = Some (i, hdr) →
  let l' := coalesce_free_blocks
              (<[i := {| self := self hdr; id := -1; start := start hdr;
                         size := size hdr; requested_size := requested_size hdr;
                         free := true; cacheable := false; cache_hits := 0 |}]> l) in
  l' ≠ [] ∧ ∀ x, x ∈ live_ids l' ↔ x ∈ live_ids l ∧ x ≠ id_.
Proof.
  intros Hnd Hfind l'. subst l'.
  apply find_block_by_id_spec in Hfind as (Hi & Hfree & Hid).
  apply list_elem_of_split_length in Hi as (l1 & l2 & -> & ->).
  rewrite insert_middle.
  rewrite live_ids_app, live_ids_cons, Hfree, Hid in Hnd.
  apply NoDup_app in Hnd as (_ & Hd12 & Hd2).
  apply NoDup_cons in Hd2 as [Hnot2 _].
  assert (Hnot1 : id_ ∉ live_ids l1).
  { intros Hin. apply (Hd12 _ Hin). apply elem_of_cons. by left. }
  split.
  - destruct l1; cbn [app coalesce_free_blocks]; apply coalesce_from_nonempty.
  - intros x.
    assert (Hlive : live_ids (coalesce_free_blocks
                       (l1 ++ {| self := self hdr; id := -1; start := start hdr;
                                 size := size hdr;
                                 requested_size := requested_size hdr;
                                 free := true; cacheable := false;
                                 cache_hits := 0 |} :: l2))
                    = live_ids l1 ++ live_ids l2).
    { destruct l1 as [|b l1]; cbn [app coalesce_free_blocks];
        rewrite coalesce_from_live_ids; [by rewrite live_ids_cons|].
      rewrite app_comm_cons, live_ids_app. by f_equal. }
    rewrite Hlive, live_ids_app, live_ids_cons, Hfree, Hid.
    rewrite !elem_of_app, elem_of_cons. split.
    + intros [Hx|Hx]; (split; [tauto | intros ->; tauto]).
    + intros [[Hx|[->|Hx]] Hne]; tauto.
Qed.


(** X10.  Releasing twice is releasing once: in a state the program reaches,
    [free(id)] followed by [free(id)] leaves the state the first call left,
    whatever [id] is. *)
Theorem allocator_free_idempotent st id_ :
  platform_ok → reachable st →
  allocator_free id_ (allocator_free id_ st) = allocator_free id_ st.
Proof.
  intros Hok Hreach.
  pose proof (reachable_inv Hok st Hreach) as Hinv.
  apply (allocator_init_inv Hok) in Hinv as [[_ _ _ _ Hnd] _].
  unfold allocator_free at 2 3.
  destruct (Z.ltb_spec id_ 0) as [Hneg|Hpos].
  { unfold allocator_free. rewrite allocator_init_idem.
    by rewrite (proj2 (Z.ltb_lt id_ 0)). }
  destruct (find_block_by_id (g_head (allocator_init st)) id_) as [[i hdr]|]
    eqn:Hfind.
  - destruct (free_live_ids _ id_ i hdr Hnd Hfind) as [Hne Hlive].
    unfold allocator_free.
    rewrite allocator_init_nonempty by done.
    rewrite (proj2 (Z.ltb_ge id_ 0)) by lia.
    cbn [g_head set_g_head set_heap_bytes].
    replace (find_block_by_id _ id_) with (@None (nat * BlockHeader)); [done|].
    symmetry. apply find_block_from_None. rewrite Hlive. tauto.
  - unfold allocator_free. rewrite allocator_init_idem.
    by rewrite (proj2 (Z.ltb_ge id_ 0)), Hfind by lia.
Qed.

(** X11.  The result of an allocation in a state the program reaches is -1
    exactly when the size is 0 or no free block fits the aligned size (the
    range check behind the success path never fires); and a call that
    returns -1 leaves the block list, the bytes of memory and the id counter
    as the lazy initialisation left them. *)
Theorem allocator_malloc_fails_iff st size_ strategy :
  platform_ok → reachable st →
  let r := allocator_malloc size_ strategy st in
  (r.2 = -1 ↔
   size_ = 0 ∨
   find_fit (g_head (allocator_init st)) (align_size size_) strategy = None) ∧
  (r.2 = -1 →
   g_head r.1 = g_head (allocator_init st) ∧
   heap_bytes r.1 = heap_bytes st ∧
   g_next_id r.1 = g_next_id st).
Proof.
  intros Hok Hreach r.
  pose proof (reachable_inv Hok st Hreach) as Hinv.
  destruct (decide (size_ = 0)) as [->|Hne].
  { subst r. unfold allocator_malloc. cbn.
    rewrite heap_bytes_init, allocator_init_next_id. split; [by split; [left|] | done]. }
  destruct (find_fit (g_head (allocator_init st)) (align_size size_) strategy)
    as [[i blk]|] eqn:Hfit.
  - destruct (malloc_success Hok st size_ strategy i blk Hinv Hne Hfit)
      as (st' & block' & Hcall & _).
    subst r. rewrite Hcall. cbn [fst snd].
    destruct Hinv as [_ Hnext _ _ _].
    split; [split; [lia | intros [?|?]; done] | lia].
  - subst r. unfold allocator_malloc.
    rewrite (proj2 (Z.eqb_neq size_ 0)), Hfit by done.
    cbn [fst snd g_head heap_bytes g_next_id].
    rewrite heap_bytes_init, allocator_init_next_id.
    split; [by split; [right|] | done].
Qed.

Lemma allocator_init_counters st :
  g_alloc_requests (allocator_init st) = g_alloc_requests st ∧
  g_alloc_success (allocator_init st) = g_alloc_success st ∧
  g_alloc_fail (allocator_init st) = g_alloc_fail st.
Proof. unfold allocator_init. by destruct (g_head st). Qed.

Lemma run_op_counters st op :
  g_alloc_requests st = wrap64 (g_alloc_success st + g_alloc_fail st) →
  g_alloc_requests (run_op st op)
    = wrap64 (g_alloc_success (run_op st op) + g_alloc_fail (run_op st op)).
Proof.
  intros Hc. destruct (allocator_init_counters st) as (Hr & Hs & Hf).
  assert (Hinit : g_alloc_requests (allocator_init st)
                  = wrap64 (g_alloc_success (allocator_init st)
                            + g_alloc_fail (allocator_init st)))
    by (by rewrite Hr, Hs, Hf).
  assert (Hmalloc : ∀ size_ strategy,
            g_alloc_requests (allocator_malloc size_ strategy st).1
            = wrap64 (g_alloc_success (allocator_malloc size_ strategy st).1
                      + g_alloc_fail (allocator_malloc size_ strategy st).1)).
  { intros size_ strategy. unfold allocator_malloc.
    repeat case_match; cbn [fst g_alloc_requests g_alloc_success g_alloc_fail];
      try done; rewrite Hinit; try apply wrap64_succ_l; apply wrap64_succ_r. }
  destruct op; cbn [run_op]; unfold allocator_malloc_default;
    try done; try apply Hmalloc;
    unfold allocator_free, allocator_set_block_cacheable, allocator_access,
      allocator_read, allocator_write;
    repeat case_match; done.
Qed.

(** X12.  In every state the program reaches, the allocation requests are
    the successes plus the failures (modulo 2^64): every call with a
    non-zero size counts one request and either one success or one
    failure, and no other command touches the counters. *)
Theorem reachable_counters st :
  reachable st →
  g_alloc_requests st = wrap64 (g_alloc_success st + g_alloc_fail st).
Proof.
  induction 1 as [|st op _ IH _]; [done | by apply run_op_counters].
Qed.

Lemma find_block_from_update id_ l : ∀ k j hdr hdr',
  find_block_from id_ k l = Some (j, hdr) →
  free hdr' = free hdr → id hdr' = id hdr →
  find_block_from id_ k (<[(j - k)%nat := hdr']> l) = Some (j, hdr').
Proof.
  induction l as [|b l IH]; intros k j hdr hdr' Hfind Hfree Hid; [done|].
  cbn in Hfind.
  destruct (negb (free b) && (id b =? id_)) eqn:E.
  - injection Hfind as <- <-. rewrite Nat.sub_diag. cbn.
    by rewrite Hfree, Hid, E.
  - pose proof (find_block_from_spec _ _ _ _ _ Hfind) as (Hle & _).
    replace (j - k)%nat with (S (j - S k)) by lia. cbn. rewrite E.
    by eapply IH.
Qed.

(** X13.  A block that was made non-cacheable is not routed through the
    cache: for every state and id, [access(id)] directly after
    [set_cacheable(id, false)] changes nothing, neither the cache nor the hit
    counter of the block. *)
Theorem access_after_uncacheable st id_ is_write :
  allocator_access id_ is_write (allocator_set_block_cacheable id_ false st)
  = allocator_set_block_cacheable id_ false st.
Proof.
  unfold allocator_set_block_cacheable.
  destruct (Z.ltb_spec id_ 0) as [Hneg|Hpos].
  { unfold allocator_access. rewrite allocator_init_idem.
    by rewrite (proj2 (Z.ltb_lt id_ 0)). }
  destruct (find_block_by_id (g_head (allocator_init st)) id_) as [[i hdr]|]
    eqn:Hfind.
  - pose proof (find_block_by_id_spec _ _ _ _ Hfind) as (Hi & _ & _).
    unfold allocator_access.
    rewrite allocator_init_nonempty.
    2:{ cbn [g_head set_g_head]. intros Hnil%(f_equal length).
        rewrite length_insert in Hnil. apply lookup_lt_Some in Hi.
        cbn in Hnil. lia. }
    rewrite (proj2 (Z.ltb_ge id_ 0)) by lia.
    cbn [g_head set_g_head]. unfold find_block_by_id in *.
    pose proof (find_block_from_update id_ _ 0 i hdr
                  {| self := self hdr; id := id hdr; start := start hdr;
                     size := size hdr; requested_size := requested_size hdr;
                     free := free hdr; cacheable := false;
                     cache_hits := cache_hits hdr |} Hfind eq_refl eq_refl) as Hupd.
    rewrite Nat.sub_0_r in Hupd. by rewrite Hupd.
  - unfold allocator_access. rewrite allocator_init_idem.
    by rewrite (proj2 (Z.ltb_ge id_ 0)), Hfind by lia.
Qed.

End AllocatorMore.

(** ** Coalescing and the shape of the block list *)

Section LayoutMore.
Context `{!Platform}.

Lemma coalesce_from_unfold curr next rest :
  coalesce_from curr (next :: rest) =
  if mergeable curr next then coalesce_from (absorb curr next) rest
  else curr :: coalesce_from next rest.
Proof. done. Qed.

Lemma coalesce_from_head rest : ∀ curr,
  ∃ curr' rest', coalesce_from curr rest = curr' :: rest' ∧
                 self curr' = self curr ∧ free curr' = free curr.
Proof.
  induction rest as [|next rest IH]; intros curr; [by eexists _, _|].
  rewrite coalesce_from_unfold. destruct (mergeable curr next).
  - destruct (IH (absorb curr next)) as (c' & r' & -> & Hs & Hf).
    by eexists _, _.
  - by eexists _, _.
Qed.

Lemma coalesce_from_no_mergeable rest : ∀ curr,
  no_mergeable (coalesce_from curr rest).
Proof.
  induction rest as [|next rest IH]; intros curr; [done|].
  rewrite coalesce_from_unfold. destruct (mergeable curr next) eqn:E; [apply IH|].
  specialize (IH next).
  destruct (coalesce_from_head rest next) as (n' & r' & Heq & Hs & Hf).
  rewrite Heq in *. cbn [no_mergeable]. split; [|done].
  unfold mergeable in *. by rewrite Hs, Hf.
Qed.

Lemma coalesce_from_fixed rest : ∀ curr,
  no_mergeable (curr :: rest) → coalesce_from curr rest = curr :: rest.
Proof.
  induction rest as [|next rest IH]; intros curr Hno; [done|].
  destruct Hno as [Hm Hno]. rewrite coalesce_from_unfold, Hm. f_equal. by apply IH.
Qed.

(** X14.  One pass of the coalescing loop is enough: on every block list,
    running [coalesce_free_blocks] on its own result changes nothing. *)
Theorem coalesce_free_blocks_idempotent (head : list BlockHeader) :
  coalesce_free_blocks (coalesce_free_blocks head) = coalesce_free_blocks head.
Proof.
  destruct head as [|curr rest]; [done|]. cbn [coalesce_free_blocks].
  pose proof (coalesce_from_no_mergeable rest curr) as Hno.
  destruct (coalesce_from curr rest) as [|c r] eqn:E; [done|].
  cbn [coalesce_free_blocks]. by apply coalesce_from_fixed.
Qed.

Lemma no_adjacent_free_no_mergeable l : no_adjacent_free l → no_mergeable l.
Proof.
  induction l as [|b1 [|b2 l] IH]; [done | done |].
  intros [Hnot Hrest]. split; [|by apply IH].
  unfold mergeable. destruct (free b1), (free b2); try done.
  exfalso. by apply Hnot.
Qed.

Lemma no_adjacent_free_fmap l l' :
  free <$> l = free <$> l' → no_adjacent_free l → no_adjacent_free l'.
Proof.
  revert l'. induction l as [|b1 [|b2 l] IH]; intros l' Heq.
  - by destruct l'.
  - destruct l' as [|b1' [|b2' l']]; done.
  - destruct l' as [|b1' [|b2' l']]; try done.
    rewrite !fmap_cons in Heq. injection Heq as H1 H2 Hrest. intros [Hnot Hnaf].
    split; [by rewrite <- H1, <- H2|].
    apply IH; [|done]. rewrite !fmap_cons. by f_equal.
Qed.

Lemma no_adjacent_free_insert l i hdr hdr' :
  l !! i = Some hdr → free hdr' = free hdr →
  no_adjacent_free l → no_adjacent_free (<[i := hdr']> l).
Proof.
  intros Hi Hfree. apply no_adjacent_free_fmap.
  rewrite list_fmap_insert, Hfree. symmetry. apply list_insert_id.
  by rewrite list_lookup_fmap, Hi.
Qed.

Lemma no_adjacent_free_app l1 b l2 :
  no_adjacent_free (l1 ++ b :: l2) ↔
  no_adjacent_free (l1 ++ [b]) ∧ no_adjacent_free (b :: l2).
Proof.
  induction l1 as [|a [|a' l1] IH].
  - cbn [app]. split; [by split | by intros [_ ?]].
  - cbn [app no_adjacent_free]. destruct l2; cbn; tauto.
  - change ((a :: a' :: l1) ++ b :: l2) with (a :: (a' :: l1) ++ b :: l2).
    change ((a :: a' :: l1) ++ [b]) with (a :: (a' :: l1) ++ [b]).
    change ((a' :: l1) ++ b :: l2) with (a' :: l1 ++ b :: l2) in *.
    change ((a' :: l1) ++ [b]) with (a' :: l1 ++ [b]) in *.
    cbn [no_adjacent_free]. cbn [no_adjacent_free] in IH.
    destruct (l1 ++ b :: l2) eqn:E1, (l1 ++ [b]) eqn:E2;
      try (by destruct l1); tauto.
Qed.

Lemma no_adjacent_free_last l1 b b' :
  (free b' = true → free b = true) →
  no_adjacent_free (l1 ++ [b]) → no_adjacent_free (l1 ++ [b']).
Proof.
  intros Himp. induction l1 as [|a [|a' l1] IH]; [done | |].
  - cbn. intros [Hnot _]. split; [|done]. intros [? ?]. apply Hnot. auto.
  - change ((a :: a' :: l1) ++ [b]) with (a :: a' :: l1 ++ [b]).
    change ((a :: a' :: l1) ++ [b']) with (a :: a' :: l1 ++ [b']).
    change ((a' :: l1) ++ [b]) with (a' :: l1 ++ [b]) in IH.
    change ((a' :: l1) ++ [b']) with (a' :: l1 ++ [b']) in IH.
    cbn [no_adjacent_free]. cbn [no_adjacent_free] in IH. tauto.
Qed.

End LayoutMore.

Section LayoutInvariant.
Context `{!Platform}.
Hypothesis Hplatform : platform_ok.

Lemma tiles_no_mergeable l : ∀ a,
  tiles a l → no_mergeable l → no_adjacent_free l.
Proof.
  destruct Hplatform as (Hh & Hhs & Hg & Hend).
  induction l as [|b1 [|b2 l] IH]; intros a Ht Hno; [done | done |].
  destruct Hno as [Hm Hno].
  pose proof Ht as (Ha & Hself & Hstart & Hsz & Hlt & Ht').
  pose proof Ht' as (Ha' & Hself' & _ & _ & _ & _).
  pose proof (tiles_end Hplatform _ _ Ht').
  split; [|by eapply IH].
  intros [Hf1 Hf2]. unfold mergeable in Hm.
  rewrite Hf1, Hf2, Hself, Hself', wrap64_small, Z.eqb_refl in Hm by lia.
  done.
Qed.

(** The block list after an allocation that found the block [blk]. *)
Lemma malloc_head_shape st size_ strategy l1 blk l2 :
  size_ ≠ 0 →
  g_head (allocator_init st) = l1 ++ blk :: l2 →
  find_fit (g_head (allocator_init st)) (align_size size_) strategy
    = Some (length l1, blk) →
  g_head (allocator_malloc size_ strategy st).1 =
  if wrap64 (size blk - align_size size_) <=? wrap64 (sizeof_BlockHeader + 8)
  then
    l1 ++ {| self := self blk; id := g_next_id st;
             start := wrap64 (self blk + sizeof_BlockHeader);
             size := size blk; requested_size := size_;
             free := false; cacheable := true; cache_hits := 0 |} :: l2
  else
    l1 ++ {| self := self blk; id := g_next_id st;
             start := wrap64 (self blk + sizeof_BlockHeader);
             size := align_size size_; requested_size := size_;
             free := false; cacheable := true; cache_hits := 0 |}
       :: {| self := wrap64 (self blk + sizeof_BlockHeader + align_size size_);
             id := -1;
             start := wrap64 (wrap64 (self blk + sizeof_BlockHeader
                                      + align_size size_)
                              + sizeof_BlockHeader);
             size := wrap64 (wrap64 (size blk - align_size size_)
                             - sizeof_BlockHeader);
             requested_size := 0; free := true; cacheable := false;
             cache_hits := 0 |} :: l2.
Proof.
  intros Hne Hlist Hfit. unfold allocator_malloc.
  rewrite (proj2 (Z.eqb_neq size_ 0)), Hfit, Hlist by done.
  rewrite split_block_middle, allocator_init_next_id.
  destruct (wrap64 (size blk - align_size size_) <=? wrap64 (sizeof_BlockHeader + 8)).
  - rewrite list_lookup_middle by done. cbn zeta.
    case_match; cbn [fst g_head]; by rewrite insert_middle.
  - rewrite list_lookup_middle by done. cbn zeta.
    case_match; cbn [fst g_head]; by rewrite insert_middle.
Qed.

Lemma allocator_malloc_naf size_ strategy st :
  heap_inv st → no_adjacent_free (g_head (allocator_init st)) →
  no_adjacent_free (g_head (allocator_malloc size_ strategy st).1).
Proof.
  intros Hinv Hnaf.
  destruct (decide (size_ = 0)) as [->|Hne]; [done|].
  destruct (find_fit (g_head (allocator_init st)) (align_size size_) strategy)
    as [[i blk]|] eqn:Hfit.
  2:{ unfold allocator_malloc.
      by rewrite (proj2 (Z.eqb_neq size_ 0)), Hfit by done. }
  pose proof (find_fit_found (g_head (allocator_init st)) (align_size size_) strategy)
    as Hfound.
  rewrite Hfit in Hfound. destruct Hfound as (Hi & [Hfree _] & _).
  apply list_elem_of_split_length in Hi as (l1 & l2 & Hlist & ->).
  rewrite (malloc_head_shape st size_ strategy l1 blk l2 Hne Hlist Hfit).
  rewrite Hlist in Hnaf. apply no_adjacent_free_app in Hnaf as [Hpre Hsuf].
  case_match; apply no_adjacent_free_app.
  - split; [by eapply no_adjacent_free_last; [|exact Hpre]|].
    destruct l2 as [|h t]; [done|].
    destruct Hsuf as [_ Hsuf]. split; [by intros [? _] | done].
  - split; [by eapply no_adjacent_free_last; [|exact Hpre]|].
    split; [by intros [? _]|].
    destruct l2 as [|h t]; [done|].
    destruct Hsuf as [Hnot Hsuf]. split; [|done].
    intros [_ Hh]. by apply Hnot.
Qed.

Lemma coalesce_free_blocks_naf next_id l :
  blocks_inv next_id l → no_adjacent_free (coalesce_free_blocks l).
Proof.
  intros Hinv.
  destruct (coalesce_free_blocks_inv Hplatform next_id l Hinv) as [Ht _ _ _ _].
  destruct Ht as [->|Ht]; [done|].
  eapply tiles_no_mergeable; [exact Ht|].
  destruct l as [|curr rest]; [done|]. apply coalesce_from_no_mergeable.
Qed.

Lemma allocator_init_naf st :
  no_adjacent_free (g_head st) → no_adjacent_free (g_head (allocator_init st)).
Proof.
  unfold allocator_init. destruct (g_head st) eqn:E; [by cbn|].
  by rewrite E.
Qed.

Lemma run_op_naf st op :
  heap_inv st → no_adjacent_free (g_head st) →
  no_adjacent_free (g_head (run_op st op)).
Proof.
  intros Hinv Hnaf. pose proof (allocator_init_naf st Hnaf) as Hinit.
  pose proof (allocator_init_inv Hplatform st Hinv) as [Hinv' _].
  destruct op; cbn [run_op]; try done.
  - by apply allocator_malloc_naf.
  - by apply allocator_malloc_naf.
  - unfold allocator_free. destruct (id_ <? 0); [done|].
    destruct (find_block_by_id _ _) as [[i hdr]|] eqn:Hfind; [|done].
    apply find_block_by_id_spec in Hfind as (Hi & Hfree & _).
    cbn [g_head set_g_head set_heap_bytes].
    eapply coalesce_free_blocks_naf. by apply blocks_inv_release.
  - unfold allocator_set_block_cacheable. destruct (id_ <? 0); [done|].
    destruct (find_block_by_id _ _) as [[i hdr]|] eqn:Hfind; [|done].
    apply find_block_by_id_spec in Hfind as (Hi & _ & _).
    cbn [g_head set_g_head]. by eapply no_adjacent_free_insert.
  - unfold allocator_access. destruct (id_ <? 0); [done|].
    destruct (find_block_by_id _ _) as [[i hdr]|] eqn:Hfind; [|done].
    apply find_block_by_id_spec in Hfind as (Hi & _ & _).
    destruct (negb (cacheable hdr)); [done|].
    cbn [g_head set_g_head set_g_cache]. by eapply no_adjacent_free_insert.
  - by destruct (allocator_read_blocks id_ offset dst size_ st) as [-> _].
  - by destruct (allocator_write_blocks id_ offset src size_ st) as [-> _].
Qed.

Lemma reachable_naf st : reachable st → no_adjacent_free (g_head st).
Proof.
  induction 1 as [|st op Hreach IH _]; [done|].
  apply run_op_naf; [by apply reachable_inv | done].
Qed.

Lemma no_adjacent_free_lookup l :
  no_adjacent_free l →
  ∀ i b b', l !! i = Some b → l !! S i = Some b' →
            ¬ (free b = true ∧ free b' = true).
Proof.
  induction l as [|b1 [|b2 l] IH]; intros Hnaf i b b' Hi Hi'; [done | |].
  - by destruct i.
  - destruct Hnaf as [Hnot Hnaf]. destruct i as [|i].
    + cbn in Hi, Hi'. by injection Hi as <-; injection Hi' as <-.
    + by eapply (IH Hnaf i).
Qed.

(** X15.  In every state the program reaches, no two neighbouring blocks of
    the list are both free: allocation splits a free block into an allocated
    one and a remainder whose successor is allocated, and every release ends
    with the coalescing pass. *)
Theorem reachable_no_adjacent_free st i b b' :
  reachable st →
  g_head st !! i = Some b → g_head st !! S i = Some b' →
  ¬ (free b = true ∧ free b' = true).
Proof.
  intros Hreach. apply no_adjacent_free_lookup. by apply reachable_naf.
Qed.

Lemma tiles_lookup l : ∀ a,
  tiles a l →
  (∀ b, l !! 0%nat = Some b → self b = a) ∧
  (∀ i b, l !! i = Some b →
          start b = self b + sizeof_BlockHeader ∧ 0 ≤ size b ∧
          g_heap ≤ self b ∧ start b + size b ≤ g_heap + HEAP_SIZE) ∧
  (∀ i b b', l !! i = Some b → l !! S i = Some b' → self b' = start b + size b) ∧
  (∀ b, last l = Some b → start b + size b = g_heap + HEAP_SIZE).
Proof.
  induction l as [|b1 l IH]; intros a Ht; [done|].
  destruct Ht as (Ha & Hself & Hstart & Hsz & Hlt & Ht').
  pose proof (tiles_end Hplatform _ _ Ht') as Hend.
  destruct (IH _ Ht') as (Hfirst & Hevery & Hnext & Hlast).
  split_and!.
  - by intros b [= <-].
  - intros [|i] b Hb; [injection Hb as <-; lia | by eapply Hevery].
  - intros [|i] b b' Hb Hb'.
    + injection Hb as <-. cbn in Hb'. rewrite (Hfirst _ Hb'). lia.
    + by eapply Hnext.
  - destruct l as [|b2 l]; [|exact Hlast].
    intros b [= <-]. cbn in Ht'. lia.
Qed.

(** X16.  In every state the program reaches after the heap was set up, the
    blocks tile the heap in list order: the first header sits at the start
    of [g_heap], every payload starts right behind its header and lies
    inside the heap, every further header sits right behind the payload of
    its predecessor, and the payload of the last block ends where the heap
    ends. *)
Theorem reachable_blocks_tile st :
  reachable st → g_head st ≠ [] →
  (∀ b, g_head st !! 0%nat = Some b → self b = g_heap) ∧
  (∀ i b, g_head st !! i = Some b →
          start b = self b + sizeof_BlockHeader ∧ 0 ≤ size b ∧
          g_heap ≤ self b ∧ start b + size b ≤ g_heap + HEAP_SIZE) ∧
  (∀ i b b', g_head st !! i = Some b → g_head st !! S i = Some b' →
             self b' = start b + size b) ∧
  (∀ b, last (g_head st) = Some b → start b + size b = g_heap + HEAP_SIZE).
Proof.
  intros Hreach Hne.
  destruct (reachable_inv Hplatform st Hreach) as [[?|Ht] _ _ _ _]; [done|].
  by apply tiles_lookup.
Qed.

End LayoutInvariant.

(** ** The totals of [allocator_stats], block lookup and alignment *)

Section StatisticsMore.
Context `{!Platform}.
Hypothesis Hplatform : platform_ok.

Lemma stats_loop_from l : ∀ a t,
  tiles a l →
  0 ≤ total_free t → 0 ≤ total_used t → 0 ≤ free_blocks t → 0 ≤ used_blocks t →
  0 ≤ largest_free_block t ≤ total_free t →
  total_free t + total_used t
    + (free_blocks t + used_blocks t) * sizeof_BlockHeader = a - g_heap →
  let t' := foldl stats_step t l in
  total_free t' + total_used t'
    + (free_blocks t' + used_blocks t') * sizeof_BlockHeader = HEAP_SIZE ∧
  free_blocks t' = free_blocks t + Z.of_nat (length (filter (λ b, free b = true) l)) ∧
  used_blocks t' = used_blocks t + Z.of_nat (length (filter (λ b, free b = false) l)) ∧
  largest_free_block t ≤ largest_free_block t' ≤ total_free t' ∧
  (∀ b, b ∈ l → free b = true → size b ≤ largest_free_block t').
Proof.
  destruct Hplatform as (Hh & Hhs & Hg & Hend).
  induction l as [|b l IH]; intros a t Ht Hf Hu Hfb Hub Hl Hsum; cbn [foldl].
  - cbn in Ht. cbn [filter list_filter length]. split_and!; try lia.
    intros b Hb. by apply elem_of_nil in Hb.
  - destruct Ht as (Ha & Hself & Hstart & Hsz & Hlt & Ht).
    pose proof (tiles_end Hplatform _ _ Ht) as Hle.
    assert (Hcount : free_blocks t + used_blocks t < a - g_heap + 1) by nia.
    rewrite !filter_cons.
    specialize (IH _ (stats_step t b) Ht). revert IH. unfold stats_step.
    destruct (free b) eqn:Hfree; cbn [total_free total_used free_blocks
      used_blocks largest_free_block]; rewrite !wrap64_small by lia;
      intros IH.
    + destruct IH as (Hs' & Hfb' & Hub' & Hl' & Hall');
        [lia | lia | lia | lia | case_match; lia | lia |].
      rewrite decide_True by done. rewrite decide_False by done.
      cbn [length]. split; [done|]. split; [lia|]. split; [lia|]. split.
      * revert Hl'. case_match; lia.
      * intros b' [->|Hin]%elem_of_cons Hb'; [|by apply Hall'].
        revert Hl'. case_match; lia.
    + destruct IH as (Hs' & Hfb' & Hub' & Hl' & Hall');
        [lia | lia | lia | lia | lia | lia |].
      rewrite decide_False by done. rewrite decide_True by done.
      cbn [length]. split; [done|]. split; [lia|]. split; [lia|].
      split; [lia|].
      intros b' [->|Hin]%elem_of_cons Hb'; [congruence | by apply Hall'].
Qed.

(** X17.  The totals [allocator_stats] computes in a state the program
    reaches: payload bytes free and used plus one header per block make up
    the heap size exactly, the two counters are the numbers of free and of
    allocated blocks, and the largest free block is at most the free total
    and at least the size of every free block. *)
Theorem allocator_stats_totals st :
  reachable st →
  let r := allocator_stats st in
  total_free r.2 + total_used r.2
    + (free_blocks r.2 + used_blocks r.2) * sizeof_BlockHeader = HEAP_SIZE ∧
  free_blocks r.2 = Z.of_nat (length (filter (λ b, free b = true) (g_head r.1))) ∧
  used_blocks r.2 = Z.of_nat (length (filter (λ b, free b = false) (g_head r.1))) ∧
  0 ≤ largest_free_block r.2 ≤ total_free r.2 ∧
  (∀ b, b ∈ g_head r.1 → free b = true → size b ≤ largest_free_block r.2).
Proof.
  intros Hreach r.
  destruct (allocator_init_inv Hplatform st (reachable_inv Hplatform st Hreach))
    as [_ Ht].
  unfold r, allocator_stats. cbn [fst snd]. unfold stats_loop.
  destruct (stats_loop_from (g_head (allocator_init st)) g_heap
               {| total_free := 0; total_used := 0; free_blocks := 0;
                  used_blocks := 0; internal_frag_bytes := 0;
                  largest_free_block := 0 |} Ht)
    as (Hs & Hfb & Hub & Hl & Hall); [cbn; lia ..|].
  cbn [free_blocks used_blocks largest_free_block] in Hfb, Hub, Hl.
  split; [done|]. split; [lia|]. split; [lia|]. split; [lia | done].
Qed.

Lemma live_ids_elem l b :
  b ∈ l → free b = false → id b ∈ live_ids l.
Proof.
  intros Hin Hfree. unfold live_ids. apply list_elem_of_fmap.
  exists b. split; [done|]. by apply list_elem_of_filter.
Qed.

Lemma live_ids_position l :
  NoDup (live_ids l) →
  ∀ i j b b', l !! i = Some b → l !! j = Some b' →
              free b = false → free b' = false → id b = id b' → i = j.
Proof.
  induction l as [|b0 l IH]; intros Hnd i j b b' Hi Hj Hf Hf' Hid; [done|].
  rewrite live_ids_cons in Hnd.
  destruct i as [|i], j as [|j]; [done | | |].
  - injection Hi as <-. cbn in Hj. rewrite Hf in Hnd.
    apply NoDup_cons in Hnd as [Hnot _]. exfalso. apply Hnot.
    rewrite Hid. apply live_ids_elem; [by eapply list_elem_of_lookup_2 | done].
  - injection Hj as <-. cbn in Hi. rewrite Hf' in Hnd.
    apply NoDup_cons in Hnd as [Hnot _]. exfalso. apply Hnot.
    rewrite <- Hid. apply live_ids_elem; [by eapply list_elem_of_lookup_2 | done].
  - f_equal. eapply IH; [|exact Hi | exact Hj | done..].
    destruct (free b0); [done | by apply NoDup_cons in Hnd as [_ ?]].
Qed.

Lemma find_block_by_id_live l id_ i hdr :
  NoDup (live_ids l) →
  l !! i = Some hdr → free hdr = false → id hdr = id_ →
  find_block_by_id l id_ = Some (i, hdr).
Proof.
  intros Hnd Hi Hfree Hid.
  destruct (find_block_by_id l id_) as [[j h]|] eqn:Hfind.
  - apply find_block_by_id_spec in Hfind as (Hj & Hf' & Hid').
    assert (i = j) as <-
      by (eapply (live_ids_position l Hnd); [exact Hi | exact Hj | done | done | congruence]).
    congruence.
  - exfalso. apply find_block_from_None in Hfind. apply Hfind.
    rewrite <- Hid. apply live_ids_elem; [by eapply list_elem_of_lookup_2 | done].
Qed.

(** X18.  In a state the program reaches, [find_block_by_id] returns the
    header at position [i] exactly when that header is allocated and carries
    the id: no second allocated block with the same id can hide it. *)
Theorem find_block_by_id_iff st id_ i hdr :
  reachable st →
  find_block_by_id (g_head st) id_ = Some (i, hdr) ↔
  g_head st !! i = Some hdr ∧ free hdr = false ∧ id hdr = id_.
Proof.
  intros Hreach. split; [apply find_block_by_id_spec|].
  intros (Hi & Hfree & Hid).
  destruct (reachable_inv Hplatform st Hreach) as [_ _ _ _ Hnd].
  by apply find_block_by_id_live.
Qed.

(** X19.  [align_size] rounds up to the alignment: for a size [s] with
    [s + align - 1] below [2^64] the result is a multiple of
    [alignof(max_align_t)], at least [s] and less than [s + align], and it
    is [s] itself when [s] is already a multiple. *)
Theorem align_size_rounds_up s :
  alignment_ok → 0 ≤ s → s + alignof_max_align_t - 1 < 2 ^ 64 →
  align_size s mod alignof_max_align_t = 0 ∧
  s ≤ align_size s < s + alignof_max_align_t ∧
  (s mod alignof_max_align_t = 0 → align_size s = s).
Proof.
  intros (k & Hk & Halign) Hs Hfit. unfold align_size. rewrite Halign in *.
  assert (Hpow : 0 < 2 ^ k) by (apply Z.pow_pos_nonneg; lia).
  rewrite (wrap64_small (s + 2 ^ k - 1)) by lia.
  rewrite land_align_mask by lia.
  pose proof (Z.mod_pos_bound (s + 2 ^ k - 1) (2 ^ k) Hpow) as Hb.
  pose proof (Z.div_mod (s + 2 ^ k - 1) (2 ^ k) ltac:(lia)) as Hdm.
  split_and!.
  - replace (s + 2 ^ k - 1 - (s + 2 ^ k - 1) mod 2 ^ k)
      with ((s + 2 ^ k - 1) / 2 ^ k * 2 ^ k) by lia.
    apply Z.mod_mul. lia.
  - lia.
  - lia.
  - intros Hmod.
    pose proof (Z.div_mod s (2 ^ k) ltac:(lia)) as Hs'. rewrite Hmod in Hs'.
    replace (s + 2 ^ k - 1) with (2 ^ k - 1 + s / 2 ^ k * 2 ^ k) by lia.
    rewrite Z.mod_add by lia. rewrite Z.mod_small by lia. lia.
Qed.

End StatisticsMore.

(** ** Allocating a block and releasing it again *)

Section RoundTrip.
Context `{!Platform}.
Hypothesis Hplatform : platform_ok.

Lemma coalesce_from_prefix rest1 x rest2 : ∀ curr,
  no_mergeable (curr :: rest1 ++ [x]) →
  coalesce_from curr (rest1 ++ x :: rest2) = curr :: rest1 ++ coalesce_from x rest2.
Proof.
  induction rest1 as [|a rest1 IH]; intros curr [Hm Hno].
  - cbn [app]. by rewrite coalesce_from_unfold, Hm.
  - change ((a :: rest1) ++ x :: rest2) with (a :: rest1 ++ x :: rest2).
    rewrite coalesce_from_unfold, Hm. cbn [app]. f_equal. by apply IH.
Qed.

Lemma coalesce_middle l1 x l2 :
  no_adjacent_free (l1 ++ [x]) →
  coalesce_free_blocks (l1 ++ x :: l2) = l1 ++ coalesce_from x l2.
Proof.
  intros Hnaf. destruct l1 as [|c l1]; [done|].
  cbn [app coalesce_free_blocks]. apply coalesce_from_prefix.
  by apply no_adjacent_free_no_mergeable.
Qed.

Lemma no_adjacent_free_head b b' l :
  free b' = free b → no_adjacent_free (b :: l) → no_adjacent_free (b' :: l).
Proof. intros Hfree. destruct l; [done|]. cbn. by rewrite Hfree. Qed.

Lemma same_block_refl l : Forall2 same_block l l.
Proof. apply Forall_Forall2_diag, Forall_forall. by intros b _. Qed.

Lemma release_after_malloc l1 blk l2 size_ aligned next_id :
  tiles g_heap (l1 ++ blk :: l2) →
  no_adjacent_free (l1 ++ blk :: l2) →
  free blk = true → free_block_ok blk → 0 ≤ aligned ≤ size blk →
  let A := {| self := self blk; id := next_id;
              start := wrap64 (self blk + sizeof_BlockHeader);
              size := (if wrap64 (size blk - aligned)
                          <=? wrap64 (sizeof_BlockHeader + 8)
                       then size blk else aligned);
              requested_size := size_;
              free := false; cacheable := true; cache_hits := 0 |} in
  let R := {| self := wrap64 (self blk + sizeof_BlockHeader + aligned);
              id := -1;
              start := wrap64 (wrap64 (self blk + sizeof_BlockHeader + aligned)
                               + sizeof_BlockHeader);
              size := wrap64 (wrap64 (size blk - aligned) - sizeof_BlockHeader);
              requested_size := 0; free := true; cacheable := false;
              cache_hits := 0 |} in
  let F := {| self := self A; id := -1; start := start A; size := size A;
              requested_size := requested_size A; free := true;
              cacheable := false; cache_hits := 0 |} in
  Forall2 same_block
    (coalesce_free_blocks
       (l1 ++ F :: (if wrap64 (size blk - aligned)
                       <=? wrap64 (sizeof_BlockHeader + 8)
                    then l2 else R :: l2)))
    (l1 ++ blk :: l2).
Proof.
  destruct Hplatform as (Hh & Hhs & Hg & Hend).
  intros Ht Hnaf Hfree Hok Hal A R F.
  destruct (tiles_lookup Hplatform _ _ Ht) as (_ & Hevery & _ & _).
  assert (Hblk : (l1 ++ blk :: l2) !! length l1 = Some blk)
    by (by apply list_lookup_middle).
  destruct (Hevery (length l1) blk Hblk) as (Hstart & Hsz & Hlo & Hhi).
  destruct (Hok Hfree) as [Hid Hcache].
  apply no_adjacent_free_app in Hnaf as [Hpre Hsuf].
  assert (Hpre' : no_adjacent_free (l1 ++ [F]))
    by (by eapply no_adjacent_free_last; [|exact Hpre]).
  assert (HstartA : wrap64 (self blk + sizeof_BlockHeader) = start blk)
    by (rewrite wrap64_small; lia).
  rewrite coalesce_middle by done.
  apply Forall2_app; [apply same_block_refl|].
  subst A R F. cbn [self start size requested_size].
  rewrite (wrap64_small (size blk - aligned)) by lia.
  rewrite (wrap64_small (sizeof_BlockHeader + 8)) by lia.
  destruct (Z.leb_spec (size blk - aligned) (sizeof_BlockHeader + 8)) as [Hs|Hs].
  - rewrite coalesce_from_fixed
      by (apply no_adjacent_free_no_mergeable;
          by eapply no_adjacent_free_head; [|exact Hsuf]).
    apply Forall2_cons; split; [|apply same_block_refl].
    unfold same_block. cbn. by rewrite HstartA, Hid, Hfree, Hcache.
  - rewrite coalesce_from_unfold.
    assert (Hm : mergeable
              {| self := self blk; id := -1;
                 start := wrap64 (self blk + sizeof_BlockHeader);
                 size := aligned; requested_size := size_; free := true;
                 cacheable := false; cache_hits := 0 |}
              {| self := wrap64 (self blk + sizeof_BlockHeader + aligned);
                 id := -1;
                 start := wrap64 (wrap64 (self blk + sizeof_BlockHeader + aligned)
                                  + sizeof_BlockHeader);
                 size := wrap64 (size blk - aligned - sizeof_BlockHeader);
                 requested_size := 0; free := true; cacheable := false;
                 cache_hits := 0 |} = true).
    { unfold mergeable. cbn. apply Z.eqb_refl. }
    rewrite Hm.
    rewrite coalesce_from_fixed
      by (apply no_adjacent_free_no_mergeable;
          by eapply no_adjacent_free_head; [|exact Hsuf]).
    apply Forall2_cons; split; [|apply same_block_refl].
    unfold same_block, absorb. cbn.
    rewrite HstartA, Hid, Hfree, Hcache.
    rewrite (wrap64_small (size blk - aligned - sizeof_BlockHeader)) by lia.
    rewrite (wrap64_small (sizeof_BlockHeader + _)) by lia.
    rewrite wrap64_small by lia.
    split_and!; [done | done | done | lia | done | done].
Qed.

(** X20.  Allocating and releasing again restores the layout: in a state
    the program reaches, an allocation that succeeds followed by the release
    of the id it returned leaves a block list that agrees with the list
    before the allocation (after the lazy initialisation) in every header's
    place, payload start, size, id, free flag and cacheable flag; the id
    counter stays advanced by one. *)
Theorem malloc_then_free_restores st size_ strategy st1 r :
  reachable st →
  allocator_malloc size_ strategy st = (st1, r) → r ≠ -1 →
  Forall2 same_block (g_head (allocator_free r st1)) (g_head (allocator_init st)) ∧
  g_next_id (allocator_free r st1) = g_next_id st + 1.
Proof.
  intros Hreach Hcall Hr.
  pose proof (reachable_inv Hplatform st Hreach) as Hinv.
  pose proof (reachable_naf Hplatform st Hreach) as Hnaf.
  apply allocator_init_naf in Hnaf.
  destruct (allocator_init_inv Hplatform st Hinv) as [Hinv0 Ht].
  destruct (decide (size_ = 0)) as [->|Hne].
  { unfold allocator_malloc in Hcall. cbn in Hcall. congruence. }
  destruct (find_fit (g_head (allocator_init st)) (align_size size_) strategy)
    as [[i blk]|] eqn:Hfit.
  2:{ unfold allocator_malloc in Hcall.
      rewrite (proj2 (Z.eqb_neq size_ 0)), Hfit in Hcall by done. congruence. }
  destruct (malloc_success Hplatform st size_ strategy i blk Hinv Hne Hfit)
    as (st' & block' & Hcall' & Hinv' & Hnext & Hi' & Hfree' & Hid' & Hreq
        & Hlook & _).
  rewrite Hcall in Hcall'. injection Hcall' as <- ->.
  pose proof (find_fit_found (g_head (allocator_init st)) (align_size size_) strategy)
    as Hfound.
  rewrite Hfit in Hfound. destruct Hfound as (Hi & [Hfree Hfits] & _).
  apply list_elem_of_split_length in Hi as (l1 & l2 & Hlist & ->).
  pose proof (malloc_head_shape st size_ strategy l1 blk l2 Hne Hlist Hfit)
    as Hshape.
  rewrite Hcall in Hshape. cbn [fst] in Hshape.
  assert (Hok : free_block_ok blk).
  { destruct Hinv0 as [_ _ Hf _ _]. rewrite Hlist in Hf.
    apply Forall_app in Hf as [_ Hf]. by apply Forall_cons in Hf as [? _]. }
  assert (Hnonneg : 0 ≤ g_next_id st) by (by destruct Hinv as [_ ? _ _ _]).
  unfold allocator_free.
  rewrite allocator_init_nonempty by (intros E; by rewrite E in Hi').
  rewrite (proj2 (Z.ltb_ge (g_next_id st) 0)), Hlook by lia.
  cbn [g_head g_next_id set_g_head set_heap_bytes]. split; [|done].
  rewrite Hlist in Ht, Hnaf. rewrite Hlist.
  pose proof (release_after_malloc l1 blk l2 size_ (align_size size_)
                (g_next_id st) Ht Hnaf Hfree Hok
                (conj (align_size_nonneg size_) Hfits)) as Hrel.
  cbn zeta in Hrel. cbn [self start size requested_size] in Hrel.
  rewrite Hshape in Hi' |- *.
  destruct (wrap64 (size blk - align_size size_)
              <=? wrap64 (sizeof_BlockHeader + 8));
    rewrite list_lookup_middle in Hi' by done; injection Hi' as <-;
    rewrite insert_middle; exact Hrel.
Qed.

End RoundTrip.

(** ** The properties above on a concrete run

    The state [example_state] (two allocations, a write into the second
    block, the release of the first block) on the platform [lp64]. *)

Lemma lp64_platform_ok : @platform_ok lp64.
Proof. unfold platform_ok. cbn. lia. Qed.

Lemma lp64_alignment_ok : @alignment_ok lp64.
Proof. exists 4. split; [lia | done]. Qed.

Lemma example_state_head :
  g_head example_state =
  [ {| self := 4096; id := -1; start := 4152; size := 112;
       requested_size := 100; free := true; cacheable := false;
       cache_hits := 0 |};
    {| self := 4264; id := 1; start := 4320; size := 208;
       requested_size := 200; free := false; cacheable := true;
       cache_hits := 0 |};
    {| self := 4528; id := -1; start := 4584; size := 65048;
       requested_size := 0; free := true; cacheable := false;
       cache_hits := 0 |} ].
Proof. by vm_compute. Qed.

Lemma example_state_init : @allocator_init lp64 example_state = example_state.
Proof. apply allocator_init_nonempty. by rewrite example_state_head. Qed.

Lemma read_write_advance_clock_witness :
  let c := g_cache (@allocator_init lp64 example_state) in
  (∀ dst_bytes,
     let c' := g_cache (@allocator_read lp64 1 0 (Some dst_bytes) 2
                          example_state).1.1 in
     m_timestamp c' = wrap64 (m_timestamp c + 2) ∧
     m_total_accesses c' = wrap64 (m_total_accesses c + 2)) ∧
  (∀ src_bytes,
     let c' := g_cache (@allocator_write lp64 1 0 (Some src_bytes) 2
                          example_state).1 in
     m_timestamp c' = wrap64 (m_timestamp c + 2) ∧
     m_total_accesses c' = wrap64 (m_total_accesses c + 2)).
Proof.
  apply (@read_write_advance_clock lp64 example_state 1 0 2 1%nat
           {| self := 4264; id := 1; start := 4320; size := 208;
              requested_size := 200; free := false; cacheable := true;
              cache_hits := 0 |}).
  - rewrite example_state_init, example_state_head. reflexivity.
  - lia.
  - lia.
  - lia.
  - cbn. lia.
  - cbn. lia.
  - rewrite example_state_init. vm_compute. discriminate.
Defined.



Lemma allocator_free_idempotent_witness :
  @allocator_free lp64 1 (@allocator_free lp64 1 example_state)
  = @allocator_free lp64 1 example_state.
Proof.
  apply (@allocator_free_idempotent lp64 example_state 1).
  - apply lp64_platform_ok.
  - apply example_state_reachable.
Defined.

Lemma allocator_malloc_fails_iff_witness :
  let r := @allocator_malloc lp64 50 First example_state in
  (r.2 = -1 ↔
   50 = 0 ∨
   find_fit (g_head (@allocator_init lp64 example_state))
     (@align_size lp64 50) First = None) ∧
  (r.2 = -1 →
   g_head r.1 = g_head (@allocator_init lp64 example_state) ∧
   heap_bytes r.1 = heap_bytes example_state ∧
   g_next_id r.1 = g_next_id example_state).
Proof.
  apply (@allocator_malloc_fails_iff lp64 example_state 50 First).
  - apply lp64_platform_ok.
  - apply example_state_reachable.
Defined.

Lemma reachable_counters_witness :
  g_alloc_requests example_state
  = wrap64 (g_alloc_success example_state + g_alloc_fail example_state).
Proof.
  apply (@reachable_counters lp64 example_state).
  apply example_state_reachable.
Defined.

Lemma reachable_no_adjacent_free_witness :
  ¬ (free {| self := 4096; id := -1; start := 4152; size := 112;
             requested_size := 100; free := true; cacheable := false;
             cache_hits := 0 |} = true ∧
     free {| self := 4264; id := 1; start := 4320; size := 208;
             requested_size := 200; free := false; cacheable := true;
             cache_hits := 0 |} = true).
Proof.
  apply (@reachable_no_adjacent_free lp64 lp64_platform_ok example_state 0%nat).
  - apply example_state_reachable.
  - rewrite example_state_head. reflexivity.
  - rewrite example_state_head. reflexivity.
Defined.

Lemma reachable_blocks_tile_witness :
  (∀ b, g_head example_state !! 0%nat = Some b → self b = @g_heap lp64) ∧
  (∀ i b, g_head example_state !! i = Some b →
          start b = self b + @sizeof_BlockHeader lp64 ∧ 0 ≤ size b ∧
          @g_heap lp64 ≤ self b ∧
          start b + size b ≤ @g_heap lp64 + @HEAP_SIZE lp64) ∧
  (∀ i b b', g_head example_state !! i = Some b →
             g_head example_state !! S i = Some b' →
             self b' = start b + size b) ∧
  (∀ b, last (g_head example_state) = Some b →
        start b + size b = @g_heap lp64 + @HEAP_SIZE lp64).
Proof.
  apply (@reachable_blocks_tile lp64 lp64_platform_ok example_state).
  - apply example_state_reachable.
  - by rewrite example_state_head.
Defined.

Lemma allocator_stats_totals_witness :
  let r := @allocator_stats lp64 example_state in
  total_free r.2 + total_used r.2
    + (free_blocks r.2 + used_blocks r.2) * @sizeof_BlockHeader lp64
    = @HEAP_SIZE lp64 ∧
  free_blocks r.2
    = Z.of_nat (length (filter (λ b, free b = true) (g_head r.1))) ∧
  used_blocks r.2
    = Z.of_nat (length (filter (λ b, free b = false) (g_head r.1))) ∧
  0 ≤ largest_free_block r.2 ≤ total_free r.2 ∧
  (∀ b, b ∈ g_head r.1 → free b = true → size b ≤ largest_free_block r.2).
Proof.
  apply (@allocator_stats_totals lp64 lp64_platform_ok example_state).
  apply example_state_reachable.
Defined.

Lemma find_block_by_id_iff_witness :
  let hdr := {| self := 4264; id := 1; start := 4320; size := 208;
                requested_size := 200; free := false; cacheable := true;
                cache_hits := 0 |} in
  find_block_by_id (g_head example_state) 1 = Some (1%nat, hdr) ↔
  g_head example_state !! 1%nat = Some hdr ∧ free hdr = false ∧ id hdr = 1.
Proof.
  intros hdr.
  apply (@find_block_by_id_iff lp64 lp64_platform_ok example_state 1 1%nat hdr).
  apply example_state_reachable.
Defined.

Lemma align_size_rounds_up_witness :
  @align_size lp64 100 mod @alignof_max_align_t lp64 = 0 ∧
  100 ≤ @align_size lp64 100 < 100 + @alignof_max_align_t lp64 ∧
  (100 mod @alignof_max_align_t lp64 = 0 → @align_size lp64 100 = 100).
Proof.
  apply (@align_size_rounds_up lp64 100).
  - apply lp64_alignment_ok.
  - lia.
  - cbn. lia.
Defined.

Lemma malloc_then_free_restores_witness :
  let st1 := (@allocator_malloc lp64 50 First example_state).1 in
  Forall2 same_block (g_head (@allocator_free lp64 2 st1))
    (g_head (@allocator_init lp64 example_state)) ∧
  g_next_id (@allocator_free lp64 2 st1) = g_next_id example_state + 1.
Proof.
  intros st1.
  apply (@malloc_then_free_restores lp64 lp64_platform_ok example_state 50
           First st1 2).
  - apply example_state_reachable.
  - apply injective_projections; [reflexivity | by vm_compute].
  - lia.
Defined.
